(** * vision_toolbox/utils.py: camera and space utilities

    A shallow embedding of [src/vision_toolbox/utils.py] and the properties
    its specification states about it.

    Conventions of the embedding.
    - NumPy arrays are lists: a [(N, k)] array is a list of rows, an image
      of shape [(h, w, 1)] is a list of [h] rows of [w] pixels (the single
      channel is the pixel value itself).
    - Floating-point arithmetic is idealised.  Array code that only adds,
      multiplies, divides, compares and rounds works on canonical rationals
      [Qc], so that every definition computes; the field-of-view code, which
      calls [tan] and [arctan2], works on the real numbers [R].  The
      rounding error of an arithmetic operation, [NaN] and infinite inputs
      are outside the model.
    - A conversion between number types is a step of the program and is
      modelled: the casts to [np.int32] and [np.int64], and the [float32]
      buffer of [Get_depth_map_from], which rounds every depth it stores to
      24 significant bits and holds the infinities ([PInf], [NInf]).
    - An integer used as a float is [Qc_of_Z].
    - Fixed-width integers ([np.int32], [np.int64]) are [Z] with the
      two's-complement wrap written out.
    - A Python exception is a [Raise] in the [result] monad. *)

From Stdlib Require Import ZArith QArith Qcanon Qround Reals Lra Lia.
From stdpp Require Import base numbers list strings sorting.

(** ** Python outcomes *)

Inductive exn : Set :=
| ValueError      (* raised by a shape guard of this file, or by NumPy *)
| IndexError
| AssertionError
| LibraryError.   (* raised inside scipy's rotation conversion *)

Inductive result (A : Type) : Type :=
| Ok (a : A)
| Raise (e : exn).
Arguments Ok {A} a.
Arguments Raise {A} e.

#[global] Instance result_bind : MBind result := fun A B k m =>
  match m with Ok a => k a | Raise e => Raise e end.

#[global] Instance result_fmap : FMap result := fun A B f m =>
  match m with Ok a => Ok (f a) | Raise e => Raise e end.

#[global] Instance exn_eq_dec : EqDecision exn.
Proof. solve_decision. Defined.

#[global] Instance result_eq_dec {A} `{EqDecision A} : EqDecision (result A).
Proof. solve_decision. Defined.

(** Closes a decidable closed goal by evaluation. *)
Ltac by_evaluation := apply (bool_decide_unpack _); by vm_compute.

(** ** Numbers *)

Definition half : Qc := Q2Qc (1 # 2).

(** [np.round]: the nearest integer, ties to the even one.  The result is
    an integral float; it is kept as the integer it denotes. *)
Definition np_round (x : Qc) : Z :=
  let n := Qfloor x in
  let r := (x - Qc_of_Z n)%Qc in
  if bool_decide (r < half)%Qc then n
  else if bool_decide (half < r)%Qc then (n + 1)%Z
  else if Z.even n then n else (n + 1)%Z.

(** Arithmetic in [np.int32] and conversion to it: reduction modulo [2^32]
    into the signed range.  (The conversion of an integral float is exact
    inside the range, which is where [Get_depth_map_from] uses it: the
    values it converts lie in [0, w) and [0, h).) *)
Definition wrap32 (z : Z) : Z :=
  ((z + 2 ^ 31) mod 2 ^ 32 - 2 ^ 31)%Z.

(** A float held by the buffer of [Get_depth_map_from]: a finite value or
    one of the two infinities. *)
Inductive depth : Set :=
| Fin (q : Qc)
| PInf
| NInf.

#[global] Instance depth_eq_dec : EqDecision depth.
Proof. solve_decision. Defined.

(** The order of the floats. *)
Definition depth_le (a b : depth) : Prop :=
  match a, b with
  | NInf, _ => True
  | _, PInf => True
  | Fin x, Fin y => (x ≤ y)%Qc
  | _, _ => False
  end.

#[global] Instance depth_le_dec : RelDecision depth_le.
Proof. intros [x| |] [y| |]; simpl; apply _. Defined.

(** [np.minimum] on two floats. *)
Definition minimum (a b : depth) : depth :=
  if decide (depth_le a b) then a else b.

(** ** Conversion to [float32]

    A finite [float32] is an integer multiple of [2^-149] (the least
    subnormal) with a significand of at most 24 bits, below [2^128].  The
    conversion rounds to the nearest value with such a significand, ties
    to the even significand, and gives an infinity when that value
    reaches [2^128]. *)

Definition subnormal_scale : Z := 2 ^ 149.
Definition overflow_threshold : Z := 2 ^ 277.

(** The power of two that one unit of the significand is worth, for a
    non-negative value given in units of [2^-149]. *)
Definition ulp_exponent (X : Qc) : Z := Z.max 0 (Z.log2 (Qfloor X) - 23).

(** Rounding of a non-negative value, in units of [2^-149], to a
    24-bit significand. *)
Definition round_significand (X : Qc) : Z :=
  let s := ulp_exponent X in
  (np_round (X / Qc_of_Z (2 ^ s)) * 2 ^ s)%Z.

(** [np.float32(q)]: the value is put in units of [2^-149], rounded, and
    checked against [2^128]; a negative value is the mirror image. *)
Definition float32 (q : Qc) : depth :=
  if bool_decide (0 ≤ q)%Qc then
    let R := round_significand (q * Qc_of_Z subnormal_scale) in
    if (overflow_threshold <=? R)%Z then PInf
    else Fin (Qc_of_Z R / Qc_of_Z subnormal_scale)
  else
    let R := round_significand (- q * Qc_of_Z subnormal_scale) in
    if (overflow_threshold <=? R)%Z then NInf
    else Fin (- (Qc_of_Z R / Qc_of_Z subnormal_scale)).

(** [astype(np.float32)] on a float. *)
Definition astype_float32 (a : depth) : depth :=
  match a with Fin q => float32 q | PInf => PInf | NInf => NInf end.

(** [np.nan_to_num(_, nan=0.0, posinf=0.0, neginf=0.0)]. *)
Definition nan_to_num (a : depth) : Qc :=
  match a with Fin q => q | PInf | NInf => 0%Qc end.

(** The value is a [float32]: the conversion leaves it as it is. *)
Definition is_float32 (q : Qc) : Prop := float32 q = Fin q.

#[global] Instance is_float32_dec q : Decision (is_float32 q).
Proof. unfold is_float32. apply _. Defined.

(** ** Array helpers *)

Section Arrays.
Context {A : Type}.

(** [xs[mask]] for a boolean mask over a one-dimensional array. *)
Fixpoint select (mask : list bool) (xs : list A) : list A :=
  match mask, xs with
  | b :: mask', x :: xs' =>
      if b then x :: select mask' xs' else select mask' xs'
  | _, _ => []
  end.

(** [flat.reshape(h, w)] of a flat buffer of [h * w] entries. *)
Fixpoint reshape (h w : nat) (flat : list A) : list (list A) :=
  match h with
  | O => []
  | S h' => take w flat :: reshape h' w (drop w flat)
  end.

(** The first two entries of [arr.shape] for a list of rows. *)
Definition shape2 (arr : list (list A)) : nat * nat :=
  (length arr, length (hd [] arr)).

(** [arr] has exactly the shape [(h, w)]. *)
Definition has_shape (h w : nat) (arr : list (list A)) : Prop :=
  length arr = h ∧ Forall (fun row => length row = w) arr.

End Arrays.

(** Python's index rule for a buffer of [n] entries: a negative index
    counts from the end. *)
Definition py_index (n : nat) (i : Z) : Z :=
  if (i <? 0)%Z then (i + Z.of_nat n)%Z else i.

(** [a[i] = minimum(a[i], v)] on a [float32] buffer [a] and a [float64]
    value [v]: the minimum is taken in [float64] and converted to the
    buffer's type as it is stored.  An index outside the buffer is an
    [IndexError]. *)
Definition minimum_at1 (a : list depth) (iv : Z * Qc) : result (list depth) :=
  let i := py_index (length a) iv.1 in
  if bool_decide (0 ≤ i < Z.of_nat (length a))%Z
  then Ok (alter (fun x => astype_float32 (minimum x (Fin iv.2)))
                 (Z.to_nat i) a)
  else Raise IndexError.

(** [np.minimum.at(a, idx, vals)] on a [float32] buffer: the unbuffered
    update, one pair after the other. *)
Fixpoint minimum_at (a : list depth) (ivs : list (Z * Qc)) : result (list depth) :=
  match ivs with
  | [] => Ok a
  | iv :: ivs' => a' ← minimum_at1 a iv; minimum_at a' ivs'
  end.

(** ** Array types of the source *)

Abbreviation VEC_3 := (list (Qc * Qc * Qc)).
Abbreviation IMG_1C := (list (list Qc)).
Abbreviation MASK := (list (list bool)).

(** ** Camera_Process: the projector *)

Definition px (p : Qc * Qc * Qc) : Qc := p.1.1.
Definition py (p : Qc * Qc * Qc) : Qc := p.1.2.
Definition pz (p : Qc * Qc * Qc) : Qc := p.2.

(** [np.meshgrid(np.arange(h), np.arange(w), indexing='ij')]. *)
Definition meshgrid_ij (h w : nat) : list (list Z) * list (list Z) :=
  (map (fun y => replicate w y) (seqZ 0 (Z.of_nat h)),
   replicate h (seqZ 0 (Z.of_nat w))).

(** [np.c_[xs, ys, zs]] for three columns. *)
Fixpoint c_3 (xs ys zs : list Qc) : VEC_3 :=
  match xs, ys, zs with
  | x :: xs', y :: ys', z :: zs' => (x, y, z) :: c_3 xs' ys' zs'
  | _, _, _ => []
  end.

(** [Get_pts_from(depth_map, mask)].  A mask whose shape differs from the
    first two axes of the depth map makes the boolean index fail. *)
Definition Get_pts_from (depth_map : IMG_1C) (mask : option MASK)
  : result VEC_3 :=
  let '(_h, _w) := shape2 depth_map in
  let _mask := default (replicate _h (replicate _w true)) mask in
  if bool_decide (map length _mask = map length depth_map) then
    let _d_map := select (concat _mask) (concat depth_map) in
    let '(_yy, _xx) := meshgrid_ij _h _w in
    Ok (c_3
          (zip_with Qcmult (map Qc_of_Z (select (concat _mask) (concat _xx))) _d_map)
          (zip_with Qcmult (map Qc_of_Z (select (concat _mask) (concat _yy))) _d_map)
          _d_map)
  else Raise IndexError.

(** [Get_depth_map_from(pts, (w, h))].  A negative size is refused by
    [np.full] or by [reshape]. *)
Definition Get_depth_map_from (pts : VEC_3) (depth_map_size : Z * Z)
  : result IMG_1C :=
  let '(_w, _h) := depth_map_size in
  if bool_decide (_w < 0 ∨ _h < 0)%Z then Raise ValueError else
  let _vis_pts := filter (fun p => (0 < pz p)%Qc) pts in
  let _vis_pts :=
    map (fun p => ((px p / pz p)%Qc, (py p / pz p)%Qc, pz p)) _vis_pts in
  let _u := map (fun p => np_round (px p)) _vis_pts in
  let _v := map (fun p => np_round (py p)) _vis_pts in
  let _mask :=
    zip_with (fun u v =>
                (0 <=? u)%Z && (u <? _w)%Z && (0 <=? v)%Z && (v <? _h)%Z)
             _u _v in
  let _u := map wrap32 (select _mask _u) in
  let _v := map wrap32 (select _mask _v) in
  let _idx :=
    map wrap32 (zip_with (fun v u => wrap32 (wrap32 (v * _w) + u)) _v _u) in
  let _d_flat := replicate (Z.to_nat (_h * _w)) PInf in (* float32 *)
  _d_flat ← minimum_at _d_flat (zip _idx (select _mask (map pz _vis_pts)));
  let _d_flat := map nan_to_num _d_flat in
  let _d_flat :=
    map (fun d => if bool_decide (d < 0)%Qc then 0%Qc else d) _d_flat in
  Ok (reshape (Z.to_nat _h) (Z.to_nat _w) _d_flat).


(** ** Facts about the array helpers *)

Section ArrayFacts.
Context {A B : Type}.

Lemma select_app (m1 m2 : list bool) (xs1 xs2 : list A) :
  length m1 = length xs1 →
  select (m1 ++ m2) (xs1 ++ xs2) = select m1 xs1 ++ select m2 xs2.
Proof.
  revert xs1. induction m1 as [|b m1 IH]; intros [|x xs1] Hlen;
    simplify_eq/=; [done|].
  destruct b; simpl; by rewrite IH.
Qed.

Lemma length_reshape h w (flat : list A) :
  length (reshape h w flat) = h.
Proof. revert flat. induction h; intros; simpl; [done|by rewrite IHh]. Qed.

Lemma lookup_reshape h w (flat : list A) v :
  v < h → reshape h w flat !! v = Some (take w (drop (v * w) flat)).
Proof.
  revert flat v. induction h as [|h IH]; intros flat [|v] Hv; simpl; try lia.
  - by rewrite drop_0.
  - rewrite IH by lia. by rewrite drop_drop.
Qed.

Lemma lookup_reshape_pixel h w (flat : list A) v u :
  v < h → u < w →
  reshape h w flat !! v ≫= (.!! u) = flat !! (v * w + u).
Proof.
  intros Hv Hu. rewrite lookup_reshape by done. simpl.
  rewrite lookup_take_lt by done. by rewrite lookup_drop.
Qed.

Lemma reshape_has_shape h w (flat : list A) :
  length flat = h * w → has_shape h w (reshape h w flat).
Proof.
  intros Hlen. split; [apply length_reshape|].
  revert flat Hlen. induction h as [|h IH]; intros flat Hlen; simpl.
  - constructor.
  - constructor.
    + rewrite length_take. lia.
    + apply IH. rewrite length_drop. lia.
Qed.

(** Two arrays of one shape with the same pixels are equal. *)
Lemma has_shape_ext h w (a b : list (list A)) :
  has_shape h w a → has_shape h w b →
  (∀ v u, v < h → u < w → a !! v ≫= (.!! u) = b !! v ≫= (.!! u)) →
  a = b.
Proof.
  intros [Ha Ha'] [Hb Hb'] Hpix. apply list_eq. intros v.
  destruct (decide (v < h)) as [Hv|Hv].
  - destruct (lookup_lt_is_Some_2 a v) as [ra Hra]; [lia|].
    destruct (lookup_lt_is_Some_2 b v) as [rb Hrb]; [lia|].
    rewrite Hra, Hrb. f_equal. apply list_eq. intros u.
    assert (length ra = w) as Hla
      by (eapply (proj1 (Forall_lookup _ _) Ha'); eauto).
    assert (length rb = w) as Hlb
      by (eapply (proj1 (Forall_lookup _ _) Hb'); eauto).
    destruct (decide (u < w)) as [Hu|Hu].
    + specialize (Hpix v u Hv Hu). by rewrite Hra, Hrb in Hpix.
    + rewrite !lookup_ge_None_2 by lia. done.
  - rewrite !lookup_ge_None_2 by lia. done.
Qed.

End ArrayFacts.

(** ** Facts about [np.round] and the conversion to [float32] *)

Section Rounding.
Local Open Scope Qc_scope.

Lemma Qfloor_spec (x : Qc) :
  Qc_of_Z (Qfloor x) ≤ x ∧ x < Qc_of_Z (Qfloor x + 1).
Proof.
  split.
  - unfold Qcle. cbn [Qc_of_Z Q2Qc this]. apply Qfloor_le.
  - unfold Qclt. cbn [Qc_of_Z Q2Qc this]. apply Qlt_floor.
Qed.

Lemma Qfloor_mono (x y : Qc) : x ≤ y → (Qfloor x ≤ Qfloor y)%Z.
Proof. intros Hxy. by apply Qfloor_resp_le. Qed.

Lemma Qfloor_of_Z (n : Z) : Qfloor (Qc_of_Z n) = n.
Proof.
  apply Qround.Qfloor_Z.
Qed.

Lemma np_round_bounds (x : Qc) :
  (Qfloor x ≤ np_round x ≤ Qfloor x + 1)%Z.
Proof.
  unfold np_round. repeat case_bool_decide; try lia.
  destruct (Z.even _); lia.
Qed.

Lemma np_round_Z (n : Z) : np_round (Qc_of_Z n) = n.
Proof.
  unfold np_round. rewrite Qfloor_of_Z.
  assert (Qc_of_Z n - Qc_of_Z n = 0) as -> by ring.
  by rewrite bool_decide_eq_true_2.
Qed.

Lemma np_round_mono (x y : Qc) : x ≤ y → (np_round x ≤ np_round y)%Z.
Proof.
  intros Hxy. pose proof (Qfloor_mono x y Hxy) as Hfl.
  pose proof (np_round_bounds x) as Hx. pose proof (np_round_bounds y) as Hy.
  destruct (decide (Qfloor x = Qfloor y)) as [Heq|Hne]; [|lia].
  unfold np_round in *. rewrite <-Heq in *. clear Hfl Hx Hy.
  set (n := Qfloor x) in *.
  assert (x - Qc_of_Z n ≤ y - Qc_of_Z n) as Hr
    by (by apply Qcplus_le_mono_r).
  set (r := x - Qc_of_Z n) in *. set (r' := y - Qc_of_Z n) in *.
  clearbody r r'. clear Hxy Heq.
  destruct (Qc_dec r half) as [[Hlt|Hgt]|Heq];
    destruct (Qc_dec r' half) as [[Hlt'|Hgt']|Heq'].
  - by rewrite !bool_decide_eq_true_2.
  - rewrite (bool_decide_eq_true_2 (r < half)) by done.
    rewrite (bool_decide_eq_false_2 (r' < half))
      by (apply Qcle_not_lt; by apply Qclt_le_weak).
    rewrite (bool_decide_eq_true_2 (half < r')) by done. lia.
  - subst r'. rewrite (bool_decide_eq_true_2 (r < half)) by done.
    rewrite !(bool_decide_eq_false_2 (half < half))
      by (apply Qcle_not_lt; done).
    destruct (Z.even n); lia.
  - exfalso. apply (Qclt_not_le r' half Hlt'). trans r; [|done].
    by apply Qclt_le_weak.
  - rewrite (bool_decide_eq_false_2 (r < half))
      by (apply Qcle_not_lt; by apply Qclt_le_weak).
    rewrite (bool_decide_eq_false_2 (r' < half))
      by (apply Qcle_not_lt; by apply Qclt_le_weak).
    by rewrite !bool_decide_eq_true_2.
  - subst r'. exfalso. by apply (Qclt_not_le half r Hgt).
  - subst r. exfalso. by apply (Qclt_not_le r' half Hlt').
  - subst r. rewrite !(bool_decide_eq_false_2 (half < half))
      by (apply Qcle_not_lt; done).
    rewrite (bool_decide_eq_false_2 (r' < half))
      by (apply Qcle_not_lt; by apply Qclt_le_weak).
    rewrite (bool_decide_eq_true_2 (half < r')) by done.
    destruct (Z.even n); lia.
  - by subst r r'.
Qed.

Lemma np_round_ge (a : Z) (x : Qc) :
  Qc_of_Z a ≤ x → (a ≤ np_round x)%Z.
Proof. intros H. rewrite <-(np_round_Z a). by apply np_round_mono. Qed.

Lemma np_round_le (x : Qc) (b : Z) :
  x ≤ Qc_of_Z b → (np_round x ≤ b)%Z.
Proof. intros H. rewrite <-(np_round_Z b). by apply np_round_mono. Qed.

Lemma pow2_pos (s : Z) : (0 ≤ s)%Z → 0 < Qc_of_Z (2 ^ s).
Proof.
  intros Hs. change (Qc_of_Z 0 < Qc_of_Z (2 ^ s)).
  apply (proj1 (Z2Qc_inj_lt _ _)). by apply Z.pow_pos_nonneg.
Qed.

Lemma pow2_ne (s : Z) : (0 ≤ s)%Z → Qc_of_Z (2 ^ s) ≠ 0.
Proof. intros Hs Heq. apply (Qclt_not_eq _ _ (pow2_pos s Hs)). done. Qed.

Lemma div_pow2_Z (m s : Z) :
  (0 ≤ s)%Z → Qc_of_Z (m * 2 ^ s) / Qc_of_Z (2 ^ s) = Qc_of_Z m.
Proof.
  intros Hs. rewrite Z2Qc_inj_mul. apply Qcdiv_mult_l. by apply pow2_ne.
Qed.

Lemma div_pow2_le (X : Qc) (a s : Z) :
  (0 ≤ s)%Z → X ≤ Qc_of_Z (a * 2 ^ s) → X / Qc_of_Z (2 ^ s) ≤ Qc_of_Z a.
Proof.
  intros Hs HX. rewrite <-(div_pow2_Z a s Hs).
  apply Qcmult_le_mono_nonneg_r; [|done].
  apply Qclt_le_weak, Qcinv_pos. by apply pow2_pos.
Qed.

Lemma div_pow2_ge (X : Qc) (a s : Z) :
  (0 ≤ s)%Z → Qc_of_Z (a * 2 ^ s) ≤ X → Qc_of_Z a ≤ X / Qc_of_Z (2 ^ s).
Proof.
  intros Hs HX. rewrite <-(div_pow2_Z a s Hs).
  apply Qcmult_le_mono_nonneg_r; [|done].
  apply Qclt_le_weak, Qcinv_pos. by apply pow2_pos.
Qed.

Lemma div_pow2_mono (X Y : Qc) (s : Z) :
  (0 ≤ s)%Z → X ≤ Y → X / Qc_of_Z (2 ^ s) ≤ Y / Qc_of_Z (2 ^ s).
Proof.
  intros Hs HXY. apply Qcmult_le_mono_nonneg_r; [|done].
  apply Qclt_le_weak, Qcinv_pos. by apply pow2_pos.
Qed.

Lemma Qfloor_nonneg (X : Qc) : 0 ≤ X → (0 ≤ Qfloor X)%Z.
Proof. intros HX. apply (Qfloor_mono 0 X HX). Qed.

Lemma ulp_exponent_nonneg (X : Qc) : (0 ≤ ulp_exponent X)%Z.
Proof. unfold ulp_exponent. lia. Qed.

Lemma ulp_exponent_mono (X Y : Qc) :
  X ≤ Y → (ulp_exponent X ≤ ulp_exponent Y)%Z.
Proof.
  intros HXY. unfold ulp_exponent.
  pose proof (Z.log2_le_mono _ _ (Qfloor_mono X Y HXY)). lia.
Qed.

(** A value lies below the binade above its own. *)
Lemma below_next_binade (X : Qc) :
  0 ≤ X → X ≤ Qc_of_Z (2 ^ 24 * 2 ^ ulp_exponent X).
Proof.
  intros HX. pose proof (Qfloor_nonneg X HX) as Hn.
  destruct (Qfloor_spec X) as [_ Hlt].
  apply Qclt_le_weak, (Qclt_le_trans _ _ _ Hlt), (proj1 (Z2Qc_inj_le _ _)).
  rewrite <-Z.pow_add_r by (pose proof (ulp_exponent_nonneg X); lia).
  unfold ulp_exponent. set (n := Qfloor X) in *.
  destruct (decide (n = 0%Z)) as [->|Hne].
  - change (Z.log2 0) with 0%Z.
    pose proof (Z.pow_pos_nonneg 2 (24 + Z.max 0 (0 - 23))). lia.
  - destruct (Z.log2_spec n) as [_ Hhi]; [lia|].
    assert (2 ^ Z.succ (Z.log2 n) ≤ 2 ^ (24 + Z.max 0 (Z.log2 n - 23)))%Z
      by (apply Z.pow_le_mono_r; lia).
    lia.
Qed.

(** With a positive exponent the value fills its binade. *)
Lemma above_binade (X : Qc) :
  (0 < ulp_exponent X)%Z → Qc_of_Z (2 ^ 23 * 2 ^ ulp_exponent X) ≤ X.
Proof.
  intros Hs. destruct (Qfloor_spec X) as [Hle _].
  trans (Qc_of_Z (Qfloor X)); [|done]. apply (proj1 (Z2Qc_inj_le _ _)).
  unfold ulp_exponent in *. set (n := Qfloor X) in *.
  assert (0 < n)%Z as Hn.
  { destruct (Z.le_gt_cases n 0) as [Hn|]; [|done].
    rewrite (Z.log2_nonpos n Hn) in Hs. lia. }
  destruct (Z.log2_spec n Hn) as [Hlo _].
  rewrite <-Z.pow_add_r by lia.
  replace (23 + Z.max 0 (Z.log2 n - 23))%Z with (Z.log2 n) by lia. done.
Qed.

Lemma significand_bounds (X : Qc) :
  0 ≤ X →
  let m := np_round (X / Qc_of_Z (2 ^ ulp_exponent X)) in
  (0 ≤ m ≤ 2 ^ 24)%Z ∧ ((0 < ulp_exponent X)%Z → (2 ^ 23 ≤ m)%Z).
Proof.
  intros HX m. pose proof (ulp_exponent_nonneg X) as Hs. split_and!.
  - apply np_round_ge. apply div_pow2_ge; [done|]. by rewrite Z.mul_0_l.
  - apply np_round_le. apply div_pow2_le; [done|]. by apply below_next_binade.
  - intros Hpos. apply np_round_ge. apply div_pow2_ge; [done|].
    by apply above_binade.
Qed.

Lemma round_significand_nonneg (X : Qc) :
  0 ≤ X → (0 ≤ round_significand X)%Z.
Proof.
  intros HX. destruct (significand_bounds X HX) as [[Hm _] _].
  unfold round_significand.
  pose proof (Z.pow_pos_nonneg 2 (ulp_exponent X) ltac:(lia)
                (ulp_exponent_nonneg X)).
  nia.
Qed.

Lemma round_significand_mono (X Y : Qc) :
  0 ≤ X → X ≤ Y → (round_significand X ≤ round_significand Y)%Z.
Proof.
  intros HX HXY. assert (0 ≤ Y) as HY by (by trans X).
  pose proof (ulp_exponent_mono X Y HXY) as Hs.
  pose proof (ulp_exponent_nonneg X) as HsX.
  destruct (significand_bounds X HX) as [[HmX0 HmX] _].
  destruct (significand_bounds Y HY) as [[HmY0 _] HmY].
  unfold round_significand.
  set (s := ulp_exponent X) in *. set (s' := ulp_exponent Y) in *.
  set (m := np_round (X / Qc_of_Z (2 ^ s))) in *.
  set (m' := np_round (Y / Qc_of_Z (2 ^ s'))) in *.
  destruct (decide (s = s')) as [Heq|Hne].
  - subst m m'. rewrite <-Heq.
    apply Z.mul_le_mono_nonneg_r; [by apply Z.pow_nonneg|].
    apply np_round_mono. by apply div_pow2_mono.
  - specialize (HmY ltac:(lia)).
    assert (0 < 2 ^ s)%Z as Hp by (by apply Z.pow_pos_nonneg).
    assert (0 < 2 ^ s')%Z as Hp' by (apply Z.pow_pos_nonneg; lia).
    trans (2 ^ 24 * 2 ^ s)%Z; [nia|].
    trans (2 ^ 23 * 2 ^ s')%Z; [|nia].
    replace s' with (s + 1 + (s' - s - 1))%Z by lia.
    rewrite !Z.pow_add_r by lia.
    assert (0 < 2 ^ (s' - s - 1))%Z by (apply Z.pow_pos_nonneg; lia).
    nia.
Qed.

(** A rounded value is kept by the rounding. *)
Lemma round_significand_fixed (X : Qc) :
  0 ≤ X →
  round_significand (Qc_of_Z (round_significand X)) = round_significand X.
Proof.
  intros HX. pose proof (ulp_exponent_nonneg X) as Hs.
  destruct (significand_bounds X HX) as [[Hm0 Hm] Hnormal].
  unfold round_significand at 2 3.
  set (s := ulp_exponent X) in *.
  set (m := np_round (X / Qc_of_Z (2 ^ s))) in *. clearbody m s.
  assert (0 < 2 ^ s)%Z as Hp by (by apply Z.pow_pos_nonneg).
  unfold round_significand, ulp_exponent. rewrite Qfloor_of_Z.
  destruct (decide (m = 2 ^ 24)%Z) as [->|Hne].
  - rewrite <-Z.pow_add_r, Z.log2_pow2 by lia.
    replace (Z.max 0 (24 + s - 23)) with (s + 1)%Z by lia.
    replace (24 + s)%Z with (23 + (s + 1))%Z by lia.
    rewrite Z.pow_add_r by lia.
    by rewrite div_pow2_Z, np_round_Z by lia.
  - assert (Z.max 0 (Z.log2 (m * 2 ^ s) - 23) = s) as ->.
    { destruct (decide (s = 0%Z)) as [->|Hs0].
      - rewrite Z.mul_1_r.
        destruct (decide (m = 0%Z)) as [->|Hm0']; [done|].
        assert (Z.log2 m < 24)%Z by (apply Z.log2_lt_pow2; lia). lia.
      - specialize (Hnormal ltac:(lia)).
        rewrite (Z.log2_unique (m * 2 ^ s) (23 + s)); [lia|lia|].
        rewrite Z.pow_succ_r, !Z.pow_add_r by lia. nia. }
    by rewrite div_pow2_Z, np_round_Z by lia.
Qed.

End Rounding.

Section Float32.
Local Open Scope Qc_scope.

Lemma scale_pos : 0 < Qc_of_Z subnormal_scale.
Proof. apply (pow2_pos 149). lia. Qed.

Lemma scale_ne : Qc_of_Z subnormal_scale ≠ 0.
Proof. apply (pow2_ne 149). lia. Qed.

Lemma scaled_nonneg (q : Qc) : 0 ≤ q → 0 ≤ q * Qc_of_Z subnormal_scale.
Proof.
  intros Hq. apply Qcmult_nonneg_nonneg; [done|].
  apply Qclt_le_weak, scale_pos.
Qed.

Lemma unscaled_nonneg (R : Z) :
  (0 ≤ R)%Z → 0 ≤ Qc_of_Z R / Qc_of_Z subnormal_scale.
Proof.
  intros HR. apply Qcmult_nonneg_nonneg.
  - change (Qc_of_Z 0 ≤ Qc_of_Z R). by apply (proj1 (Z2Qc_inj_le _ _)).
  - apply Qclt_le_weak, Qcinv_pos, scale_pos.
Qed.

Lemma unscaled_mono (R R' : Z) :
  (R ≤ R')%Z →
  Qc_of_Z R / Qc_of_Z subnormal_scale ≤ Qc_of_Z R' / Qc_of_Z subnormal_scale.
Proof.
  intros HR. apply Qcmult_le_mono_nonneg_r.
  - apply Qclt_le_weak, Qcinv_pos, scale_pos.
  - by apply (proj1 (Z2Qc_inj_le _ _)).
Qed.

Lemma rescaled (R : Z) :
  Qc_of_Z R / Qc_of_Z subnormal_scale * Qc_of_Z subnormal_scale = Qc_of_Z R.
Proof. field. apply scale_ne. Qed.

(** The conversion on a non-negative value. *)
Lemma float32_nonneg (q : Qc) :
  0 ≤ q →
  float32 q =
  let R := round_significand (q * Qc_of_Z subnormal_scale) in
  if (overflow_threshold <=? R)%Z then PInf
  else Fin (Qc_of_Z R / Qc_of_Z subnormal_scale).
Proof. intros Hq. unfold float32. by rewrite bool_decide_eq_true_2. Qed.

Lemma float32_neg (q : Qc) :
  q < 0 →
  float32 q =
  let R := round_significand (- q * Qc_of_Z subnormal_scale) in
  if (overflow_threshold <=? R)%Z then NInf
  else Fin (- (Qc_of_Z R / Qc_of_Z subnormal_scale)).
Proof.
  intros Hq. unfold float32.
  by rewrite bool_decide_eq_false_2 by (by apply Qclt_not_le).
Qed.

Lemma opp_nonneg (q : Qc) : q ≤ 0 → 0 ≤ - q.
Proof. intros Hq. by apply Qcopp_le_compat in Hq. Qed.

Lemma opp_nonpos (q : Qc) : 0 ≤ q → - q ≤ 0.
Proof. intros Hq. by apply Qcopp_le_compat in Hq. Qed.

(** The conversion is monotone. *)
Lemma float32_mono (x y : Qc) : x ≤ y → depth_le (float32 x) (float32 y).
Proof.
  intros Hxy.
  destruct (Qclt_le_dec x 0) as [Hx|Hx]; destruct (Qclt_le_dec y 0) as [Hy|Hy].
  - rewrite !float32_neg by done. cbn zeta.
    assert (0 ≤ - y) as Hy' by (by apply opp_nonneg, Qclt_le_weak).
    pose proof (round_significand_mono _ _ (scaled_nonneg _ Hy')
                  (proj1 (Qcmult_le_mono_pos_r _ _ _ scale_pos)
                     (Qcopp_le_compat _ _ Hxy))) as HR.
    destruct (Z.leb_spec overflow_threshold
                (round_significand (- x * Qc_of_Z subnormal_scale)));
      [done|].
    destruct (Z.leb_spec overflow_threshold
                (round_significand (- y * Qc_of_Z subnormal_scale)));
      [lia|].
    cbn [depth_le]. by apply Qcopp_le_compat, unscaled_mono.
  - rewrite float32_neg, float32_nonneg by done. cbn zeta.
    assert (0 ≤ - x) as Hx' by (by apply opp_nonneg, Qclt_le_weak).
    pose proof (round_significand_nonneg _ (scaled_nonneg _ Hx')) as HR.
    pose proof (round_significand_nonneg _ (scaled_nonneg _ Hy)) as HR'.
    destruct (Z.leb_spec overflow_threshold
                (round_significand (- x * Qc_of_Z subnormal_scale)));
      [done|].
    destruct (Z.leb_spec overflow_threshold
                (round_significand (y * Qc_of_Z subnormal_scale)));
      [done|].
    cbn [depth_le].
    trans 0; [by apply opp_nonpos, unscaled_nonneg|by apply unscaled_nonneg].
  - exfalso. apply (Qclt_not_le _ _ Hy). by trans x.
  - rewrite !float32_nonneg by done. cbn zeta.
    pose proof (round_significand_mono _ _ (scaled_nonneg _ Hx)
                  (proj1 (Qcmult_le_mono_pos_r _ _ _ scale_pos) Hxy)) as HR.
    destruct (Z.leb_spec overflow_threshold
                (round_significand (y * Qc_of_Z subnormal_scale)));
      [by destruct (_ <=? _)%Z|].
    destruct (Z.leb_spec overflow_threshold
                (round_significand (x * Qc_of_Z subnormal_scale)));
      [lia|].
    cbn [depth_le]. by apply unscaled_mono.
Qed.

(** A [float32] value is kept by the conversion. *)
Lemma float32_fixed (q r : Qc) : float32 q = Fin r → float32 r = Fin r.
Proof.
  destruct (Qclt_le_dec q 0) as [Hq|Hq].
  - rewrite float32_neg by done. cbn zeta.
    assert (0 ≤ - q) as Hq' by (by apply opp_nonneg, Qclt_le_weak).
    pose proof (round_significand_nonneg _ (scaled_nonneg _ Hq')) as HR.
    pose proof (round_significand_fixed _ (scaled_nonneg _ Hq')) as Hfix.
    set (R := round_significand (- q * Qc_of_Z subnormal_scale)) in *.
    destruct (Z.leb_spec overflow_threshold R) as [|Hlt]; [done|].
    intros [= <-].
    destruct (decide (R = 0%Z)) as [HR0|HR0].
    + rewrite HR0 in *.
      assert (- (Qc_of_Z 0 / Qc_of_Z subnormal_scale) = 0) as ->
        by (rewrite Z2Qc_inj_0; unfold Qcdiv; by rewrite Qcmult_0_l).
      by apply (bool_decide_unpack _).
    + rewrite float32_neg.
      * cbn zeta. rewrite Qcopp_involutive, rescaled, Hfix.
        by rewrite (proj2 (Z.leb_gt _ _) Hlt).
      * apply Qclt_minus_iff. rewrite Qcplus_0_l, Qcopp_involutive.
        apply Qcmult_pos_pos; [|apply Qcinv_pos, scale_pos].
        change (Qc_of_Z 0 < Qc_of_Z R). apply (proj1 (Z2Qc_inj_lt _ _)). lia.
  - rewrite float32_nonneg by done. cbn zeta.
    pose proof (round_significand_nonneg _ (scaled_nonneg _ Hq)) as HR.
    pose proof (round_significand_fixed _ (scaled_nonneg _ Hq)) as Hfix.
    set (R := round_significand (q * Qc_of_Z subnormal_scale)) in *.
    destruct (Z.leb_spec overflow_threshold R) as [|Hlt]; [done|].
    intros [= <-].
    rewrite float32_nonneg by (by apply unscaled_nonneg).
    cbn zeta. rewrite rescaled, Hfix.
    by rewrite (proj2 (Z.leb_gt _ _) Hlt).
Qed.

Lemma astype_float32_fixed (a : depth) :
  astype_float32 (astype_float32 a) = astype_float32 a.
Proof.
  destruct a as [q| |]; [|done..]. cbn [astype_float32].
  destruct (float32 q) as [r| |] eqn:Hr; [|done..].
  by apply (float32_fixed q).
Qed.

Lemma astype_float32_mono (a b : depth) :
  depth_le a b → depth_le (astype_float32 a) (astype_float32 b).
Proof.
  destruct a as [x| |], b as [y| |]; cbn [astype_float32 depth_le];
    try done.
  - apply float32_mono.
  - intros _. by destruct (float32 x).
Qed.

(** The order of the floats is a total order. *)
Lemma depth_le_refl a : depth_le a a.
Proof. destruct a; simpl; [apply Qcle_refl|done..]. Qed.

Lemma depth_le_total a b : depth_le a b ∨ depth_le b a.
Proof.
  destruct a as [x| |], b as [y| |]; simpl; try tauto.
  apply Qc_le_total.
Qed.

Lemma depth_le_trans a b c : depth_le a b → depth_le b c → depth_le a c.
Proof.
  destruct a as [x| |], b as [y| |], c as [z| |]; simpl; try done.
  apply Qcle_trans.
Qed.

Lemma depth_le_antisym a b : depth_le a b → depth_le b a → a = b.
Proof.
  destruct a as [x| |], b as [y| |]; simpl; try done.
  intros. f_equal. by apply Qcle_antisym.
Qed.

Lemma minimum_l a b : depth_le a b → minimum a b = a.
Proof. intros H. unfold minimum. by rewrite decide_True. Qed.

Lemma minimum_r a b : depth_le b a → minimum a b = b.
Proof.
  intros H. unfold minimum. case_decide as Hab; [|done].
  by apply depth_le_antisym.
Qed.

Lemma minimum_comm a b : minimum a b = minimum b a.
Proof.
  destruct (depth_le_total a b) as [H|H].
  - by rewrite (minimum_l a b), (minimum_r b a).
  - by rewrite (minimum_r a b), (minimum_l b a).
Qed.

Lemma minimum_assoc a b c :
  minimum a (minimum b c) = minimum (minimum a b) c.
Proof.
  destruct (depth_le_total a b) as [Hab|Hab];
    destruct (depth_le_total b c) as [Hbc|Hbc].
  - rewrite (minimum_l b c), (minimum_l a b) by done.
    rewrite minimum_l; [done|]. by apply (depth_le_trans a b c).
  - rewrite (minimum_r b c), (minimum_l a b) by done. done.
  - rewrite (minimum_l b c), (minimum_r a b) by done.
    by rewrite (minimum_l b c).
  - rewrite (minimum_r b c), (minimum_r a b) by done.
    rewrite (minimum_r b c) by done.
    rewrite minimum_r; [done|]. by apply (depth_le_trans c b a).
Qed.

(** The conversion commutes with the minimum. *)
Lemma astype_float32_minimum a b :
  astype_float32 (minimum a b)
  = minimum (astype_float32 a) (astype_float32 b).
Proof.
  destruct (depth_le_total a b) as [H|H].
  - rewrite (minimum_l a b H).
    by rewrite minimum_l by (by apply astype_float32_mono).
  - rewrite (minimum_r a b H).
    by rewrite minimum_r by (by apply astype_float32_mono).
Qed.

End Float32.

(** ** Facts about [np.minimum] and [np.minimum.at] *)

Section MinimumFacts.

Lemma minimum_swap x a b :
  minimum (minimum x a) b = minimum (minimum x b) a.
Proof.
  by rewrite <-!minimum_assoc, (minimum_comm a b).
Qed.

(** Two stores into one entry commute. *)
Lemma store_swap x a b :
  astype_float32 (minimum (astype_float32 (minimum x a)) b)
  = astype_float32 (minimum (astype_float32 (minimum x b)) a).
Proof.
  rewrite !astype_float32_minimum, !astype_float32_fixed.
  apply minimum_swap.
Qed.

Lemma minimum_at1_comm a x y :
  (a' ← minimum_at1 a x; minimum_at1 a' y)
  = (a' ← minimum_at1 a y; minimum_at1 a' x).
Proof.
  unfold minimum_at1.
  set (n := length a).
  set (i := py_index n x.1).
  set (j := py_index n y.1).
  destruct (bool_decide (0 ≤ i < Z.of_nat n)%Z) eqn:Hi;
    destruct (bool_decide (0 ≤ j < Z.of_nat n)%Z) eqn:Hj; simpl;
    rewrite ?length_alter; fold n; fold i; fold j; rewrite ?Hi, ?Hj;
    try done.
  f_equal. apply list_eq. intros k. clear Hi Hj.
  rewrite !list_lookup_alter.
  repeat case_decide; try congruence.
  replace (Z.to_nat j) with (Z.to_nat i) by congruence.
  rewrite <-!option_fmap_compose. apply option_fmap_ext.
  intros d. simpl. apply store_swap.
Qed.

Lemma minimum_at_perm a ivs ivs' :
  ivs ≡ₚ ivs' → minimum_at a ivs = minimum_at a ivs'.
Proof.
  intros Hp. revert a.
  induction Hp as [|iv l l' _ IH|x y l|l l' l'' _ IH1 _ IH2]; intros a.
  - done.
  - simpl. destruct (minimum_at1 a iv); simpl; [apply IH|done].
  - simpl. pose proof (minimum_at1_comm a y x) as Hc.
    destruct (minimum_at1 a y) as [ay|ey] eqn:Hy;
      destruct (minimum_at1 a x) as [ax|ex] eqn:Hx; simpl in *.
    + destruct (minimum_at1 ay x), (minimum_at1 ax y); simplify_eq/=; done.
    + destruct (minimum_at1 ay x); simplify_eq/=; done.
    + destruct (minimum_at1 ax y); simplify_eq/=; done.
    + unfold minimum_at1 in Hy, Hx.
      repeat case_bool_decide; simplify_eq/=; done.
  - by rewrite IH1, IH2.
Qed.

End MinimumFacts.

(** ** The projector, point by point *)


(** What one point adds to the buffer of [Get_depth_map_from]: nothing when
    it is behind the camera or rounds out of the image, otherwise its depth
    at the flat [int32] index of its pixel. *)
Definition contribution (w h : Z) (p : Qc * Qc * Qc) : option (Z * Qc) :=
  if bool_decide (0 < pz p)%Qc then
    let u := np_round (px p / pz p) in
    let v := np_round (py p / pz p) in
    if ((0 <=? u) && (u <? w) && (0 <=? v) && (v <? h))%Z
    then Some (wrap32 (wrap32 (wrap32 (wrap32 v * w) + wrap32 u)), pz p)
    else None
  else None.

(** The last two steps on the buffer: [nan_to_num], then negative to zero. *)
Definition finish (d : depth) : Qc :=
  let q := nan_to_num d in if bool_decide (q < 0)%Qc then 0%Qc else q.

Section Pipeline.
Variables w h : Z.

Let inb (u v : Z) : bool :=
  ((0 <=? u) && (u <? w) && (0 <=? v) && (v <? h))%Z.

Lemma parallel_arrays (vis : list (Qc * Qc * Qc)) :
  let _u := map (fun p => np_round (px p)) vis in
  let _v := map (fun p => np_round (py p)) vis in
  let _mask := zip_with inb _u _v in
  zip (map wrap32
         (zip_with (fun v u => wrap32 (wrap32 (v * w) + u))
            (map wrap32 (select _mask _v)) (map wrap32 (select _mask _u))))
      (select _mask (map pz vis))
  = omap (fun p =>
            if inb (np_round (px p)) (np_round (py p))
            then Some (wrap32 (wrap32 (wrap32 (wrap32 (np_round (py p)) * w)
                                       + wrap32 (np_round (px p)))), pz p)
            else None) vis.
Proof.
  induction vis as [|p vis IH]; simpl in *; [done|].
  destruct (inb _ _); simpl; by rewrite IH.
Qed.

Lemma Get_depth_map_from_pointwise pts :
  Get_depth_map_from pts (w, h) =
  if bool_decide (w < 0 ∨ h < 0)%Z then Raise ValueError else
    d ← minimum_at (replicate (Z.to_nat (h * w)) PInf)
          (omap (contribution w h) pts);
    Ok (reshape (Z.to_nat h) (Z.to_nat w) (finish <$> d)).
Proof.
  unfold Get_depth_map_from. case_bool_decide; [done|].
  rewrite (parallel_arrays _).
  match goal with
  | |- mbind _ (minimum_at _ ?l) = mbind _ (minimum_at _ ?l') =>
      assert (l = l') as ->
  end.
  { induction pts as [|p pts IH]; [done|].
    rewrite filter_cons. cbn [omap list_omap]. unfold contribution at 1.
    case_decide as Hz.
    - rewrite bool_decide_eq_true_2 by done.
      cbn [map omap list_omap]. rewrite IH.
      by destruct p as [[x y] z].
    - rewrite bool_decide_eq_false_2 by done. apply IH. }
  destruct (minimum_at _ _); simpl; [|done].
  by rewrite <-list_fmap_compose.
Qed.

End Pipeline.

(** ** C2: what the depth map holds *)

(** Point [p] is in front of the camera and its perspective division rounds
    to pixel [(u, v)]. *)
Definition lands_on (p : Qc * Qc * Qc) (u v : Z) : Prop :=
  (0 < pz p)%Qc ∧ np_round (px p / pz p) = u ∧ np_round (py p / pz p) = v.

(** [d] is the depth of pixel [(u, v)]: zero when no point lands on it,
    otherwise what the least depth [z] of those that do is held as,
    [held z].  The specification has the depth itself, [held z = z]; the
    [float32] buffer of the program holds [stored32 z]. *)
Definition nearest_depth (held : Qc → Qc) (pts : VEC_3) (u v : Z) (d : Qc)
  : Prop :=
  ((∀ p, p ∈ pts → ¬ lands_on p u v) ∧ d = 0%Qc)
  ∨ (∃ p, p ∈ pts ∧ lands_on p u v ∧ d = held (pz p)
          ∧ ∀ p', p' ∈ pts → lands_on p' u v → (pz p ≤ pz p')%Qc).

(** [img] is the depth map of [pts] at size [(w, h)]: [h] rows of [w]
    pixels, every entry non-negative, pixel [(u, v)] holding the nearest
    depth. *)
Definition depth_map_of (held : Qc → Qc) (pts : VEC_3) (w h : Z)
  (img : IMG_1C) : Prop :=
  has_shape (Z.to_nat h) (Z.to_nat w) img
  ∧ Forall (Forall (fun d => (0 ≤ d)%Qc)) img
  ∧ ∀ u v, (0 ≤ u < w)%Z → (0 ≤ v < h)%Z →
      ∃ d, img !! Z.to_nat v ≫= (.!! Z.to_nat u) = Some d
           ∧ nearest_depth held pts u v d.

(** The depth as the specification has it. *)
Definition as_specified (z : Qc) : Qc := z.

Lemma wrap32_small z : (- 2 ^ 31 ≤ z < 2 ^ 31)%Z → wrap32 z = z.
Proof. intros Hz. unfold wrap32. rewrite Z.mod_small; lia. Qed.

Lemma finish_nonneg d : (0 ≤ finish d)%Qc.
Proof.
  unfold finish. case_bool_decide as Hq; [done|]. by apply Qcnot_lt_le.
Qed.

Section MinimumAt.
Local Open Scope Qc_scope.

(** The running minimum of a list of depths, from a start value. *)
Definition running_min (start : depth) (zs : list Qc) : depth :=
  foldl (fun acc z => minimum acc (Fin z)) start zs.

Lemma running_min_cons x z zs :
  running_min x (z :: zs) = running_min (minimum x (Fin z)) zs.
Proof. done. Qed.

Lemma running_min_Fin x zs :
  ∃ m, running_min (Fin x) zs = Fin m
       ∧ (m = x ∨ m ∈ zs) ∧ m ≤ x ∧ Forall (fun z => m ≤ z) zs.
Proof.
  revert x. induction zs as [|z zs IH]; intros x.
  - exists x. split_and!; [done|by left|done|constructor].
  - rewrite running_min_cons. destruct (decide (x ≤ z)) as [Hxz|Hxz].
    + rewrite (minimum_l (Fin x) (Fin z)) by done.
      destruct (IH x) as (m & -> & Hin & Hle & Hall).
      exists m. split_and!; [done| |done|].
      * destruct Hin; [by left|right; by constructor].
      * constructor; [by trans x|done].
    + apply Qcnot_le_lt, Qclt_le_weak in Hxz.
      rewrite (minimum_r (Fin x) (Fin z)) by done.
      destruct (IH z) as (m & -> & Hin & Hle & Hall).
      exists m. split_and!; [done| |by trans z|by constructor].
      right. destruct Hin as [->|?]; [by left|by constructor].
Qed.

Lemma running_min_PInf zs :
  match zs with
  | [] => running_min PInf zs = PInf
  | _ => ∃ m, running_min PInf zs = Fin m
              ∧ m ∈ zs ∧ Forall (fun z => m ≤ z) zs
  end.
Proof.
  destruct zs as [|z zs]; [done|]. rewrite running_min_cons.
  rewrite (minimum_r PInf (Fin z)) by done.
  destruct (running_min_Fin z zs) as (m & Hm & Hin & Hle & Hall).
  exists m. split_and!; [done| |by constructor].
  destruct Hin as [->|?]; [by left|by constructor].
Qed.

(** Converting the start value first does not change the converted
    running minimum. *)
Lemma astype_running_min x zs :
  astype_float32 (running_min (astype_float32 x) zs)
  = astype_float32 (running_min x zs).
Proof.
  revert x. induction zs as [|z zs IH]; intros x.
  - apply astype_float32_fixed.
  - rewrite !running_min_cons.
    rewrite <-(IH (minimum x (Fin z))), <-(IH (minimum _ (Fin z))).
    by rewrite !astype_float32_minimum, astype_float32_fixed.
Qed.

(** The values that [np.minimum.at] sends to position [j]. *)
Definition sent_to (n j : nat) (ivs : list (Z * Qc)) : list Qc :=
  snd <$> filter (fun iv => Z.to_nat (py_index n iv.1) = j) ivs.

(** When [np.minimum.at] returns, it leaves at each position of a
    [float32] buffer the [float32] of the running minimum of the values
    sent there. *)
Lemma minimum_at_Ok a ivs a' :
  Forall (fun x => astype_float32 x = x) a →
  minimum_at a ivs = Ok a' →
  length a' = length a
  ∧ ∀ j, a' !! j =
         (fun x => astype_float32 (running_min x (sent_to (length a) j ivs)))
           <$> a !! j.
Proof.
  revert a. induction ivs as [|[i z] ivs IH]; intros a Ha Hm.
  - simpl in Hm. simplify_eq. split; [done|]. intros j.
    destruct (a' !! j) as [x|] eqn:Hx; [|done]. cbn. f_equal.
    symmetry. by apply (proj1 (Forall_lookup _ _) Ha j).
  - simpl in Hm. unfold minimum_at1 at 1 in Hm. simpl in Hm.
    case_bool_decide as Hi; [|done]. simpl in Hm.
    apply IH in Hm as [Hlen Hlook].
    + rewrite length_alter in Hlen, Hlook.
      split; [done|]. intros j.
      rewrite Hlook, list_lookup_alter. unfold sent_to.
      rewrite filter_cons. simpl.
      destruct (decide (Z.to_nat (py_index (length a) i) = j)) as [Hj|Hj];
        [|done].
      rewrite Hj. destruct (a !! j) as [x|]; [|done]. cbn. f_equal.
      apply astype_running_min.
    + apply Forall_lookup. intros k x. rewrite list_lookup_alter.
      case_decide as Hk.
      * destruct (a !! Z.to_nat _) as [y|]; simpl; [|done]. intros [= <-].
        apply astype_float32_fixed.
      * intros Hx. by apply (proj1 (Forall_lookup _ _) Ha k).
Qed.

(** It returns when every index is inside the buffer. *)
Lemma minimum_at_total a ivs :
  Forall (fun iv => (0 ≤ iv.1 < Z.of_nat (length a))%Z) ivs →
  ∃ a', minimum_at a ivs = Ok a'.
Proof.
  revert a. induction ivs as [|[i z] ivs IH]; intros a Hall.
  - by exists a.
  - apply Forall_cons in Hall as [Hi Hall]. simpl in Hi.
    simpl. unfold minimum_at1 at 1, py_index. simpl.
    destruct (Z.ltb_spec i 0) as [?|_]; [lia|].
    rewrite bool_decide_eq_true_2 by done. simpl.
    apply IH. by rewrite length_alter.
Qed.

Lemma buffer_is_float32 n :
  Forall (fun x => astype_float32 x = x) (replicate n PInf).
Proof. by apply Forall_replicate. Qed.

(** What a stored depth reads back as at the end: its [float32], and 0
    when that is an infinity. *)
Definition stored32 (z : Qc) : Qc := finish (float32 z).

Lemma stored32_float32 z : is_float32 z → 0 ≤ z → stored32 z = z.
Proof.
  unfold is_float32, stored32, finish. intros -> Hz. cbn [nan_to_num].
  rewrite bool_decide_eq_false_2; [done|]. by apply Qcle_not_lt.
Qed.

Lemma finish_is_float32 x :
  astype_float32 x = x → is_float32 (finish x).
Proof.
  unfold finish. destruct x as [q| |]; cbn [nan_to_num astype_float32].
  - intros Hq. case_bool_decide; [by apply (bool_decide_unpack _)|done].
  - intros _. by apply (bool_decide_unpack _).
  - intros _. by apply (bool_decide_unpack _).
Qed.

End MinimumAt.

Section ForwardProjection.
Variables w h : Z.
Hypothesis Hw : (0 ≤ w)%Z.
Hypothesis Hh : (0 ≤ h)%Z.
Hypothesis Hsize : (h * w ≤ 2 ^ 31)%Z.

Lemma flat_index_inj u v u' v' :
  (0 ≤ u < w)%Z → (0 ≤ u' < w)%Z →
  (v * w + u = v' * w + u')%Z → u = u' ∧ v = v'.
Proof. intros Hu Hu' Heq. assert (v = v') by nia. subst. lia. Qed.

Lemma flat_index_range u v :
  (0 ≤ u < w)%Z → (0 ≤ v < h)%Z → (0 ≤ v * w + u < h * w)%Z.
Proof. intros Hu Hv. nia. Qed.

(** Inside the index range of [int32] the flat index of an in-bounds
    pixel is computed without wrap-around. *)
Lemma contribution_lands p u v :
  lands_on p u v → (0 ≤ u < w)%Z → (0 ≤ v < h)%Z →
  contribution w h p = Some ((v * w + u)%Z, pz p).
Proof.
  intros (Hz & Hu & Hv) Hub Hvb. unfold contribution.
  rewrite bool_decide_eq_true_2 by done. simpl. rewrite Hu, Hv.
  replace ((0 <=? u) && (u <? w) && (0 <=? v) && (v <? h))%Z with true
    by (symmetry; repeat (apply andb_true_intro; split); lia).
  pose proof (flat_index_range u v Hub Hvb).
  assert (0 ≤ v * w)%Z by nia.
  rewrite (wrap32_small v), (wrap32_small u) by nia.
  rewrite (wrap32_small (v * w)) by nia.
  by rewrite !(wrap32_small (v * w + u)) by nia.
Qed.

Lemma contribution_Some p i z :
  contribution w h p = Some (i, z) →
  ∃ u v, lands_on p u v ∧ (0 ≤ u < w)%Z ∧ (0 ≤ v < h)%Z
         ∧ i = (v * w + u)%Z ∧ z = pz p.
Proof.
  intros Hc.
  assert (0 < pz p)%Qc as Hz.
  { unfold contribution in Hc. by case_bool_decide. }
  set (u := np_round (px p / pz p)). set (v := np_round (py p / pz p)).
  assert ((0 ≤ u < w)%Z ∧ (0 ≤ v < h)%Z) as [Hub Hvb].
  { unfold contribution in Hc. rewrite bool_decide_eq_true_2 in Hc by done.
    simpl in Hc. fold u v in Hc.
    destruct ((0 <=? u) && (u <? w) && (0 <=? v) && (v <? h))%Z eqn:Hb;
      [|done].
    repeat (apply andb_prop in Hb as [Hb ?]). lia. }
  assert (lands_on p u v) as Hl by done.
  rewrite (contribution_lands p u v Hl Hub Hvb) in Hc.
  exists u, v. by simplify_eq.
Qed.

Lemma Forall_reshape {A} (P : A → Prop) n m (flat : list A) :
  Forall P flat → Forall (Forall P) (reshape n m flat).
Proof.
  revert flat. induction n as [|n IH]; intros flat HP; simpl.
  - constructor.
  - constructor; [by apply Forall_take|]. apply IH. by apply Forall_drop.
Qed.

(** Inside the [int32] index range [Get_depth_map_from] returns the depth
    map of the points, every depth held as a [float32]. *)
Lemma Get_depth_map_from_spec (pts : VEC_3) :
  ∃ img, Get_depth_map_from pts (w, h) = Ok img
         ∧ depth_map_of stored32 pts w h img.
Proof.
  unfold depth_map_of.
  rewrite Get_depth_map_from_pointwise.
  rewrite bool_decide_eq_false_2 by lia.
  set (ivs := omap (contribution w h) pts).
  set (n := Z.to_nat (h * w)).
  destruct (minimum_at_total (replicate n PInf) ivs) as [a Ha].
  { rewrite length_replicate. apply Forall_forall. intros [i z] Hin.
    apply list_elem_of_omap in Hin as (p & _ & Hc).
    apply contribution_Some in Hc as (u & v & _ & Hu & Hv & -> & _).
    simpl. pose proof (flat_index_range u v Hu Hv). subst n. lia. }
  rewrite Ha. simpl.
  apply minimum_at_Ok in Ha as [Hlen Hlook]; [|apply buffer_is_float32].
  rewrite length_replicate in Hlen, Hlook.
  eexists. split; [done|]. split_and!.
  - apply reshape_has_shape. rewrite length_fmap, Hlen. subst n.
    by rewrite Z2Nat.inj_mul.
  - apply Forall_reshape, Forall_fmap, Forall_forall.
    intros d _. apply finish_nonneg.
  - intros u v Hu Hv.
    rewrite lookup_reshape_pixel by lia.
    pose proof (flat_index_range u v Hu Hv) as Hr.
    replace (Z.to_nat v * Z.to_nat w + Z.to_nat u)
      with (Z.to_nat (v * w + u)) by nia.
    rewrite list_lookup_fmap, Hlook.
    rewrite lookup_replicate_2 by (subst n; lia). simpl.
    set (here := sent_to n (Z.to_nat (v * w + u)) ivs).
    eexists. split; [done|].
    assert (∀ p, p ∈ pts → lands_on p u v → pz p ∈ here) as Hcontrib.
    { intros p Hp Hl. apply (list_elem_of_fmap_2' snd _ ((v * w + u)%Z, pz p));
        [|done].
      apply list_elem_of_filter. split.
      - simpl. unfold py_index.
        destruct (Z.ltb_spec (v * w + u) 0); [lia|done].
      - apply list_elem_of_omap. exists p. split; [done|].
        by apply contribution_lands. }
    pose proof (running_min_PInf here) as Hmin.
    destruct here as [|z0 zs] eqn:Hzs.
    + rewrite Hmin. left. split.
      * intros p Hp Hl. specialize (Hcontrib p Hp Hl).
        by apply elem_of_nil in Hcontrib.
      * done.
    + destruct Hmin as (m & -> & Hm & Hall). right.
      rewrite <-Hzs in Hm.
      apply list_elem_of_fmap in Hm as ([i z] & -> & Hin).
      apply list_elem_of_filter in Hin as [Hidx Hin]. simpl in *.
      apply list_elem_of_omap in Hin as (p & Hp & Hc).
      apply contribution_Some in Hc as (u' & v' & Hl & Hu' & Hv' & -> & ->).
      pose proof (flat_index_range u' v' Hu' Hv') as Hr'.
      unfold py_index in Hidx.
      destruct (Z.ltb_spec (v' * w + u') 0); [lia|].
      destruct (flat_index_inj u v u' v') as [<- <-]; [lia..|].
      exists p. split_and!; [done..|].
      * intros p' Hp' Hl'.
        eapply (proj1 (Forall_forall _ _) Hall).
        by apply Hcontrib.
Qed.

End ForwardProjection.

(** When the depths of the points are [float32] values, what the buffer
    holds is what the specification has. *)
Lemma depth_map_of_float32 (pts : VEC_3) (w h : Z) (img : IMG_1C) :
  Forall (fun p => is_float32 (pz p)) pts →
  depth_map_of stored32 pts w h img → depth_map_of as_specified pts w h img.
Proof.
  intros Hrep (Hshape & Hnn & Hpix). split_and!; [done..|].
  intros u v Hu Hv. destruct (Hpix u v Hu Hv) as (d & Hd & Hnear).
  exists d. split; [done|].
  destruct Hnear as [?|(p & Hp & Hl & -> & Hleast)]; [by left|right].
  exists p. split_and!; [done..| |done].
  apply stored32_float32.
  - by apply (proj1 (Forall_forall _ _) Hrep).
  - apply Qclt_le_weak, Hl.
Qed.

(** C2, amended.  For every point set and every size [(w, h)] with
    [h * w ≤ 2^31], [Get_depth_map_from] returns a map of [h] rows of [w]
    pixels, every entry non-negative, whose pixel [(u, v)] holds the least
    [z] among the points with [z > 0] that round onto [(u, v)], as the
    [float32] buffer holds it (rounded to [float32], and 0 when that is
    an infinity), and 0 when there is none; when the depths of the points
    are [float32] values the pixel holds the least [z] itself. *)
Theorem forward_project_spec (pts : VEC_3) (w h : Z) :
  (0 ≤ w)%Z → (0 ≤ h)%Z → (h * w ≤ 2 ^ 31)%Z →
  ∃ img, Get_depth_map_from pts (w, h) = Ok img
         ∧ depth_map_of stored32 pts w h img
         ∧ (Forall (fun p => is_float32 (pz p)) pts →
            depth_map_of as_specified pts w h img).
Proof.
  intros Hw Hh Hsize.
  destruct (Get_depth_map_from_spec w h Hw Hh Hsize pts) as (img & Hget & Himg).
  exists img. split_and!; [done..|].
  intros Hrep. by apply depth_map_of_float32.
Qed.

(** ** C6: back-projection is the row-major scan of the valid pixels *)

(** The point that pixel [(x, y)] of depth [d] is sent to. *)
Definition point_of (y x : nat) (d : Qc) : Qc * Qc * Qc :=
  ((Qc_of_Z (Z.of_nat x) * d)%Qc, (Qc_of_Z (Z.of_nat y) * d)%Qc, d).

(** The specification's scan: rows from the top ([y]), pixels of a row from
    the left ([x]), one point for every pixel the mask selects. *)
Fixpoint scan_row (y x : nat) (mrow : list bool) (drow : list Qc) : VEC_3 :=
  match mrow, drow with
  | b :: mrow', d :: drow' =>
      (if b then [point_of y x d] else []) ++ scan_row y (S x) mrow' drow'
  | _, _ => []
  end.

Fixpoint scan (y : nat) (M : MASK) (D : IMG_1C) : VEC_3 :=
  match M, D with
  | mrow :: M', drow :: D' => scan_row y 0 mrow drow ++ scan (S y) M' D'
  | _, _ => []
  end.

Definition backproject (D : IMG_1C) (M : MASK) : VEC_3 := scan 0 M D.

(** The number of pixels a mask selects. *)
Definition valid_pixels (M : MASK) : nat :=
  length (filter (fun b : bool => b = true) (concat M)).

Section BackProjection.

Lemma c_3_app xs1 ys1 zs1 xs2 ys2 zs2 :
  length xs1 = length zs1 → length ys1 = length zs1 →
  c_3 (xs1 ++ xs2) (ys1 ++ ys2) (zs1 ++ zs2)
  = c_3 xs1 ys1 zs1 ++ c_3 xs2 ys2 zs2.
Proof.
  revert ys1 zs1.
  induction xs1 as [|x xs1 IH]; intros [|y ys1] [|z zs1] Hx Hy;
    simplify_eq/=; [done|].
  by rewrite IH.
Qed.

Lemma length_select_same {A B} mask (xs : list A) (ys : list B) :
  length xs = length ys → length (select mask xs) = length (select mask ys).
Proof.
  revert xs ys.
  induction mask as [|b mask IH]; intros [|x xs] [|y ys] Hlen;
    simplify_eq/=; try done.
  destruct b; simpl; by rewrite (IH xs ys).
Qed.

(** One row: the three selected columns, joined, are the scan of the row. *)
Lemma row_columns y x0 mrow (drow : list Qc) :
  length mrow = length drow →
  c_3 (zip_with Qcmult
         (Qc_of_Z <$> select mrow (seqZ (Z.of_nat x0) (Z.of_nat (length drow))))
         (select mrow drow))
      (zip_with Qcmult
         (Qc_of_Z <$> select mrow (replicate (length drow) (Z.of_nat y)))
         (select mrow drow))
      (select mrow drow)
  = scan_row y x0 mrow drow.
Proof.
  revert x0 drow.
  induction mrow as [|b mrow IH]; intros x0 [|d drow] Hlen; try done.
  injection Hlen as Hlen. cbn [length].
  rewrite Nat2Z.inj_succ, seqZ_cons, Z.pred_succ, <-Nat2Z.inj_succ by lia.
  specialize (IH (S x0) drow Hlen).
  destruct b; cbn; [f_equal|]; exact IH.
Qed.

Lemma scan_columns w y0 (M : MASK) (D : IMG_1C) :
  map length M = map length D →
  Forall (fun row => length row = w) D →
  let _d_map := select (concat M) (concat D) in
  c_3 (zip_with Qcmult
         (Qc_of_Z <$> select (concat M)
            (concat (replicate (length D) (seqZ 0 (Z.of_nat w)))))
         _d_map)
      (zip_with Qcmult
         (Qc_of_Z <$> select (concat M)
            (concat ((fun y => replicate w y)
                       <$> seqZ (Z.of_nat y0) (Z.of_nat (length D)))))
         _d_map)
      _d_map
  = scan y0 M D.
Proof.
  revert y0 D.
  induction M as [|mrow M IH]; intros y0 [|drow D] Hshape Hrect; try done.
  injection Hshape as Hm Hshape.
  apply Forall_cons in Hrect as [Hw Hrect]. cbn [length].
  rewrite Nat2Z.inj_succ, (seqZ_cons (Z.of_nat y0)), Z.pred_succ,
    <-Nat2Z.inj_succ by lia.
  cbn [replicate fmap list_fmap concat scan].
  rewrite !select_app
    by (rewrite ?length_seqZ, ?length_replicate; lia).
  rewrite !fmap_app.
  rewrite !zip_with_app
    by (rewrite length_fmap; apply length_select_same;
        rewrite ?length_seqZ, ?length_replicate; lia).
  rewrite c_3_app.
  - f_equal; [|by apply IH].
    rewrite <-Hw. by apply (row_columns y0 0).
  - rewrite length_zip_with, length_fmap.
    rewrite (length_select_same mrow _ drow); [lia|].
    rewrite length_seqZ. lia.
  - rewrite length_zip_with, length_fmap.
    rewrite (length_select_same mrow _ drow); [lia|].
    rewrite length_replicate. lia.
Qed.

Lemma length_scan_row y x mrow drow :
  length mrow = length drow →
  length (scan_row y x mrow drow)
  = length (filter (fun b : bool => b = true) mrow).
Proof.
  revert x drow.
  induction mrow as [|b mrow IH]; intros x [|d drow] Hlen;
    simplify_eq/=; [done|].
  rewrite filter_cons, length_app, (IH (S x) drow) by done.
  by destruct b.
Qed.

Lemma length_scan y M D :
  map length M = map length D →
  length (scan y M D) = valid_pixels M.
Proof.
  unfold valid_pixels. revert y D.
  induction M as [|mrow M IH]; intros y [|drow D] Hshape;
    simplify_eq/=; [done|].
  rewrite length_app, filter_app, length_app, (IH (S y) D) by done.
  by rewrite length_scan_row.
Qed.

Lemma has_shape_lengths {A B} h w (a : list (list A)) (b : list (list B)) :
  has_shape h w a → has_shape h w b → map length a = map length b.
Proof.
  intros [Ha Ha'] [Hb Hb']. subst h. revert b Hb Hb'.
  induction a as [|ra a IH]; intros [|rb b] Hb Hb'; simplify_eq/=; [done|].
  apply Forall_cons in Ha' as [-> Ha']. apply Forall_cons in Hb' as [-> Hb'].
  f_equal. by apply IH.
Qed.

Lemma has_shape_ones h w : has_shape h w (replicate h (replicate w true)).
Proof.
  split; [apply length_replicate|].
  apply Forall_replicate, length_replicate.
Qed.

(** On arrays of one shape [Get_pts_from] is the scan. *)
Lemma Get_pts_from_scan (D : IMG_1C) (mask : option MASK) (h w : nat) :
  has_shape h w D →
  (∀ M, mask = Some M → has_shape h w M) →
  let M := default (replicate h (replicate w true)) mask in
  Get_pts_from D mask = Ok (backproject D M)
  ∧ length (backproject D M) = valid_pixels M.
Proof.
  intros HD Hmask M.
  assert (has_shape h w M) as HM.
  { subst M. destruct mask as [M|]; simpl; [by apply Hmask|].
    apply has_shape_ones. }
  pose proof (has_shape_lengths h w M D HM HD) as Hlen.
  split; [|by apply length_scan].
  unfold Get_pts_from, shape2, meshgrid_ij, backproject.
  destruct HD as [HDh HDw]. destruct D as [|r D].
  - simpl in HDh. subst h. destruct HM as [HMh _].
    apply nil_length_inv in HMh. subst M. simpl in *. by rewrite HMh.
  - pose proof HDw as HDw'. apply Forall_cons in HDw' as [Hr _].
    cbn [hd]. rewrite HDh, Hr. fold M.
    rewrite bool_decide_eq_true_2 by done. f_equal.
    rewrite <-HDh. by rewrite <-(scan_columns w 0 M (r :: D) Hlen HDw).
Qed.

End BackProjection.

(** C6.  For every depth map of shape [(h, w)] and every mask of that
    shape (the default mask selects every pixel), [Get_pts_from] returns
    the row-major scan of the mask: the point [(x*d, y*d, d)] for each
    selected pixel [(x, y)] of depth [d], one point per selected pixel. *)
Theorem backproject_spec (D : IMG_1C) (mask : option MASK) (h w : nat) :
  has_shape h w D →
  (∀ M, mask = Some M → has_shape h w M) →
  let M := default (replicate h (replicate w true)) mask in
  Get_pts_from D mask = Ok (backproject D M)
  ∧ length (backproject D M) = valid_pixels M.
Proof. apply Get_pts_from_scan. Qed.

(** ** C3: back-projection followed by forward projection *)

Section RoundTrip.
Local Open Scope Qc_scope.

(** The point of a pixel of positive depth lands on that pixel. *)
Lemma point_of_lands y x d :
  0 < d → lands_on (point_of y x d) (Z.of_nat x) (Z.of_nat y).
Proof.
  intros Hd. assert (d ≠ 0) as Hne.
  { intros ->. by apply (Qclt_not_eq 0 0). }
  unfold lands_on, point_of, px, py, pz. simpl.
  split_and!; [done|..].
  - assert (Qc_of_Z (Z.of_nat x) * d / d = Qc_of_Z (Z.of_nat x)) as ->
      by (by field).
    apply np_round_Z.
  - assert (Qc_of_Z (Z.of_nat y) * d / d = Qc_of_Z (Z.of_nat y)) as ->
      by (by field).
    apply np_round_Z.
Qed.

Lemma elem_of_scan_row p y x0 mrow drow :
  p ∈ scan_row y x0 mrow drow ↔
  ∃ x d, mrow !! x = Some true ∧ drow !! x = Some d
         ∧ p = point_of y (x0 + x) d.
Proof.
  revert x0 drow. induction mrow as [|b mrow IH]; intros x0 drow; simpl.
  { split; [by intros ?%elem_of_nil|]. by intros (x & d & ? & _). }
  destruct drow as [|d0 drow].
  { split; [by intros ?%elem_of_nil|]. by intros (x & d & _ & ? & _). }
  rewrite elem_of_app, IH. split.
  - intros [Hin|(x & d & Hm & Hd & ->)].
    + destruct b; [|by apply elem_of_nil in Hin].
      apply list_elem_of_singleton in Hin as ->.
      exists 0%nat, d0. by rewrite Nat.add_0_r.
    + exists (S x), d. split_and!; [done..|]. f_equal. lia.
  - intros ([|x] & d & Hm & Hd & ->); simplify_eq/=.
    + left. rewrite Nat.add_0_r. by apply list_elem_of_singleton.
    + right. exists x, d. split_and!; [done..|]. f_equal. lia.
Qed.

Lemma elem_of_scan p y0 (M : MASK) (D : IMG_1C) :
  p ∈ scan y0 M D ↔
  ∃ y x d, M !! y ≫= (.!! x) = Some true ∧ D !! y ≫= (.!! x) = Some d
           ∧ p = point_of (y0 + y) x d.
Proof.
  revert y0 D. induction M as [|mrow M IH]; intros y0 D; simpl.
  { split; [by intros ?%elem_of_nil|]. by intros (y & x & d & ? & _). }
  destruct D as [|drow D].
  { split; [by intros ?%elem_of_nil|]. by intros (y & x & d & _ & ? & _). }
  rewrite elem_of_app, IH, elem_of_scan_row. split.
  - intros [(x & d & Hm & Hd & ->)|(y & x & d & Hm & Hd & ->)].
    + exists 0%nat, x, d. by rewrite Nat.add_0_r.
    + exists (S y), x, d. split_and!; [done..|]. f_equal. lia.
  - intros ([|y] & x & d & Hm & Hd & ->); simpl in *.
    + left. exists x, d. by rewrite Nat.add_0_r.
    + right. exists y, x, d. split_and!; [done..|]. f_equal. lia.
Qed.

Lemma lookup_ones h w y x :
  (y < h)%nat → (x < w)%nat →
  replicate h (replicate w true) !! y ≫= (.!! x) = Some true.
Proof.
  intros Hy Hx. rewrite lookup_replicate_2 by done. simpl.
  by rewrite lookup_replicate_2.
Qed.

Lemma has_shape_pixel {A} h w (a : list (list A)) y x :
  has_shape h w a → (y < h)%nat → (x < w)%nat →
  ∃ d, a !! y ≫= (.!! x) = Some d.
Proof.
  intros [Hh Hw] Hy Hx.
  destruct (lookup_lt_is_Some_2 a y) as [r Hr]; [lia|].
  assert (length r = w) as Hlen
    by (eapply (proj1 (Forall_lookup _ _) Hw); eauto).
  destruct (lookup_lt_is_Some_2 r x) as [d Hd]; [lia|].
  exists d. by rewrite Hr.
Qed.

Lemma Forall2_pixel {A} (P : A → Prop) (a : list (list A)) y x d :
  Forall (Forall P) a → a !! y ≫= (.!! x) = Some d → P d.
Proof.
  intros Ha Hpix. destruct (a !! y) as [r|] eqn:Hr; [|done].
  simpl in Hpix.
  eapply (proj1 (Forall_lookup _ _)); [|done].
  eapply (proj1 (Forall_lookup _ _) Ha); eauto.
Qed.

(** C3, amended.  For every depth map of shape [(h, w)] with [h * w ≤ 2^31]
    whose entries are non-negative [float32] values, projecting the
    back-projected points at the same size returns the depth map. *)
Theorem projection_round_trip (D : IMG_1C) (h w : nat) :
  has_shape h w D →
  Forall (Forall (fun d => 0 ≤ d)) D →
  Forall (Forall is_float32) D →
  (Z.of_nat h * Z.of_nat w ≤ 2 ^ 31)%Z →
  (pts ← Get_pts_from D None;
   Get_depth_map_from pts (Z.of_nat w, Z.of_nat h)) = Ok D.
Proof.
  intros HD Hnn Hrep Hsize.
  destruct (Get_pts_from_scan D None h w HD) as [-> _]; [done|].
  change (Get_depth_map_from
            (backproject D (replicate h (replicate w true)))
            (Z.of_nat w, Z.of_nat h) = Ok D).
  set (pts := backproject D (replicate h (replicate w true))).
  destruct (Get_depth_map_from_spec (Z.of_nat w) (Z.of_nat h)
              ltac:(lia) ltac:(lia) Hsize pts)
    as (img & -> & Himg & _ & Hpix).
  f_equal. rewrite !Nat2Z.id in Himg.
  apply (has_shape_ext h w); [done..|].
  intros v u Hv Hu.
  destruct (Hpix (Z.of_nat u) (Z.of_nat v)) as (d & Hd & Hnear); [lia..|].
  rewrite !Nat2Z.id in Hd. rewrite Hd.
  destruct (has_shape_pixel h w D v u HD Hv Hu) as [d0 Hd0].
  rewrite Hd0. f_equal.
  pose proof (Forall2_pixel _ D v u d0 Hnn Hd0) as Hd0nn. simpl in Hd0nn.
  pose proof (Forall2_pixel _ D v u d0 Hrep Hd0) as Hd0rep.
  (* every lander on (u, v) is the point of pixel (u, v) *)
  assert (∀ p, p ∈ pts → lands_on p (Z.of_nat u) (Z.of_nat v) →
               pz p = d0) as Hlander.
  { intros p Hp Hl. apply elem_of_scan in Hp as (y & x & dd & _ & Hdd & ->).
    simpl in Hl. destruct Hl as [Hpos Hl].
    destruct (point_of_lands y x dd Hpos) as (_ & Hx & Hy).
    destruct Hl as [Hx' Hy']. rewrite Hx in Hx'. rewrite Hy in Hy'.
    apply Nat2Z.inj in Hx', Hy'. subst x y.
    rewrite Hd0 in Hdd. by simplify_eq. }
  destruct Hnear as [[Hnone ->]|(p & Hp & Hl & -> & _)].
  - destruct (Qc_eq_dec 0 d0) as [|Hne]; [done|].
    exfalso. apply (Hnone (point_of v u d0)).
    + apply elem_of_scan. exists v, u, d0.
      split_and!; [by apply lookup_ones|done..].
    + apply point_of_lands. by apply Qcle_lt_or_eq in Hd0nn as [?|?].
  - rewrite (Hlander p Hp Hl). by apply stored32_float32.
Qed.

End RoundTrip.

Lemma contribution_positive w h p i z :
  contribution w h p = Some (i, z) → (0 < z)%Qc.
Proof.
  unfold contribution. case_bool_decide as Hz; [|done].
  cbn zeta. destruct (_ && _); [|done]. by intros [= _ <-].
Qed.

Lemma contribution_Some_depth w h p i z :
  contribution w h p = Some (i, z) → pz p = z.
Proof.
  unfold contribution. case_bool_decide as Hz; [|done].
  cbn zeta. destruct (_ && _); [|done]. by intros [= _ <-].
Qed.

(** *** Beyond the [int32] index range

    With more than [2^31] pixels the flat index [v * w + u], computed in
    [int32], wraps to a negative number, which Python counts from the end
    of the buffer: the depth is written to another pixel. *)

Section Wrap.
Variables w h v : Z.
Hypothesis Hv : (0 ≤ v < h)%Z.
Hypothesis Hv31 : (v < 2 ^ 31)%Z.
Hypothesis Hvw : (v * w = 2 ^ 31)%Z.
Hypothesis Hhw : (h * w < 2 ^ 32)%Z.

Lemma wrap_width_positive : (0 < w)%Z.
Proof. nia. Qed.

Lemma contribution_wrapped p :
  lands_on p 0 v → contribution w h p = Some ((- 2 ^ 31)%Z, pz p).
Proof.
  intros (Hz & Hu & Hpv). pose proof wrap_width_positive as Hw.
  unfold contribution. rewrite bool_decide_eq_true_2 by done.
  cbn zeta. rewrite Hu, Hpv.
  replace ((0 <=? 0) && (0 <? w) && (0 <=? v) && (v <? h))%Z with true
    by (symmetry; repeat (apply andb_true_intro; split); lia).
  rewrite (wrap32_small v) by lia. rewrite Hvw.
  reflexivity.
Qed.

Lemma forward_project_wraps p :
  lands_on p 0 v →
  ¬ ∃ img, Get_depth_map_from [p] (w, h) = Ok img
           ∧ depth_map_of as_specified [p] w h img.
Proof.
  intros Hl (img & Hget & _ & _ & Hpix).
  pose proof wrap_width_positive as Hw.
  destruct (Hpix 0%Z v) as (d & Hd & Hnear); [lia..|].
  assert (d = pz p ∧ (0 < d)%Qc) as [-> Hpos].
  { destruct Hnear as [[Hnone _]|(p' & Hp' & _ & -> & _)].
    - exfalso. apply (Hnone p); [by left|done].
    - apply list_elem_of_singleton in Hp' as ->. split; [done|apply Hl]. }
  rewrite Get_depth_map_from_pointwise in Hget.
  rewrite bool_decide_eq_false_2 in Hget by lia.
  cbn [omap list_omap] in Hget.
  rewrite (contribution_wrapped p Hl) in Hget.
  match type of Hget with
  | context [minimum_at ?b ?l] => destruct (minimum_at b l) as [a|] eqn:Ha
  end; cbn [mbind result_bind] in Hget; [|discriminate Hget].
  apply minimum_at_Ok in Ha as [Hlen Hlook]; [|apply buffer_is_float32].
  rewrite length_replicate in Hlen, Hlook.
  assert (img = reshape (Z.to_nat h) (Z.to_nat w) (finish <$> a)) as ->
    by congruence.
  clear Hget.
  rewrite lookup_reshape_pixel in Hd by lia.
  rewrite list_lookup_fmap, Hlook in Hd.
  rewrite lookup_replicate_2 in Hd by nia.
  unfold sent_to in Hd. rewrite filter_cons, filter_nil in Hd.
  cbn [fst snd] in Hd. unfold py_index in Hd.
  destruct (Z.ltb_spec (- 2 ^ 31) 0) as [_|?]; [|lia].
  rewrite decide_False in Hd by nia.
  cbn [fmap list_fmap option_fmap option_map running_min foldl
       astype_float32] in Hd.
  injection Hd as Hd. rewrite <-Hd in Hpos.
  by apply (Qclt_not_eq 0 0)%Qc in Hpos.
Qed.

End Wrap.

(** A point that rounds to pixel [(0, 32768)], whose flat index in a map
    of width 65536 is [2^31]. *)
Definition gigapixel_point : Qc * Qc * Qc := (0%Qc, Qc_of_Z 32768, 1%Qc).

Lemma gigapixel_point_lands : lands_on gigapixel_point 0 32768.
Proof. unfold lands_on. split_and!; by vm_compute. Qed.

(** In a map of 32769 rows of 65536 pixels the point of [gigapixel_point]
    does not reach its pixel. *)
Lemma gigapixel_point_lost :
  ¬ ∃ img, Get_depth_map_from [gigapixel_point] (65536, 32769)%Z = Ok img
           ∧ depth_map_of as_specified [gigapixel_point] 65536 32769 img.
Proof.
  apply (forward_project_wraps 65536 32769 32768); try lia.
  apply gigapixel_point_lands.
Qed.

(** A point at depth 1/10, which is not a [float32], on the pixel (0, 0). *)
Definition tenth : Qc := Q2Qc (1 # 10).
Definition tenth_point : Qc * Qc * Qc := (0%Qc, 0%Qc, tenth).

(** What the buffer holds for it: 13421773 / 2^27. *)
Definition tenth_as_float32 : Qc := Q2Qc (13421773 # 134217728).

(** The conversion on some values: 1/10 is rounded, [2^24 + 1] loses its
    last bit, the largest [float32] is [2^128 - 2^104], halfway from it to
    [2^128] the result is the infinity, and [10^-50] becomes 0. *)
Lemma float32_examples :
  float32 tenth = Fin tenth_as_float32
  ∧ float32 (Qc_of_Z (2 ^ 24 + 1)) = Fin (Qc_of_Z (2 ^ 24))
  ∧ float32 (Qc_of_Z (2 ^ 128 - 2 ^ 103 - 1)) = Fin (Qc_of_Z (2 ^ 128 - 2 ^ 104))
  ∧ float32 (Qc_of_Z (2 ^ 128 - 2 ^ 103)) = PInf
  ∧ float32 (Qc_of_Z (10 ^ 300)) = PInf
  ∧ float32 (- Qc_of_Z (10 ^ 300)) = NInf
  ∧ float32 (Q2Qc (1 # 10 ^ 50)) = Fin 0%Qc.
Proof. split_and!; by_evaluation. Qed.

Lemma tenth_point_narrowed :
  Get_depth_map_from [tenth_point] (1, 1)%Z = Ok [[tenth_as_float32]].
Proof. by_evaluation. Qed.

Lemma tenth_point_not_exact :
  ¬ ∃ img, Get_depth_map_from [tenth_point] (1, 1)%Z = Ok img
           ∧ depth_map_of as_specified [tenth_point] 1 1 img.
Proof.
  intros (img & Hget & _ & _ & Hpix).
  rewrite tenth_point_narrowed in Hget. injection Hget as <-.
  destruct (Hpix 0%Z 0%Z) as (d & Hd & Hnear); [lia..|].
  injection Hd as <-.
  destruct Hnear as [[Hnone _]|(p & Hp & _ & Heq & _)].
  - apply (Hnone tenth_point); [by left|].
    unfold lands_on. split_and!; by vm_compute.
  - apply list_elem_of_singleton in Hp as ->.
    revert Heq. by apply (bool_decide_unpack _).
Qed.

(** C2 as stated, for every size and every depth: the point of
    [gigapixel_point] does not reach its pixel in a map of 32769 rows of
    65536 pixels, and the depth 1/10 is not the value of its pixel. *)
Lemma forward_project_not_as_specified :
  (¬ ∃ img, Get_depth_map_from [gigapixel_point] (65536, 32769)%Z = Ok img
            ∧ depth_map_of as_specified [gigapixel_point] 65536 32769 img)
  ∧ (¬ ∃ img, Get_depth_map_from [tenth_point] (1, 1)%Z = Ok img
              ∧ depth_map_of as_specified [tenth_point] 1 1 img).
Proof. split; [apply gigapixel_point_lost|apply tenth_point_not_exact]. Qed.

Section RoundTripWrap.
Variable D : IMG_1C.
Variables h w v v' u' : nat.
Variable d : Qc.
Hypothesis HD : has_shape h w D.
Hypothesis Hrep : Forall (Forall is_float32) D.
Hypothesis Hv : v < h.
Hypothesis Hv31 : (Z.of_nat v < 2 ^ 31)%Z.
Hypothesis Hvw : (Z.of_nat v * Z.of_nat w = 2 ^ 31)%Z.
Hypothesis Hd : D !! v ≫= (.!! 0) = Some d.
Hypothesis Hdpos : (0 < d)%Qc.
Hypothesis Hu' : u' < w.
Hypothesis Hv' : v' < h.
Hypothesis Hj :
  (Z.of_nat (v' * w + u') = Z.of_nat h * Z.of_nat w - 2 ^ 31)%Z.
Hypothesis Hzero : D !! v' ≫= (.!! u') = Some 0%Qc.

Lemma round_trip_wraps :
  (pts ← Get_pts_from D None;
   Get_depth_map_from pts (Z.of_nat w, Z.of_nat h)) ≠ Ok D.
Proof.
  destruct (Get_pts_from_scan D None h w HD) as [-> _]; [done|].
  change (Get_depth_map_from
            (backproject D (replicate h (replicate w true)))
            (Z.of_nat w, Z.of_nat h) ≠ Ok D).
  set (pts := backproject D (replicate h (replicate w true))).
  intros Hget.
  assert (0 < w) as Hw by nia.
  rewrite Get_depth_map_from_pointwise in Hget.
  rewrite bool_decide_eq_false_2 in Hget by lia.
  set (ivs := omap (contribution (Z.of_nat w) (Z.of_nat h)) pts) in *.
  match type of Hget with
  | context [minimum_at ?b ?l] => destruct (minimum_at b l) as [a|] eqn:Ha
  end; cbn [mbind result_bind] in Hget; [|discriminate Hget].
  apply minimum_at_Ok in Ha as [Hlen Hlook]; [|apply buffer_is_float32].
  rewrite length_replicate in Hlen, Hlook.
  assert (D = reshape (Z.to_nat (Z.of_nat h)) (Z.to_nat (Z.of_nat w))
                (finish <$> a)) as HDeq by congruence.
  clear Hget. rewrite !Nat2Z.id in HDeq.
  pose proof Hzero as Hpix. rewrite HDeq in Hpix.
  rewrite lookup_reshape_pixel in Hpix by lia.
  rewrite list_lookup_fmap, Hlook in Hpix.
  rewrite lookup_replicate_2 in Hpix by nia.
  set (here := sent_to (Z.to_nat (Z.of_nat h * Z.of_nat w)) (v' * w + u') ivs)
    in *.
  assert (d ∈ here) as Hin.
  { apply (list_elem_of_fmap_2' snd _ ((- 2 ^ 31)%Z, d)); [|done].
    apply list_elem_of_filter. split.
    - cbn [fst]. unfold py_index.
      destruct (Z.ltb_spec (- 2 ^ 31) 0) as [_|?]; lia.
    - apply list_elem_of_omap. exists (point_of v 0 d). split.
      + apply elem_of_scan. exists v, 0, d.
        split_and!; [by apply lookup_ones|done..].
      + apply (contribution_wrapped (Z.of_nat w) (Z.of_nat h) (Z.of_nat v));
          [lia..|].
        by apply (point_of_lands v 0 d). }
  pose proof (running_min_PInf here) as Hmin.
  destruct here as [|z0 zs] eqn:Hhere; [by apply elem_of_nil in Hin|].
  destruct Hmin as (m & Hm & Hmin & _).
  cbn [fmap option_fmap option_map] in Hpix. cbn beta in Hpix.
  rewrite Hm in Hpix.
  assert ((0 < m)%Qc ∧ is_float32 m) as [Hmpos Hmrep].
  { rewrite <-Hhere in Hmin.
    apply list_elem_of_fmap in Hmin as ([i z] & -> & Hiz).
    apply list_elem_of_filter in Hiz as [_ Hiz].
    apply list_elem_of_omap in Hiz as (p & Hp & Hc).
    split; [by apply contribution_positive in Hc|].
    apply elem_of_scan in Hp as (y & x & dd & _ & Hdd & ->).
    apply contribution_Some_depth in Hc.
    unfold pz, point_of in Hc. cbn [fst snd] in Hc. subst z. cbn [snd].
    by apply (Forall2_pixel _ D y x dd). }
  injection Hpix as Hpix. cbn [astype_float32] in Hpix.
  fold (stored32 m) in Hpix.
  rewrite stored32_float32 in Hpix by (done || by apply Qclt_le_weak).
  rewrite Hpix in Hmpos. by apply (Qclt_not_eq 0 0)%Qc in Hmpos.
Qed.

End RoundTripWrap.

(** 32769 rows of 65536 pixels, all of depth 0 but the first pixel of the
    last row, of depth 1. *)
Definition gigapixel_map : IMG_1C :=
  replicate (Z.to_nat 32768) (replicate (Z.to_nat 65536) 0%Qc)
  ++ [1%Qc :: replicate (Z.to_nat 65535) 0%Qc].

Lemma gigapixel_map_shape :
  has_shape (Z.to_nat 32769) (Z.to_nat 65536) gigapixel_map.
Proof.
  unfold gigapixel_map. split.
  - rewrite length_app, length_replicate. cbn [length]. lia.
  - apply Forall_app. split.
    + apply Forall_replicate. apply length_replicate.
    + apply Forall_singleton. cbn [length]. rewrite length_replicate. lia.
Qed.

Lemma gigapixel_map_nonneg :
  Forall (Forall (fun d => (0 ≤ d)%Qc)) gigapixel_map.
Proof.
  unfold gigapixel_map. apply Forall_app. split.
  - apply Forall_replicate, Forall_replicate. apply Qcle_refl.
  - apply Forall_singleton. apply Forall_cons. split.
    + by apply Qclt_le_weak.
    + apply Forall_replicate. apply Qcle_refl.
Qed.

Lemma gigapixel_map_float32 : Forall (Forall is_float32) gigapixel_map.
Proof.
  assert (is_float32 0%Qc) as H0 by by_evaluation.
  assert (is_float32 1%Qc) as H1 by by_evaluation.
  unfold gigapixel_map. apply Forall_app. split.
  - by apply Forall_replicate, Forall_replicate.
  - apply Forall_singleton. apply Forall_cons. split; [done|].
    by apply Forall_replicate.
Qed.

(** [gigapixel_map], whose entries are [float32] values, is not returned
    by the round trip. *)
Lemma gigapixel_round_trip :
  (pts ← Get_pts_from gigapixel_map None;
   Get_depth_map_from pts (65536, 32769)%Z) ≠ Ok gigapixel_map.
Proof.
  replace (65536, 32769)%Z
    with (Z.of_nat (Z.to_nat 65536), Z.of_nat (Z.to_nat 32769))
    by (rewrite !Z2Nat.id by lia; reflexivity).
  apply (round_trip_wraps gigapixel_map (Z.to_nat 32769) (Z.to_nat 65536)
           (Z.to_nat 32768) 1 0 1%Qc).
  - apply gigapixel_map_shape.
  - apply gigapixel_map_float32.
  - lia.
  - rewrite Z2Nat.id by lia. lia.
  - rewrite !Z2Nat.id by lia. lia.
  - unfold gigapixel_map.
    rewrite (lookup_app_r _ _ (Z.to_nat 32768))
      by (rewrite length_replicate; lia).
    rewrite length_replicate, Nat.sub_diag. reflexivity.
  - reflexivity.
  - lia.
  - lia.
  - rewrite Nat2Z.inj_add, Nat2Z.inj_mul, !Z2Nat.id by lia. lia.
  - unfold gigapixel_map.
    rewrite lookup_app_l by (rewrite length_replicate; lia).
    rewrite lookup_replicate_2 by lia. cbn [mbind option_bind].
    apply lookup_replicate_2. lia.
Qed.

(** The depth map of one pixel of depth 1/10. *)
Definition tenth_map : IMG_1C := [[tenth]].

Lemma tenth_map_narrowed :
  (pts ← Get_pts_from tenth_map None; Get_depth_map_from pts (1, 1)%Z)
  = Ok [[tenth_as_float32]].
Proof. by_evaluation. Qed.

(** C3 as stated, for every non-negative depth map: neither
    [gigapixel_map] nor the one-pixel map of depth 1/10 is returned by the
    round trip. *)
Lemma round_trip_not_as_specified :
  (has_shape (Z.to_nat 32769) (Z.to_nat 65536) gigapixel_map
   ∧ Forall (Forall (fun d => (0 ≤ d)%Qc)) gigapixel_map
   ∧ (pts ← Get_pts_from gigapixel_map None;
      Get_depth_map_from pts (65536, 32769)%Z) ≠ Ok gigapixel_map)
  ∧ (has_shape 1 1 tenth_map
     ∧ Forall (Forall (fun d => (0 ≤ d)%Qc)) tenth_map
     ∧ (pts ← Get_pts_from tenth_map None;
        Get_depth_map_from pts (1, 1)%Z) ≠ Ok tenth_map).
Proof.
  split; split_and!.
  - apply gigapixel_map_shape.
  - apply gigapixel_map_nonneg.
  - apply gigapixel_round_trip.
  - split; [done|]. by repeat constructor.
  - repeat constructor. by vm_compute.
  - rewrite tenth_map_narrowed. by_evaluation.
Qed.

(** ** Concrete runs of the projector *)

Definition near_pt : Qc * Qc * Qc := (1%Qc, 1%Qc, 1%Qc).
Definition far_pt : Qc * Qc * Qc := (Qc_of_Z 5, Qc_of_Z 5, Qc_of_Z 5).
Definition small_map : IMG_1C :=
  [[Qc_of_Z 1; 0%Qc]; [Qc_of_Z 2; Qc_of_Z 3]].

(** Both points round to pixel [(1, 1)]; the nearer one, at depth 1, is
    kept whichever comes first. *)
Lemma occlusion_example :
  ∀ pts, pts = [near_pt; far_pt] ∨ pts = [far_pt; near_pt] →
    Get_depth_map_from pts (3, 2)%Z
    = Ok [[0%Qc; 0%Qc; 0%Qc]; [0%Qc; 1%Qc; 0%Qc]].
Proof. intros pts [->| ->]; by_evaluation. Qed.

(** ** C8: the occlusion rule is a minimum, whatever the order *)

(** The depths that the points of [pts] send to the buffer entry of pixel
    [(u, v)] of a [w] by [h] map. *)
Definition written_to (w h : Z) (pts : VEC_3) (u v : Z) : list Qc :=
  sent_to (Z.to_nat (h * w)) (Z.to_nat (v * w + u))
          (omap (contribution w h) pts).

(** [d] is what the least of the depths [zs] is held as, and 0 when there
    is none. *)
Definition least_of (zs : list Qc) (d : Qc) : Prop :=
  (zs = [] ∧ d = 0%Qc)
  ∨ ∃ z, z ∈ zs ∧ (∀ z', z' ∈ zs → (z ≤ z')%Qc) ∧ d = stored32 z.

Section Reduction.
Variables w h : Z.

Lemma Get_depth_map_from_buffer pts img :
  Get_depth_map_from pts (w, h) = Ok img →
  (0 ≤ w)%Z ∧ (0 ≤ h)%Z
  ∧ ∃ a, img = reshape (Z.to_nat h) (Z.to_nat w) (finish <$> a)
      ∧ length a = Z.to_nat (h * w)
      ∧ ∀ j, (j < Z.to_nat (h * w))%nat →
          a !! j
          = Some (astype_float32
                    (running_min PInf
                       (sent_to (Z.to_nat (h * w)) j
                                (omap (contribution w h) pts)))).
Proof.
  rewrite Get_depth_map_from_pointwise.
  case_bool_decide as Hneg; [done|].
  destruct (minimum_at _ _) as [a|] eqn:Ha; [|done].
  cbn [mbind result_bind]. intros [= <-].
  apply minimum_at_Ok in Ha as [Hlen Hlook]; [|apply buffer_is_float32].
  rewrite length_replicate in Hlen, Hlook.
  split_and!; [lia..|]. exists a. split_and!; [done..|].
  intros j Hj. by rewrite Hlook, lookup_replicate_2.
Qed.

(** Each pixel holds the least of the depths sent to its buffer entry, for
    every size. *)
Lemma Get_depth_map_from_least pts img :
  Get_depth_map_from pts (w, h) = Ok img →
  ∀ u v, (0 ≤ u < w)%Z → (0 ≤ v < h)%Z →
    ∃ d, img !! Z.to_nat v ≫= (.!! Z.to_nat u) = Some d
         ∧ least_of (written_to w h pts u v) d.
Proof.
  intros Hget u v Hu Hv.
  apply Get_depth_map_from_buffer in Hget as (Hw & Hh & a & -> & Hlen & Ha).
  rewrite lookup_reshape_pixel by lia.
  replace (Z.to_nat v * Z.to_nat w + Z.to_nat u)%nat
    with (Z.to_nat (v * w + u)) by nia.
  rewrite list_lookup_fmap, Ha by nia. cbn [fmap option_fmap option_map].
  eexists. split; [done|]. unfold written_to.
  set (here := sent_to _ _ _).
  pose proof (running_min_PInf here) as Hmin.
  destruct here as [|z0 zs].
  - rewrite Hmin. by left.
  - destruct Hmin as (m & -> & Hm & Hall). right.
    exists m. split_and!; [done| |done].
    intros z' Hz'. by apply (proj1 (Forall_forall _ _) Hall).
Qed.

(** Every entry of the result is a non-negative [float32]. *)
Lemma Get_depth_map_from_float32 pts img :
  Get_depth_map_from pts (w, h) = Ok img →
  Forall (Forall (fun d => is_float32 d ∧ (0 ≤ d)%Qc)) img.
Proof.
  intros Hget.
  apply Get_depth_map_from_buffer in Hget as (Hw & Hh & a & -> & Hlen & Ha).
  apply Forall_reshape, Forall_fmap, Forall_lookup. intros j x Hx.
  split; [|apply finish_nonneg].
  apply finish_is_float32.
  rewrite Ha in Hx by (rewrite <-Hlen; by eapply lookup_lt_Some).
  injection Hx as <-. apply astype_float32_fixed.
Qed.

Lemma Get_depth_map_from_perm (pts pts' : VEC_3) :
  pts ≡ₚ pts' →
  Get_depth_map_from pts' (w, h) = Get_depth_map_from pts (w, h).
Proof.
  intros Hp. rewrite !Get_depth_map_from_pointwise.
  case_bool_decide; [done|].
  by rewrite (minimum_at_perm _ _ _ (omap_Permutation _ _ _ Hp)).
Qed.

End Reduction.

(** C8.  For every point set, every permutation of its rows and every target
    size, [Get_depth_map_from] returns the same outcome (the same depth map,
    or the same exception); the reduction is a minimum: each pixel of a
    returned map holds the least of the depths sent to its buffer entry
    (as the [float32] the buffer holds it as), and 0 when none is sent;
    and two points on one pixel with z = 1 and z = 5 give depth 1 there in
    either order. *)
Theorem forward_project_permutation (pts pts' : VEC_3) (size : Z * Z) :
  pts ≡ₚ pts' →
  Get_depth_map_from pts' size = Get_depth_map_from pts size
  ∧ (∀ img, Get_depth_map_from pts size = Ok img →
       ∀ u v, (0 ≤ u < size.1)%Z → (0 ≤ v < size.2)%Z →
         ∃ d, img !! Z.to_nat v ≫= (.!! Z.to_nat u) = Some d
              ∧ least_of (written_to size.1 size.2 pts u v) d)
  ∧ (∀ pts0, pts0 = [near_pt; far_pt] ∨ pts0 = [far_pt; near_pt] →
       Get_depth_map_from pts0 (3, 2)%Z
       = Ok [[0%Qc; 0%Qc; 0%Qc]; [0%Qc; 1%Qc; 0%Qc]]).
Proof.
  intros Hp. destruct size as [w h]. cbn [fst snd]. split_and!.
  - by apply Get_depth_map_from_perm.
  - intros img. apply Get_depth_map_from_least.
  - apply occlusion_example.
Qed.

Lemma forward_project_permutation_witness :
  [near_pt; far_pt] ≡ₚ [far_pt; near_pt]
  ∧ Get_depth_map_from [far_pt; near_pt] (3, 2)%Z
    = Get_depth_map_from [near_pt; far_pt] (3, 2)%Z
  ∧ Get_depth_map_from [far_pt; near_pt] (3, 2)%Z
    = Ok [[0%Qc; 0%Qc; 0%Qc]; [0%Qc; 1%Qc; 0%Qc]].
Proof.
  split; [apply perm_swap|].
  destruct (forward_project_permutation [near_pt; far_pt] [far_pt; near_pt]
              (3, 2)%Z (perm_swap _ _ _)) as (Hperm & _ & Hmin).
  split; [exact Hperm|]. apply Hmin. by right.
Defined.

Lemma forward_project_spec_witness :
  ((0 ≤ 3)%Z ∧ (0 ≤ 2)%Z ∧ (2 * 3 ≤ 2 ^ 31)%Z)
  ∧ ∃ img, Get_depth_map_from [near_pt; far_pt] (3, 2)%Z = Ok img
           ∧ depth_map_of stored32 [near_pt; far_pt] 3 2 img
           ∧ (Forall (fun p => is_float32 (pz p)) [near_pt; far_pt] →
              depth_map_of as_specified [near_pt; far_pt] 3 2 img).
Proof.
  split; [lia|]. apply forward_project_spec; lia.
Defined.

Lemma small_map_shape : has_shape 2 2 small_map.
Proof. split; [done|]. by repeat constructor. Defined.

Lemma small_map_nonneg : Forall (Forall (fun d => (0 ≤ d)%Qc)) small_map.
Proof. repeat constructor; by vm_compute. Defined.

Lemma small_map_float32 : Forall (Forall is_float32) small_map.
Proof. repeat constructor; by_evaluation. Defined.

Lemma backproject_spec_witness :
  has_shape 2 2 small_map
  ∧ Get_pts_from small_map None
    = Ok (backproject small_map (replicate 2 (replicate 2 true)))
  ∧ length (backproject small_map (replicate 2 (replicate 2 true)))
    = valid_pixels (replicate 2 (replicate 2 true)).
Proof.
  split; [apply small_map_shape|].
  apply (backproject_spec small_map None 2 2 small_map_shape). done.
Defined.

Lemma projection_round_trip_witness :
  (has_shape 2 2 small_map
   ∧ Forall (Forall (fun d => (0 ≤ d)%Qc)) small_map
   ∧ Forall (Forall is_float32) small_map
   ∧ (Z.of_nat 2 * Z.of_nat 2 ≤ 2 ^ 31)%Z)
  ∧ (pts ← Get_pts_from small_map None;
     Get_depth_map_from pts (Z.of_nat 2, Z.of_nat 2)) = Ok small_map.
Proof.
  split.
  - split_and!;
      [apply small_map_shape|apply small_map_nonneg
      |apply small_map_float32|lia].
  - apply (projection_round_trip small_map 2 2
             small_map_shape small_map_nonneg small_map_float32). lia.
Defined.

(** ** Space_process.Remove_duplicate *)

(** Conversion of an integral float to [np.int64].  Inside the [int64]
    range it is exact; outside it NumPy gives no defined value, and the
    model reduces modulo [2^64]. *)
Definition astype_int64 (z : Z) : Z :=
  ((z + 2 ^ 63) mod 2 ^ 64 - 2 ^ 63)%Z.

(** [10 ** precision]: an integer for a non-negative exponent, the float
    [1 / 10 ** -precision] for a negative one. *)
Definition pow10 (precision : Z) : Qc :=
  if (0 <=? precision)%Z then Qc_of_Z (10 ^ precision)
  else (/ Qc_of_Z (10 ^ (- precision)))%Qc.

(** The order NumPy sorts the rows of an integer array in: lexicographic,
    first column first. *)
Fixpoint lex_le (r1 r2 : list Z) : Prop :=
  match r1, r2 with
  | [], _ => True
  | _ :: _, [] => False
  | x :: r1', y :: r2' => (x < y)%Z ∨ (x = y ∧ lex_le r1' r2')
  end.

#[global] Instance lex_le_dec : RelDecision lex_le.
Proof.
  intros r1. induction r1 as [|x r1 IH]; intros [|y r2]; simpl; apply _.
Defined.

(** The indices of the rows that differ from every earlier row, in
    increasing order.  [seen] holds the rows met so far, [i] is the index of
    the head of [rows]. *)
Fixpoint first_occurrences_from (i : nat) (seen rows : list (list Z))
  : list nat :=
  match rows with
  | [] => []
  | r :: rows' =>
      if decide (r ∈ seen) then first_occurrences_from (S i) seen rows'
      else i :: first_occurrences_from (S i) (r :: seen) rows'
  end.

Definition first_occurrences (rows : list (list Z)) : list nat :=
  first_occurrences_from 0 [] rows.

(** Row [i] of an array. *)
Definition row_at {A} (rows : list (list A)) (i : nat) : list A :=
  default [] (rows !! i).

(** The index part of [np.unique(rows, axis=0, return_index=True)]: for
    each distinct row the index of its first occurrence, listed in the
    sorted order of the rows ([row_le] compares two indices by their rows). *)
Definition row_le (rows : list (list Z)) (i j : nat) : Prop :=
  lex_le (row_at rows i) (row_at rows j).

#[global] Instance row_le_dec rows : RelDecision (row_le rows).
Proof. intros i j. unfold row_le. apply _. Defined.

Definition unique_index (rows : list (list Z)) : list nat :=
  merge_sort (row_le rows) (first_occurrences rows).

(** The quantised copy of the data. *)
Definition quantize (data : list (list Qc)) (precision : Z)
  : list (list Z) :=
  let _scale := pow10 precision in
  map (map (fun x => astype_int64 (np_round (x * _scale)%Qc))) data.

(** [Remove_duplicate(data, precision)]. *)
Definition Remove_duplicate (data : list (list Qc)) (precision : Z)
  : list (list Qc) * list nat :=
  let _scaled := quantize data precision in
  let _indices := unique_index _scaled in
  (map (row_at data) _indices, _indices).

Section Deduplicate.

Lemma lex_le_trans r1 r2 r3 : lex_le r1 r2 → lex_le r2 r3 → lex_le r1 r3.
Proof.
  revert r2 r3. induction r1 as [|x r1 IH]; intros [|y r2] [|z r3]; simpl;
    try tauto.
  intros [?|[-> ?]] [?|[-> ?]]; try (left; lia). right. eauto.
Qed.

Lemma lex_le_total r1 r2 : lex_le r1 r2 ∨ lex_le r2 r1.
Proof.
  revert r2. induction r1 as [|x r1 IH]; intros [|y r2]; simpl; try tauto.
  destruct (Z.lt_trichotomy x y) as [?|[->|?]]; try tauto.
  destruct (IH r2); tauto.
Qed.

(** What [first_occurrences_from] lists. *)
Lemma elem_of_first_occurrences_from i seen rows k :
  k ∈ first_occurrences_from i seen rows ↔
  ∃ j r, k = i + j ∧ rows !! j = Some r ∧ (r ∉ seen)
         ∧ ∀ j', j' < j → rows !! j' ≠ Some r.
Proof.
  revert i seen. induction rows as [|r0 rows IH]; intros i seen; simpl.
  { split; [by intros ?%elem_of_nil|]. by intros (j & r & _ & ? & _). }
  case_decide as Hseen.
  - rewrite IH. split.
    + intros (j & r & -> & Hr & Hns & Hfirst).
      exists (S j), r. split_and!; [lia|done..|].
      intros [|j'] Hj'; simpl; [congruence|]. apply Hfirst. lia.
    + intros ([|j] & r & -> & Hr & Hns & Hfirst); simplify_eq/=; [done|].
      exists j, r. split_and!; [lia|done..|].
      intros j' Hj'. apply (Hfirst (S j')). lia.
  - rewrite elem_of_cons, IH. split.
    + intros [->|(j & r & -> & Hr & Hns & Hfirst)].
      * exists 0, r0. split_and!; [lia|done..|]. intros j' Hj'. lia.
      * exists (S j), r. split_and!; [lia|done| |].
        -- intros Hin. apply Hns. by right.
        -- intros [|j'] Hj'; simpl; [|apply Hfirst; lia].
           intros [= ->]. apply Hns. by left.
    + intros ([|j] & r & -> & Hr & Hns & Hfirst); simplify_eq/=.
      * left. lia.
      * right. exists j, r. split_and!; [lia|done| |].
        -- intros [->|?]%elem_of_cons; [|done].
           by apply (Hfirst 0); [lia|].
        -- intros j' Hj'. apply (Hfirst (S j')). lia.
Qed.

(** [k] is a first occurrence: row [k] exists and no earlier row equals
    it. *)
Definition is_first_occurrence (rows : list (list Z)) (k : nat) : Prop :=
  ∃ r, rows !! k = Some r ∧ ∀ j, j < k → rows !! j ≠ Some r.

Lemma elem_of_first_occurrences rows k :
  k ∈ first_occurrences rows ↔ is_first_occurrence rows k.
Proof.
  unfold first_occurrences, is_first_occurrence.
  rewrite elem_of_first_occurrences_from. split.
  - intros (j & r & -> & Hr & _ & Hfirst). by exists r.
  - intros (r & Hr & Hfirst). exists k, r.
    split_and!; [done..|by intros ?%elem_of_nil|done].
Qed.

Lemma first_occurrences_from_lt i seen rows :
  Forall (fun k => i ≤ k) (first_occurrences_from i seen rows).
Proof.
  revert i seen. induction rows as [|r rows IH]; intros i seen; simpl.
  - constructor.
  - case_decide.
    + eapply Forall_impl; [apply IH|]. simpl. lia.
    + constructor; [lia|]. eapply Forall_impl; [apply IH|]. simpl. lia.
Qed.

(** The specification's list is in order of first appearance. *)
Lemma first_occurrences_from_sorted i seen rows :
  StronglySorted lt (first_occurrences_from i seen rows).
Proof.
  revert i seen. induction rows as [|r rows IH]; intros i seen; simpl.
  - constructor.
  - case_decide; [apply IH|]. constructor; [apply IH|].
    eapply Forall_impl; [apply first_occurrences_from_lt|]. simpl. lia.
Qed.

End Deduplicate.

(** ** C4: which rows [Remove_duplicate] keeps, and in which order *)

#[global] Instance row_le_total rows : Total (row_le rows).
Proof. intros i j. apply lex_le_total. Qed.

#[global] Instance row_le_trans rows : Transitive (row_le rows).
Proof. intros i j k. apply lex_le_trans. Qed.

Definition spec_example : list (list Qc) :=
  [[0%Qc; 0%Qc; 0%Qc];
   [0%Qc; 0%Qc; Q2Qc (1 # 10000)];
   [1%Qc; 1%Qc; 1%Qc]].

Definition descending_example : list (list Qc) :=
  [[1%Qc; 1%Qc; 1%Qc]; [0%Qc; 0%Qc; 0%Qc]].

(** C4 as the specification words it would make the returned indices the
    first occurrences in order of first appearance; on two distinct rows
    given in descending order the code returns them sorted instead. *)
Lemma deduplicate_not_in_input_order :
  (Remove_duplicate descending_example 0).2
  ≠ first_occurrences (quantize descending_example 0).
Proof. by vm_compute. Qed.

(** C4, amended.  [Remove_duplicate] keeps exactly the first occurrence of
    each distinct quantised row, returns the original rows at those
    indices together with the indices, and lists them in ascending
    lexicographic order of the quantised rows; on the specification's
    example with precision 2 the indices are [0, 2]. *)
Theorem deduplicate_spec (data : list (list Qc)) (precision : Z) :
  let q := quantize data precision in
  let '(out, idx) := Remove_duplicate data precision in
  (∀ k, k ∈ idx ↔ is_first_occurrence q k)
  ∧ idx ≡ₚ first_occurrences q
  ∧ StronglySorted (row_le q) idx
  ∧ out = map (row_at data) idx
  ∧ (Remove_duplicate spec_example 2).2 = [0; 2].
Proof.
  simpl. split_and!.
  - intros k. unfold unique_index.
    rewrite merge_sort_Permutation. apply elem_of_first_occurrences.
  - apply merge_sort_Permutation.
  - apply StronglySorted_merge_sort; apply _.
  - done.
  - by vm_compute.
Qed.

(** ** Convert.To_homog and Space_process.Apply_extrinsic *)

(** The constant [L2R] of the source. *)
Definition L2R : list (list Qc) :=
  [[0%Qc; 1%Qc; 0%Qc; 0%Qc];
   [1%Qc; 0%Qc; 0%Qc; 0%Qc];
   [0%Qc; 0%Qc; (- 1)%Qc; 0%Qc];
   [0%Qc; 0%Qc; 0%Qc; 1%Qc]].

(** [np.eye(4)]. *)
Definition eye4 : list (list Qc) :=
  [[1%Qc; 0%Qc; 0%Qc; 0%Qc];
   [0%Qc; 1%Qc; 0%Qc; 0%Qc];
   [0%Qc; 0%Qc; 1%Qc; 0%Qc];
   [0%Qc; 0%Qc; 0%Qc; 1%Qc]].

(** [np.c_[obj, np.ones((n, 1))]]. *)
Definition To_homog (obj : list (list Qc)) : list (list Qc) :=
  map (fun row => row ++ [1%Qc]) obj.

(** [obj.shape[1]] of a list of rows. *)
Definition ncols {A} (rows : list (list A)) : nat := length (hd [] rows).

(** Entry [k] of [sum over j of E[j][k] * p[k]], for every [k]. *)
Definition sum_j (E : list (list Qc)) (p : list Qc) : list Qc :=
  foldr (fun row acc => zip_with Qcplus (zip_with Qcmult row p) acc)
        (replicate (length p) 0%Qc) E.

(** [np.einsum("bjk, nk -> bnk", ex, pts)]: the output keeps [b], [n] and
    [k]; [j], which is absent from it, is summed. *)
Definition einsum_bjk_nk_bnk (ex : list (list (list Qc)))
  (pts : list (list Qc)) : list (list (list Qc)) :=
  map (fun E => map (fun p => sum_j E p) pts) ex.

Section Space.

(** [np.linalg.inv] on one 4x4 matrix; [None] when NumPy raises. *)
Variable linalg_inv : list (list Qc) → option (list (list Qc)).

Fixpoint inv_batch (ex : list (list (list Qc)))
  : result (list (list (list Qc))) :=
  match ex with
  | [] => Ok []
  | E :: ex' =>
      match linalg_inv E with
      | Some E' => ex'' ← inv_batch ex'; Ok (E' :: ex'')
      | None => Raise LibraryError
      end
  end.

(** [Apply_extrinsic(pts, extrinsic, apply_inv)].  [pts] is [(M, 3)] or
    [(M, 4)] and [extrinsic] is [(N, 4, 4)]; columns that do not match make
    [einsum] raise. *)
Definition Apply_extrinsic (pts : list (list Qc))
  (extrinsic : list (list (list Qc))) (apply_inv : bool)
  : result (list (list (list Qc))) :=
  _ex ← (if apply_inv then inv_batch extrinsic else Ok extrinsic);
  let _ex := map (take 3) _ex in
  let _ord := ncols pts in
  let _pts := if decide (_ord = 3) then To_homog pts else pts in
  if bool_decide (Forall (fun p => length p = 4) _pts
                  ∧ Forall (Forall (fun row => length row = 4)) _ex)
  then Ok (einsum_bjk_nk_bnk _ex _pts)
  else Raise ValueError.

(** The argument of [Hand_change]: an array of rank 2 (points, or a single
    4x4 transform) or of rank 3 (a batch of transforms). *)
Inductive hand_obj : Type :=
| Rank2 (rows : list (list Qc))
| Rank3 (mats : list (list (list Qc))).

(** [a @ b] for two matrices. *)
Definition matmul (a b : list (list Qc)) : list (list Qc) :=
  map (fun row =>
         foldr (fun '(x, brow) acc => zip_with Qcplus (map (Qcmult x) brow) acc)
               (replicate (ncols b) 0%Qc) (zip row b)) a.

(** [Hand_change(obj, mode)]. *)
Definition Hand_change (obj : hand_obj) (mode : string) : result hand_obj :=
  if negb (String.eqb mode "L2R") then Raise AssertionError else
  let _tp := if String.eqb mode "L2R" then L2R else eye4 in
  match obj with
  | Rank2 rows =>
      let _ord := ncols rows in
      let _pts := if decide (_ord = 3) then To_homog rows else rows in
      out ← Apply_extrinsic _pts [_tp] false;
      match out with
      | first :: _ => Ok (Rank2 (map (take 3) first))
      | [] => Raise IndexError
      end
  | Rank3 mats => Ok (Rank3 (map (matmul _tp) mats))
  end.

End Space.

(** ** C1: what [Apply_extrinsic] computes *)

(** The rigid transformation [R p + t] of a 3-vector [p] by the 4x4
    transform [E]: rows 0..2 of [E] against the homogeneous [p]. *)
Definition rigid (E : list (list Qc)) (p : list Qc) : list Qc :=
  map (fun row => foldr Qcplus 0%Qc (zip_with Qcmult row (p ++ [1%Qc])))
      (take 3 E).

(** A quarter turn about the z axis followed by the translation (1, 2, 3). *)
Definition quarter_turn : list (list Qc) :=
  [[0%Qc; (- 1)%Qc; 0%Qc; 1%Qc];
   [1%Qc; 0%Qc; 0%Qc; Qc_of_Z 2];
   [0%Qc; 0%Qc; 1%Qc; Qc_of_Z 3];
   [0%Qc; 0%Qc; 0%Qc; 1%Qc]].

Definition no_inverse : list (list Qc) → option (list (list Qc)) :=
  fun _ => None.

(** C1 on the code.  The subscripts of [einsum] keep [k] and sum [j], so
    each coordinate of the point is scaled by a column sum of the transform.
    At the transform [quarter_turn] and the point (1, 0, 0) the rigid
    transformation is (1, 3, 3); [Apply_extrinsic] returns the 4-vector
    (1, 0, 0, 6). *)
Theorem Apply_extrinsic_not_rigid :
  rigid quarter_turn [1%Qc; 0%Qc; 0%Qc] = [1%Qc; Qc_of_Z 3; Qc_of_Z 3]
  ∧ Apply_extrinsic no_inverse [[1%Qc; 0%Qc; 0%Qc]] [quarter_turn] false
    = Ok [[[1%Qc; 0%Qc; 0%Qc; Qc_of_Z 6]]].
Proof. split; by_evaluation. Qed.

(** ** C10: the reverse handedness mode *)

(** C10.  For every input, [Hand_change] called with mode ["R2L"] raises
    [AssertionError]; it returns no result. *)
Theorem Hand_change_R2L_fails linalg_inv (obj : hand_obj) :
  Hand_change linalg_inv obj "R2L" = Raise AssertionError.
Proof. done. Qed.

#[global] Instance hand_obj_eq_dec : EqDecision hand_obj.
Proof. solve_decision. Defined.

(** The supported mode does return. *)
Lemma Hand_change_L2R_example :
  Hand_change no_inverse (Rank2 [[1%Qc; Qc_of_Z 2; Qc_of_Z 3]]) "L2R"
  = Ok (Rank2 [[1%Qc; Qc_of_Z 2; (- Qc_of_Z 3)%Qc]]).
Proof. by_evaluation. Qed.

(** ** Composing and extracting intrinsics and extrinsics *)

(** An argument that is one vector, of shape [(k,)], or a batch of [n]
    vectors, of shape [(n, k)]; likewise one matrix or a batch of them. *)
Inductive vecs (V : Type) : Type :=
| One (v : V)
| Many (vs : list V).
Arguments One {V} v.
Arguments Many {V} vs.

(** [x.ndim] for vectors of [k] components. *)
Definition ndim {V} (x : vecs V) : nat :=
  match x with One _ => 1 | Many _ => 2 end.

(** [x.shape[0]] for vectors of [k] components. *)
Definition shape0 {V} (k : nat) (x : vecs V) : nat :=
  match x with One _ => k | Many vs => length vs end.

(** The batch size of an argument: a single vector has none. *)
Definition batch_size {V} (x : vecs V) : option nat :=
  match x with One _ => None | Many vs => Some (length vs) end.

Section Compose.
Context {A : Type} (zero one : A).

Definition mat3 : Type := (A * A * A) * (A * A * A) * (A * A * A).
Definition mat4 : Type :=
  (A * A * A * A) * (A * A * A * A) * (A * A * A * A) * (A * A * A * A).

(** [np.eye(3)] with the entries (0,0), (1,1), (0,2), (1,2) overwritten. *)
Definition fill_intrinsic (c : A * A * A * A) : mat3 :=
  let '(fx, fy, px, py) := c in
  ((fx, zero, px), (zero, fy, py), (zero, zero, one)).

(** [Compose_intrinsic(f_length, pp)]. *)
Definition Compose_intrinsic (f_length pp : vecs (A * A))
  : result (vecs mat3) :=
  if bool_decide (ndim f_length ≠ ndim pp
                  ∨ shape0 2 f_length ≠ shape0 2 pp)
  then Raise ValueError else
  match f_length, pp with
  | Many fs, Many pps =>
      let _concat := zip_with (fun f p => (f.1, f.2, p.1, p.2)) fs pps in
      Ok (Many (map fill_intrinsic _concat))
  | One f, One p => Ok (One (fill_intrinsic (f.1, f.2, p.1, p.2)))
  | _, _ => Raise ValueError
  end.

(** [Extract_intrinsic(intrinsic)]. *)
Definition Extract_intrinsic (intrinsic : vecs mat3)
  : vecs (A * A) * vecs (A * A) :=
  let _param (m : mat3) : (A * A) * (A * A) :=
    let '((m00, _, m02), (_, m11, m12), _) := m in ((m00, m11), (m02, m12)) in
  match intrinsic with
  | Many ms => (Many (map (fun m => (_param m).1) ms),
                Many (map (fun m => (_param m).2) ms))
  | One m => (One (_param m).1, One (_param m).2)
  end.

(** scipy's quaternion-to-matrix conversion; [None] when it raises (a
    quaternion of zero norm). *)
Variable Q_to_M : A * A * A * A → option mat3.

(** [np.eye(4)] with the rotation block and the translation column set. *)
Definition fill_extrinsic (m : mat3) (t : A * A * A) : mat4 :=
  let '((r00, r01, r02), (r10, r11, r12), (r20, r21, r22)) := m in
  let '(tx, ty, tz) := t in
  ((r00, r01, r02, tx), (r10, r11, r12, ty), (r20, r21, r22, tz),
   (zero, zero, zero, one)).

(** [Compose_extrinsic(q, tf)]. *)
Definition Compose_extrinsic (q : vecs (A * A * A * A)) (tf : vecs (A * A * A))
  : result (vecs mat4) :=
  if bool_decide (ndim q ≠ ndim tf
                  ∨ (2 ≤ ndim q ∧ shape0 4 q ≠ shape0 3 tf))
  then Raise ValueError else
  match q, tf with
  | Many qs, Many tfs =>
      match mapM Q_to_M qs with
      | Some _m => Ok (Many (zip_with fill_extrinsic _m tfs))
      | None => Raise LibraryError
      end
  | One q1, One t1 =>
      match Q_to_M q1 with
      | Some _m => Ok (One (fill_extrinsic _m t1))
      | None => Raise LibraryError
      end
  | _, _ => Raise ValueError
  end.

(** C9.  [Compose_intrinsic] and [Compose_extrinsic] raise the shape error
    exactly when the ranks or the batch sizes of their two arguments
    differ; with equal ranks and batch sizes neither raises it. *)
Theorem compose_shape_guard :
  (∀ f_length pp : vecs (A * A),
     Compose_intrinsic f_length pp = Raise ValueError
     ↔ ndim f_length ≠ ndim pp ∨ batch_size f_length ≠ batch_size pp)
  ∧ (∀ (q : vecs (A * A * A * A)) (tf : vecs (A * A * A)),
       Compose_extrinsic q tf = Raise ValueError
       ↔ ndim q ≠ ndim tf ∨ batch_size q ≠ batch_size tf).
Proof.
  split.
  - intros f_length pp. unfold Compose_intrinsic.
    destruct (bool_decide _) eqn:Hg.
    + apply bool_decide_eq_true in Hg. split; [intros _|done].
      destruct f_length, pp; simpl in *; try (left; lia).
      right. destruct Hg as [?|?]; [lia|congruence].
    + apply bool_decide_eq_false in Hg.
      destruct f_length, pp; simpl in *;
        try (exfalso; apply Hg; left; lia).
      * split; [done|]. intros [?|?]; done.
      * split; [done|]. intros [?|Hne]; [done|].
        exfalso. apply Hg. right. congruence.
  - intros q tf. unfold Compose_extrinsic.
    destruct (bool_decide _) eqn:Hg.
    + apply bool_decide_eq_true in Hg. split; [intros _|done].
      destruct q, tf; simpl in *; try (left; lia).
      right. destruct Hg as [?|[_ ?]]; [lia|congruence].
    + apply bool_decide_eq_false in Hg.
      destruct q as [q1|qs], tf as [t1|tfs]; simpl in *;
        try (exfalso; apply Hg; left; lia).
      * split; [by destruct (Q_to_M q1)|]. intros [?|?]; done.
      * split; [by destruct (mapM Q_to_M qs)|]. intros [?|Hne]; [done|].
        exfalso. apply Hg. right. split; [lia|congruence].
Qed.

End Compose.

(** ** Camera_Process: focal length, field of view, size *)

Section Intrinsic.
Local Open Scope R_scope.

(** [np.arctan2(y, x)]. *)
Definition arctan2 (y x : R) : R :=
  if Rlt_dec 0 x then atan (y / x)
  else if Rlt_dec x 0 then
    if Rle_dec 0 y then atan (y / x) + PI else atan (y / x) - PI
  else if Rlt_dec 0 y then PI / 2
  else if Rlt_dec y 0 then - (PI / 2)
  else 0.

(** [np.round] on a real: the nearest integer, ties to the even one. *)
Definition np_round_real (x : R) : Z :=
  let n := Int_part x in
  let r := x - IZR n in
  if Rlt_dec r (1 / 2) then n
  else if Rlt_dec (1 / 2) r then (n + 1)%Z
  else if Z.even n then n else (n + 1)%Z.

(** An operation applied to both axes. *)
Definition both {X Y W} (op : X → Y → W) (a : X * X) (b : Y * Y) : W * W :=
  (op a.1 b.1, op a.2 b.2).

(** [Get_focal_length_from(fov, size)]. *)
Definition Get_focal_length_from (fov : R * R) (size : Z * Z) : R * R :=
  both (fun fov size => IZR size / (2 * tan (fov / 2))) fov size.

(** [Get_size_from(fov, f_length)] on one axis: the rounding is cast to
    [int64], then doubled in [int64]. *)
Definition size_axis (fov f_length : R) : Z :=
  astype_int64 (2 * astype_int64 (np_round_real (tan (fov / 2) * f_length))).

(** [Get_size_from(fov, f_length)]. *)
Definition Get_size_from (fov f_length : R * R) : Z * Z :=
  both size_axis fov f_length.

(** [Get_fov_from(size, f_length)]. *)
Definition Get_fov_from (size : Z * Z) (f_length : R * R) : R * R :=
  both (fun size f_length => 2 * arctan2 (IZR size / 2) f_length)
       size f_length.

(** [Get_pp_from(rate, size)]. *)
Definition Get_pp_from (rate : R * R) (size : Z * Z) : R * R :=
  both (fun rate size => IZR size * rate) rate size.

(** [Get_pp_rate_from(pp, size)]. *)
Definition Get_pp_rate_from (pp : R * R) (size : Z * Z) : R * R :=
  both (fun pp size => pp / IZR size) pp size.

(** A function applied to the one vector or to every vector of a batch;
    the size pair, of shape [(2,)], is broadcast over the batch. *)
Definition vecs_map {V W} (f : V → W) (x : vecs V) : vecs W :=
  match x with One v => One (f v) | Many vs => Many (map f vs) end.

(** [Adjust_intrinsic(intrinsic, size, new_size)]. *)
Definition Adjust_intrinsic (intrinsic : vecs (@mat3 R)) (size new_size : Z * Z)
  : result (vecs (@mat3 R)) :=
  let '(_ff, _pp) := Extract_intrinsic intrinsic in
  let _fov := vecs_map (Get_fov_from size) _ff in
  let _pp_rate := vecs_map (fun pp => Get_pp_rate_from pp size) _pp in
  Compose_intrinsic 0 1
    (vecs_map (fun fov => Get_focal_length_from fov new_size) _fov)
    (vecs_map (fun rate => Get_pp_from rate new_size) _pp_rate).

(** The focal lengths of an intrinsic matrix. *)
Definition focal (m : @mat3 R) : R * R := (m.1.1.1.1, m.1.2.1.2).

Lemma tan_half_fov s f :
  0 < f → tan (2 * arctan2 s f / 2) = s / f.
Proof.
  intros Hf. unfold arctan2. destruct (Rlt_dec 0 f) as [_|?]; [|done].
  replace (2 * atan (s / f) / 2) with (atan (s / f)) by lra.
  apply tan_atan.
Qed.

(** The principal point of an intrinsic matrix. *)
Definition principal (m : @mat3 R) : R * R := (m.1.1.2, m.1.2.2).

(** The pinhole matrix with focal lengths and principal point scaled by
    [new_size / size]. *)
Definition rescale (m : @mat3 R) (size new_size : Z * Z) : @mat3 R :=
  ((IZR new_size.1 * (focal m).1 / IZR size.1, 0,
    IZR new_size.1 * (principal m).1 / IZR size.1),
   (0, IZR new_size.2 * (focal m).2 / IZR size.2,
    IZR new_size.2 * (principal m).2 / IZR size.2),
   (0, 0, 1)).

(** What [Adjust_intrinsic] returns for one matrix. *)
Lemma Adjust_intrinsic_One (m : @mat3 R) (size new_size : Z * Z) :
  0 < (focal m).1 → 0 < (focal m).2 →
  (0 < size.1)%Z → (0 < size.2)%Z →
  Adjust_intrinsic (One m) size new_size
  = Ok (One (rescale m size new_size)).
Proof.
  destruct m as [[[[fx m01] px] [[m10 fy] py]] [[m20 m21] m22]].
  destruct size as [w h], new_size as [w' h'].
  unfold rescale, focal, principal. cbn [fst snd].
  intros Hfx Hfy Hw Hh.
  apply IZR_lt in Hw, Hh.
  unfold Adjust_intrinsic, Extract_intrinsic, Compose_intrinsic, vecs_map.
  cbn [fst snd ndim shape0].
  rewrite bool_decide_eq_false_2 by (intros [?|?]; congruence).
  unfold fill_intrinsic, Get_focal_length_from, Get_fov_from, Get_pp_from,
    Get_pp_rate_from, both.
  cbn [fst snd].
  rewrite !tan_half_fov by assumption.
  replace (IZR w' / (2 * (IZR w / 2 / fx))) with (IZR w' * fx / IZR w)
    by (field; lra).
  replace (IZR h' / (2 * (IZR h / 2 / fy))) with (IZR h' * fy / IZR h)
    by (field; lra).
  replace (IZR w' * (px / IZR w)) with (IZR w' * px / IZR w) by (field; lra).
  replace (IZR h' * (py / IZR h)) with (IZR h' * py / IZR h) by (field; lra).
  reflexivity.
Qed.

Lemma scaled_positive (s s' : Z) (f : R) :
  (0 < s)%Z → (0 < s')%Z → 0 < f → 0 < IZR s' * f / IZR s.
Proof.
  intros Hs Hs' Hf. apply IZR_lt in Hs, Hs'.
  apply Rdiv_lt_0_compat; [|assumption].
  apply Rmult_lt_0_compat; assumption.
Qed.

(** C5.  For every intrinsic matrix with positive focal lengths and all
    sizes with positive components, adjusting from [S1] to [S2] and then
    from [S2] to [S3] returns the same matrix as adjusting from [S1] to
    [S3]; the first step leaves the field of view and the principal-point
    rate unchanged. *)
Theorem adjust_transitive (m : @mat3 R) (S1 S2 S3 : Z * Z) :
  0 < (focal m).1 → 0 < (focal m).2 →
  (0 < S1.1)%Z → (0 < S1.2)%Z → (0 < S2.1)%Z → (0 < S2.2)%Z →
  ∃ m2, Adjust_intrinsic (One m) S1 S2 = Ok (One m2)
    ∧ Adjust_intrinsic (One m2) S2 S3 = Adjust_intrinsic (One m) S1 S3
    ∧ Get_fov_from S2 (focal m2) = Get_fov_from S1 (focal m)
    ∧ Get_pp_rate_from (principal m2) S2 = Get_pp_rate_from (principal m) S1.
Proof.
  intros Hfx Hfy Hw1 Hh1 Hw2 Hh2.
  exists (rescale m S1 S2).
  assert (0 < (focal (rescale m S1 S2)).1) as Hfx2
    by (apply scaled_positive; assumption).
  assert (0 < (focal (rescale m S1 S2)).2) as Hfy2
    by (apply scaled_positive; assumption).
  rewrite !Adjust_intrinsic_One by assumption.
  destruct m as [[[[fx m01] px] [[m10 fy] py]] [[m20 m21] m22]].
  destruct S1 as [w1 h1], S2 as [w2 h2], S3 as [w3 h3].
  unfold rescale, focal, principal, Get_fov_from, Get_pp_rate_from, both,
    arctan2 in *.
  cbn [fst snd] in *.
  apply IZR_lt in Hw1, Hh1, Hw2, Hh2.
  destruct (Rlt_dec 0 fx) as [_|?]; [|contradiction].
  destruct (Rlt_dec 0 fy) as [_|?]; [|contradiction].
  destruct (Rlt_dec 0 (IZR w2 * fx / IZR w1)) as [_|?]; [|contradiction].
  destruct (Rlt_dec 0 (IZR h2 * fy / IZR h1)) as [_|?]; [|contradiction].
  split; [reflexivity|]. split; [|split].
  - replace (IZR w3 * (IZR w2 * fx / IZR w1) / IZR w2)
      with (IZR w3 * fx / IZR w1) by (field; lra).
    replace (IZR h3 * (IZR h2 * fy / IZR h1) / IZR h2)
      with (IZR h3 * fy / IZR h1) by (field; lra).
    replace (IZR w3 * (IZR w2 * px / IZR w1) / IZR w2)
      with (IZR w3 * px / IZR w1) by (field; lra).
    replace (IZR h3 * (IZR h2 * py / IZR h1) / IZR h2)
      with (IZR h3 * py / IZR h1) by (field; lra).
    reflexivity.
  - replace (IZR w2 / 2 / (IZR w2 * fx / IZR w1)) with (IZR w1 / 2 / fx)
      by (field; lra).
    replace (IZR h2 / 2 / (IZR h2 * fy / IZR h1)) with (IZR h1 / 2 / fy)
      by (field; lra).
    reflexivity.
  - replace (IZR w2 * px / IZR w1 / IZR w2) with (px / IZR w1)
      by (field; lra).
    replace (IZR h2 * py / IZR h1 / IZR h2) with (py / IZR h1)
      by (field; lra).
    reflexivity.
Qed.


(** ** C7: the size computed from a field of view *)

Lemma Rabs_le_bounds a b : Rabs a <= b → - b <= a <= b.
Proof. unfold Rabs. destruct (Rcase_abs a); lra. Qed.

Lemma np_round_real_near x : Rabs (IZR (np_round_real x) - x) <= 1 / 2.
Proof.
  unfold np_round_real.
  destruct (base_Int_part x) as [Hlo Hhi].
  set (n := Int_part x) in *.
  destruct (Rlt_dec (x - IZR n) (1 / 2)) as [Hlt|Hge].
  - apply Rabs_le. lra.
  - assert (Rabs (IZR (n + 1) - x) <= 1 / 2) as Hup
      by (rewrite plus_IZR; apply Rabs_le; lra).
    destruct (Rlt_dec (1 / 2) (x - IZR n)) as [Hgt|Hle]; [exact Hup|].
    destruct (Z.even n); [|exact Hup].
    apply Rabs_le. lra.
Qed.

Lemma np_round_real_unique x n :
  IZR n - 1 / 2 < x < IZR n + 1 / 2 → np_round_real x = n.
Proof.
  intros Hx. pose proof (np_round_real_near x) as Hnear.
  apply Rabs_le_bounds in Hnear.
  set (k := np_round_real x) in *.
  assert (IZR (k - n) < 1) as Hlt by (rewrite minus_IZR; lra).
  assert (-1 < IZR (k - n)) as Hgt by (rewrite minus_IZR; lra).
  apply lt_IZR in Hlt. apply (lt_IZR (-1)) in Hgt. lia.
Qed.

Lemma astype_int64_small z :
  (- 2 ^ 63 ≤ z < 2 ^ 63)%Z → astype_int64 z = z.
Proof. intros Hz. unfold astype_int64. rewrite Z.mod_small; lia. Qed.

(** The field of view whose half-angle has tangent 7/10. *)
Definition fov_7_10 : R := 2 * atan (7 / 10).

Lemma tan_fov_7_10 : tan (fov_7_10 / 2) = 7 / 10.
Proof.
  unfold fov_7_10.
  replace (2 * atan (7 / 10) / 2) with (atan (7 / 10)) by lra.
  apply tan_atan.
Qed.

(** C7 as the specification words it would make the size the nearest
    integer to [2 * tan(fov/2) * f]; for [tan(fov/2) * f = 0.7] that is 1,
    and the code returns 2. *)
Lemma size_from_not_nearest :
  (Get_size_from (fov_7_10, fov_7_10) (1, 1)).1
  ≠ np_round_real (2 * tan (fov_7_10 / 2) * 1).
Proof.
  unfold Get_size_from, both, size_axis. cbn [fst snd].
  rewrite tan_fov_7_10.
  rewrite (np_round_real_unique (7 / 10 * 1) 1) by lra.
  rewrite (np_round_real_unique (2 * (7 / 10) * 1) 1) by lra.
  rewrite (astype_int64_small 1) by lia.
  rewrite (astype_int64_small (2 * 1)) by lia.
  lia.
Qed.

Lemma size_axis_spec (fov f_length : R) :
  Rabs (tan (fov / 2) * f_length) <= IZR (2 ^ 61) →
  size_axis fov f_length = (2 * np_round_real (tan (fov / 2) * f_length))%Z
  ∧ Rabs (IZR (size_axis fov f_length) - 2 * (tan (fov / 2) * f_length)) <= 1.
Proof.
  intros Hx. set (x := tan (fov / 2) * f_length) in *.
  pose proof (np_round_real_near x) as Hnear.
  assert (- 2 ^ 61 - 1 < np_round_real x < 2 ^ 61 + 1)%Z as Hn.
  { apply Rabs_le_bounds in Hnear, Hx. split; apply lt_IZR.
    - rewrite minus_IZR, opp_IZR. lra.
    - rewrite plus_IZR. lra. }
  assert (size_axis fov f_length = (2 * np_round_real x)%Z) as Hs.
  { unfold size_axis. fold x.
    rewrite (astype_int64_small (np_round_real x)) by lia.
    apply astype_int64_small. lia. }
  rewrite Hs. split; [reflexivity|].
  rewrite mult_IZR. apply Rabs_le_bounds in Hnear. apply Rabs_le. lra.
Qed.

(** C7, amended.  On each axis [Get_size_from] returns twice the nearest
    integer to [tan(fov/2) * f] (ties to even): an even count within 1 of
    [2 * tan(fov/2) * f], for values inside the [int64] range. *)
Theorem size_from_spec (fov f_length : R * R) :
  Rabs (tan (fov.1 / 2) * f_length.1) <= IZR (2 ^ 61) →
  Rabs (tan (fov.2 / 2) * f_length.2) <= IZR (2 ^ 61) →
  let size := Get_size_from fov f_length in
  size = ((2 * np_round_real (tan (fov.1 / 2) * f_length.1))%Z,
          (2 * np_round_real (tan (fov.2 / 2) * f_length.2))%Z)
  ∧ Rabs (IZR size.1 - 2 * (tan (fov.1 / 2) * f_length.1)) <= 1
  ∧ Rabs (IZR size.2 - 2 * (tan (fov.2 / 2) * f_length.2)) <= 1.
Proof.
  intros H1 H2.
  destruct (size_axis_spec _ _ H1) as [Hs1 Hn1].
  destruct (size_axis_spec _ _ H2) as [Hs2 Hn2].
  unfold Get_size_from, both. cbn [fst snd].
  split; [|split; assumption].
  rewrite Hs1, Hs2. reflexivity.
Qed.

Lemma size_from_spec_witness :
  (Rabs (tan (fov_7_10 / 2) * 1) <= IZR (2 ^ 61))
  ∧ Get_size_from (fov_7_10, fov_7_10) (1, 1)
    = ((2 * np_round_real (tan (fov_7_10 / 2) * 1))%Z,
       (2 * np_round_real (tan (fov_7_10 / 2) * 1))%Z).
Proof.
  assert (Rabs (tan (fov_7_10 / 2) * 1) <= IZR (2 ^ 61)) as Hb.
  { rewrite tan_fov_7_10. apply Rabs_le. lra. }
  split; [exact Hb|].
  exact (proj1 (size_from_spec (fov_7_10, fov_7_10) (1, 1) Hb Hb)).
Defined.

(** The unit pinhole matrix with principal point (1, 1). *)
Definition unit_intrinsic : @mat3 R := ((1, 0, 1), (0, 1, 1), (0, 0, 1)).

Lemma adjust_transitive_witness :
  (0 < (focal unit_intrinsic).1 ∧ 0 < (focal unit_intrinsic).2)
  ∧ ∃ m2, Adjust_intrinsic (One unit_intrinsic) (2, 2)%Z (4, 4)%Z = Ok (One m2)
      ∧ Adjust_intrinsic (One m2) (4, 4)%Z (8, 8)%Z
        = Adjust_intrinsic (One unit_intrinsic) (2, 2)%Z (8, 8)%Z.
Proof.
  assert (0 < (focal unit_intrinsic).1) as H1 by (cbn; lra).
  assert (0 < (focal unit_intrinsic).2) as H2 by (cbn; lra).
  split; [split; assumption|].
  destruct (adjust_transitive unit_intrinsic (2, 2)%Z (4, 4)%Z (8, 8)%Z
              H1 H2 eq_refl eq_refl eq_refl eq_refl)
    as (m2 & Hm2 & Htrans & _).
  exists m2. split; assumption.
Defined.

End Intrinsic.

(** ** More on the intrinsic parameters *)

Section IntrinsicRoundTrips.
Local Open Scope R_scope.

Lemma focal_axis_positive (a : R) (s : Z) :
  0 < a < PI → (0 < s)%Z → 0 < tan (a / 2) ∧ 0 < IZR s / (2 * tan (a / 2)).
Proof.
  intros Ha Hs. apply IZR_lt in Hs.
  assert (0 < tan (a / 2)) as Ht by (apply tan_gt_0; lra).
  split; [exact Ht|]. apply Rdiv_lt_0_compat; lra.
Qed.

Lemma fov_axis_round_trip (a : R) (s : Z) :
  0 < a < PI → (0 < s)%Z →
  2 * arctan2 (IZR s / 2) (IZR s / (2 * tan (a / 2))) = a.
Proof.
  intros Ha Hs. destruct (focal_axis_positive a s Ha Hs) as [Ht Hf].
  apply IZR_lt in Hs. unfold arctan2.
  destruct (Rlt_dec 0 (IZR s / (2 * tan (a / 2)))) as [_|?]; [|contradiction].
  replace (IZR s / 2 / (IZR s / (2 * tan (a / 2)))) with (tan (a / 2))
    by (field; lra).
  rewrite atan_tan by lra. lra.
Qed.

(** X1.  The field of view is recovered from the focal length it gave: for a
    field of view strictly between 0 and pi on each axis and a positive
    size, [Get_fov_from(size, Get_focal_length_from(fov, size))] is [fov]. *)
Theorem fov_round_trip (fov : R * R) (size : Z * Z) :
  0 < fov.1 < PI → 0 < fov.2 < PI → (0 < size.1)%Z → (0 < size.2)%Z →
  Get_fov_from size (Get_focal_length_from fov size) = fov.
Proof.
  destruct fov as [a b], size as [w h]. cbn [fst snd].
  intros Ha Hb Hw Hh.
  unfold Get_fov_from, Get_focal_length_from, both. cbn [fst snd].
  rewrite (fov_axis_round_trip a w Ha Hw), (fov_axis_round_trip b h Hb Hh).
  reflexivity.
Qed.

Lemma fov_round_trip_witness :
  (0 < PI / 2 < PI ∧ (0 < 2)%Z)
  ∧ Get_fov_from (2, 2)%Z (Get_focal_length_from (PI / 2, PI / 2) (2, 2)%Z)
    = (PI / 2, PI / 2).
Proof.
  assert (0 < PI / 2 < PI) as Hpi by (pose proof PI_RGT_0; lra).
  split; [split; [exact Hpi|reflexivity]|].
  exact (fov_round_trip (PI / 2, PI / 2) (2, 2)%Z Hpi Hpi eq_refl eq_refl).
Defined.


(** A matrix with the fixed entries of a pinhole intrinsic. *)
Definition is_pinhole (m : @mat3 R) : Prop :=
  m = fill_intrinsic 0 1 ((focal m).1, (focal m).2,
                          (principal m).1, (principal m).2).

(** X2.  [Adjust_intrinsic] scales per axis: for positive focal lengths and a
    positive old size it returns the pinhole matrix whose focal length and
    principal point are those of the input multiplied by
    [new_size / size]. *)
Theorem adjust_scales (m : @mat3 R) (size new_size : Z * Z) :
  0 < (focal m).1 → 0 < (focal m).2 →
  (0 < size.1)%Z → (0 < size.2)%Z →
  ∃ m', Adjust_intrinsic (One m) size new_size = Ok (One m')
    ∧ is_pinhole m'
    ∧ focal m' = (IZR new_size.1 * (focal m).1 / IZR size.1,
                  IZR new_size.2 * (focal m).2 / IZR size.2)
    ∧ principal m' = (IZR new_size.1 * (principal m).1 / IZR size.1,
                      IZR new_size.2 * (principal m).2 / IZR size.2).
Proof.
  intros Hfx Hfy Hw Hh. exists (rescale m size new_size).
  split; [by apply Adjust_intrinsic_One|].
  split; [|split]; reflexivity.
Qed.

Lemma adjust_scales_witness :
  (0 < (focal unit_intrinsic).1 ∧ 0 < (focal unit_intrinsic).2)
  ∧ ∃ m', Adjust_intrinsic (One unit_intrinsic) (2, 2)%Z (4, 6)%Z = Ok (One m')
      ∧ focal m' = (IZR 4 * (focal unit_intrinsic).1 / IZR 2,
                    IZR 6 * (focal unit_intrinsic).2 / IZR 2).
Proof.
  assert (0 < (focal unit_intrinsic).1) as H1 by (cbn; lra).
  assert (0 < (focal unit_intrinsic).2) as H2 by (cbn; lra).
  split; [split; assumption|].
  destruct (adjust_scales unit_intrinsic (2, 2)%Z (4, 6)%Z
              H1 H2 eq_refl eq_refl) as (m' & Hm' & _ & Hf & _).
  exists m'. split; assumption.
Defined.

(** X3.  Adjusting a pinhole matrix to another size and back returns it. *)
Theorem adjust_there_and_back (m : @mat3 R) (S1 S2 : Z * Z) :
  is_pinhole m →
  0 < (focal m).1 → 0 < (focal m).2 →
  (0 < S1.1)%Z → (0 < S1.2)%Z → (0 < S2.1)%Z → (0 < S2.2)%Z →
  ∃ m2, Adjust_intrinsic (One m) S1 S2 = Ok (One m2)
    ∧ Adjust_intrinsic (One m2) S2 S1 = Ok (One m).
Proof.
  intros Hpin Hfx Hfy Hw1 Hh1 Hw2 Hh2.
  exists (rescale m S1 S2).
  assert (0 < (focal (rescale m S1 S2)).1) as Hfx2
    by (apply scaled_positive; assumption).
  assert (0 < (focal (rescale m S1 S2)).2) as Hfy2
    by (apply scaled_positive; assumption).
  rewrite !Adjust_intrinsic_One by assumption.
  split; [reflexivity|]. do 2 f_equal.
  destruct m as [[[[fx m01] px] [[m10 fy] py]] [[m20 m21] m22]].
  destruct S1 as [w1 h1], S2 as [w2 h2].
  unfold is_pinhole, rescale, focal, principal, fill_intrinsic in *.
  cbn [fst snd] in *.
  injection Hpin as -> -> -> -> ->.
  apply IZR_lt in Hw1, Hh1, Hw2, Hh2.
  replace (IZR w1 * (IZR w2 * fx / IZR w1) / IZR w2) with fx by (field; lra).
  replace (IZR h1 * (IZR h2 * fy / IZR h1) / IZR h2) with fy by (field; lra).
  replace (IZR w1 * (IZR w2 * px / IZR w1) / IZR w2) with px by (field; lra).
  replace (IZR h1 * (IZR h2 * py / IZR h1) / IZR h2) with py by (field; lra).
  reflexivity.
Qed.

Lemma unit_intrinsic_pinhole : is_pinhole unit_intrinsic.
Proof. reflexivity. Defined.

Lemma adjust_there_and_back_witness :
  (is_pinhole unit_intrinsic
   ∧ 0 < (focal unit_intrinsic).1 ∧ 0 < (focal unit_intrinsic).2)
  ∧ ∃ m2, Adjust_intrinsic (One unit_intrinsic) (2, 2)%Z (4, 6)%Z = Ok (One m2)
      ∧ Adjust_intrinsic (One m2) (4, 6)%Z (2, 2)%Z = Ok (One unit_intrinsic).
Proof.
  assert (0 < (focal unit_intrinsic).1) as H1 by (cbn; lra).
  assert (0 < (focal unit_intrinsic).2) as H2 by (cbn; lra).
  split; [split_and!; [apply unit_intrinsic_pinhole|assumption..]|].
  exact (adjust_there_and_back unit_intrinsic (2, 2)%Z (4, 6)%Z
           unit_intrinsic_pinhole H1 H2 eq_refl eq_refl eq_refl eq_refl).
Defined.

(** *** Sizes *)

Lemma astype_int64_double_even z : Z.even (astype_int64 (2 * z)) = true.
Proof.
  unfold astype_int64.
  rewrite (Z.mod_eq (2 * z + 2 ^ 63) (2 ^ 64)) by lia.
  replace (2 * z + 2 ^ 63 - 2 ^ 64 * ((2 * z + 2 ^ 63) / 2 ^ 64) - 2 ^ 63)%Z
    with (2 * (z - 2 ^ 63 * ((2 * z + 2 ^ 63) / 2 ^ 64)))%Z by lia.
  by rewrite Z.even_mul.
Qed.

(** X4.  [Get_size_from] returns an even number of pixels on each axis, for
    every field of view and focal length. *)
Theorem size_from_even (fov f_length : R * R) :
  Z.even (Get_size_from fov f_length).1 = true
  ∧ Z.even (Get_size_from fov f_length).2 = true.
Proof.
  unfold Get_size_from, both, size_axis. cbn [fst snd].
  split; apply astype_int64_double_even.
Qed.

Lemma np_round_real_IZR k : np_round_real (IZR k) = k.
Proof. apply np_round_real_unique. lra. Qed.

Lemma size_axis_of_focal (a : R) (s : Z) :
  tan (a / 2) ≠ 0 → (- 2 ^ 61 ≤ s ≤ 2 ^ 61)%Z →
  size_axis a (IZR s / (2 * tan (a / 2))) = (2 * np_round_real (IZR s / 2))%Z.
Proof.
  intros Ht Hs.
  assert (tan (a / 2) * (IZR s / (2 * tan (a / 2))) = IZR s / 2) as Hx
    by (field; assumption).
  destruct (size_axis_spec a (IZR s / (2 * tan (a / 2)))) as [Heq _].
  - rewrite Hx. destruct Hs as [Hlo Hhi].
    apply IZR_le in Hlo, Hhi. rewrite opp_IZR in Hlo.
    apply Rabs_le. lra.
  - rewrite Heq, Hx. reflexivity.
Qed.

(** X5.  An even size is recovered from the focal length it gave:
    [Get_size_from(fov, Get_focal_length_from(fov, size))] is [size] when
    both components of [size] are even (and [tan(fov/2)] is not zero). *)
Theorem size_round_trip_even (fov : R * R) (size : Z * Z) :
  tan (fov.1 / 2) ≠ 0 → tan (fov.2 / 2) ≠ 0 →
  (- 2 ^ 61 ≤ size.1 ≤ 2 ^ 61)%Z → (- 2 ^ 61 ≤ size.2 ≤ 2 ^ 61)%Z →
  Z.even size.1 = true → Z.even size.2 = true →
  Get_size_from fov (Get_focal_length_from fov size) = size.
Proof.
  destruct fov as [a b], size as [w h]. cbn [fst snd].
  intros Ha Hb Hw Hh Hwe Hhe.
  unfold Get_size_from, Get_focal_length_from, both. cbn [fst snd].
  rewrite !size_axis_of_focal by assumption.
  apply Z.even_spec in Hwe as [kw ->]. apply Z.even_spec in Hhe as [kh ->].
  replace (IZR (2 * kw) / 2) with (IZR kw) by (rewrite mult_IZR; lra).
  replace (IZR (2 * kh) / 2) with (IZR kh) by (rewrite mult_IZR; lra).
  rewrite !np_round_real_IZR. reflexivity.
Qed.

Lemma size_round_trip_even_witness :
  (tan (fov_7_10 / 2) ≠ 0 ∧ (- 2 ^ 61 ≤ 640 ≤ 2 ^ 61)%Z
   ∧ Z.even 640 = true)
  ∧ Get_size_from (fov_7_10, fov_7_10)
      (Get_focal_length_from (fov_7_10, fov_7_10) (640, 480)%Z)
    = (640, 480)%Z.
Proof.
  assert (tan (fov_7_10 / 2) ≠ 0) as Ht by (rewrite tan_fov_7_10; lra).
  split; [split; [exact Ht|split; [lia|reflexivity]]|].
  apply (size_round_trip_even (fov_7_10, fov_7_10) (640, 480)%Z);
    cbn [fst snd]; try assumption; try lia; reflexivity.
Defined.

(** X6.  An odd size is not recovered: the round trip returns one of its two
    even neighbours. *)
Theorem size_round_trip_odd (fov : R * R) (size : Z * Z) :
  tan (fov.1 / 2) ≠ 0 →
  (- 2 ^ 61 ≤ size.1 ≤ 2 ^ 61)%Z →
  Z.odd size.1 = true →
  let back := (Get_size_from fov (Get_focal_length_from fov size)).1 in
  back = (size.1 - 1)%Z ∨ back = (size.1 + 1)%Z.
Proof.
  destruct fov as [a b], size as [w h]. cbn [fst snd].
  intros Ha Hw Hodd.
  unfold Get_size_from, Get_focal_length_from, both. cbn [fst snd].
  rewrite size_axis_of_focal by assumption.
  apply Z.odd_spec in Hodd as [k ->].
  pose proof (np_round_real_near (IZR (2 * k + 1) / 2)) as Hnear.
  apply Rabs_le_bounds in Hnear.
  set (n := np_round_real (IZR (2 * k + 1) / 2)) in *.
  rewrite plus_IZR, mult_IZR in Hnear.
  assert (k - 1 < n < k + 2)%Z as Hn.
  { split; apply lt_IZR.
    - rewrite minus_IZR. lra.
    - rewrite plus_IZR. lra. }
  lia.
Qed.

Lemma size_round_trip_odd_witness :
  (tan (fov_7_10 / 2) ≠ 0 ∧ Z.odd 641 = true)
  ∧ ((Get_size_from (fov_7_10, fov_7_10)
        (Get_focal_length_from (fov_7_10, fov_7_10) (641, 480)%Z)).1
     = (641 - 1)%Z
     ∨ (Get_size_from (fov_7_10, fov_7_10)
          (Get_focal_length_from (fov_7_10, fov_7_10) (641, 480)%Z)).1
       = (641 + 1)%Z).
Proof.
  assert (tan (fov_7_10 / 2) ≠ 0) as Ht by (rewrite tan_fov_7_10; lra).
  split; [split; [exact Ht|reflexivity]|].
  apply (size_round_trip_odd (fov_7_10, fov_7_10) (641, 480)%Z);
    cbn [fst snd]; try assumption; try lia; reflexivity.
Defined.

End IntrinsicRoundTrips.

(** ** Extracting what was composed *)

Section ExtractCompose.
Context {A : Type} (zero one : A).

(** scipy's matrix-to-quaternion conversion. *)
Variable M_to_Q : @mat3 A → A * A * A * A.

(** [extrinsic[:3, :3]] and [extrinsic[:3, 3]] of one transform. *)
Definition rotation_block (e : @mat4 A) : @mat3 A :=
  let '((r00, r01, r02, _), (r10, r11, r12, _), (r20, r21, r22, _), _) := e in
  ((r00, r01, r02), (r10, r11, r12), (r20, r21, r22)).

Definition translation_column (e : @mat4 A) : A * A * A :=
  let '((_, _, _, tx), (_, _, _, ty), (_, _, _, tz), _) := e in (tx, ty, tz).

(** [Extract_extrinsic(extrinsic)]. *)
Definition Extract_extrinsic (extrinsic : vecs (@mat4 A))
  : vecs (A * A * A * A) * vecs (A * A * A) :=
  match extrinsic with
  | Many es => (Many (map (fun e => M_to_Q (rotation_block e)) es),
                Many (map translation_column es))
  | One e => (One (M_to_Q (rotation_block e)), One (translation_column e))
  end.

Lemma zip_with_fst_snd {X Y Z'} (f : X → Y → Z') (g : Z' → X) (l : list X) (k : list Y) :
  (∀ x y, g (f x y) = x) → length l = length k →
  map g (zip_with f l k) = l.
Proof.
  intros Hg. revert k. induction l as [|x l IH]; intros [|y k] Hlen;
    simplify_eq/=; [done|]. by rewrite Hg, IH.
Qed.

Lemma zip_with_snd_fst {X Y Z'} (f : X → Y → Z') (g : Z' → Y) (l : list X) (k : list Y) :
  (∀ x y, g (f x y) = y) → length l = length k →
  map g (zip_with f l k) = k.
Proof.
  intros Hg. revert k. induction l as [|x l IH]; intros [|y k] Hlen;
    simplify_eq/=; [done|]. by rewrite Hg, IH.
Qed.

(** X7.  [Extract_intrinsic] undoes [Compose_intrinsic]: whenever the
    composition returns, extracting from its result gives back the focal
    lengths and the principal points, for one pair and for a batch. *)
Theorem extract_compose_intrinsic (f_length pp : vecs (A * A)) I :
  Compose_intrinsic zero one f_length pp = Ok I →
  Extract_intrinsic I = (f_length, pp).
Proof.
  unfold Compose_intrinsic. case_bool_decide as Hg; [done|].
  destruct f_length as [[fx fy]|fs], pp as [[px py]|pps]; try done.
  - intros [= <-]. done.
  - intros [= <-]. unfold Extract_intrinsic.
    assert (length fs = length pps) as Hlen.
    { destruct (decide (length fs = length pps)); [done|].
      exfalso. apply Hg. by right. }
    rewrite <-!list_fmap_compose. f_equal; f_equal.
    + apply zip_with_fst_snd; [|done]. by intros [??] [??].
    + apply zip_with_snd_fst; [|done]. by intros [??] [??].
Qed.

(** scipy's quaternion-to-matrix conversion, as in [Compose_extrinsic]. *)
Variable Q_to_M : A * A * A * A → option (@mat3 A).

(** X8.  The translation is recovered from a composed extrinsic: whenever
    [Compose_extrinsic(q, tf)] returns, the second component of
    [Extract_extrinsic] of its result is [tf], for one pair and for a
    batch. *)
Theorem extract_compose_translation q tf E :
  Compose_extrinsic zero one Q_to_M q tf = Ok E →
  (Extract_extrinsic E).2 = tf.
Proof.
  unfold Compose_extrinsic. case_bool_decide as Hg; [done|].
  destruct q as [q1|qs], tf as [[[tx ty] tz]|tfs]; try done.
  - destruct (Q_to_M q1) as [[[[[r00 r01] r02] [[r10 r11] r12]] [[r20 r21] r22]]|];
      [|done].
    intros [= <-]. done.
  - destruct (mapM Q_to_M qs) as [ms|] eqn:Hms; [|done].
    intros [= <-]. simpl. f_equal.
    assert (length ms = length tfs) as Hlen.
    { apply length_mapM in Hms. rewrite <-Hms.
      destruct (decide (length qs = length tfs)); [done|].
      exfalso. apply Hg. right. simpl. split; [lia|done]. }
    apply zip_with_snd_fst; [|done].
    intros [[[[r00 r01] r02] [[r10 r11] r12]] [[r20 r21] r22]] [[tx ty] tz].
    done.
Qed.

End ExtractCompose.

Lemma extract_compose_intrinsic_witness :
  Compose_intrinsic 0%Z 1%Z (Many [(500, 510); (600, 610)]%Z)
    (Many [(320, 240); (300, 200)]%Z)
  = Ok (Many [((500, 0, 320), (0, 510, 240), (0, 0, 1));
              ((600, 0, 300), (0, 610, 200), (0, 0, 1))]%Z)
  ∧ Extract_intrinsic
      (Many [((500, 0, 320), (0, 510, 240), (0, 0, 1));
             ((600, 0, 300), (0, 610, 200), (0, 0, 1))]%Z)
    = (Many [(500, 510); (600, 610)]%Z, Many [(320, 240); (300, 200)]%Z).
Proof.
  assert (Compose_intrinsic 0%Z 1%Z (Many [(500, 510); (600, 610)]%Z)
            (Many [(320, 240); (300, 200)]%Z)
          = Ok (Many [((500, 0, 320), (0, 510, 240), (0, 0, 1));
                      ((600, 0, 300), (0, 610, 200), (0, 0, 1))]%Z)) as Hc
    by reflexivity.
  split; [exact Hc|].
  exact (extract_compose_intrinsic 0%Z 1%Z _ _ _ Hc).
Defined.

(** A stand-in for scipy's conversion in concrete runs: the identity
    rotation for every quaternion but the zero one. *)
Definition identity_rotation (q : Z * Z * Z * Z) : option (@mat3 Z) :=
  if decide (q = (0, 0, 0, 0)%Z) then None
  else Some ((1, 0, 0), (0, 1, 0), (0, 0, 1))%Z.

Lemma extract_compose_translation_witness :
  Compose_extrinsic 0%Z 1%Z identity_rotation (One (1, 0, 0, 0)%Z)
    (One (7, 8, 9)%Z)
  = Ok (One ((1, 0, 0, 7), (0, 1, 0, 8), (0, 0, 1, 9), (0, 0, 0, 1))%Z)
  ∧ (Extract_extrinsic (fun _ => (1, 0, 0, 0)%Z)
       (One ((1, 0, 0, 7), (0, 1, 0, 8), (0, 0, 1, 9), (0, 0, 0, 1))%Z)).2
    = One (7, 8, 9)%Z.
Proof.
  assert (Compose_extrinsic 0%Z 1%Z identity_rotation (One (1, 0, 0, 0)%Z)
            (One (7, 8, 9)%Z)
          = Ok (One ((1, 0, 0, 7), (0, 1, 0, 8), (0, 0, 1, 9), (0, 0, 0, 1))%Z))
    as Hc by reflexivity.
  split; [exact Hc|].
  exact (extract_compose_translation 0%Z 1%Z (fun _ => (1, 0, 0, 0)%Z)
           identity_rotation _ _ _ Hc).
Defined.

(** ** Camera_Process.Apply_intrinsic *)

Section ApplyIntrinsic.
Local Open Scope Qc_scope.

Definition det3 (m : @mat3 Qc) : Qc :=
  let '((a, b, c), (d, e, f), (g, h, i)) := m in
  a * (e * i - f * h) - b * (d * i - f * g) + c * (d * h - e * g).

(** [np.linalg.inv] on a 3x3 matrix: the inverse, and NumPy's
    [LinAlgError] for a singular matrix. *)
Definition linalg_inv3 (m : @mat3 Qc) : result (@mat3 Qc) :=
  if decide (det3 m = 0) then Raise LibraryError else
  let '((a, b, c), (d, e, f), (g, h, i)) := m in
  let k := / det3 m in
  Ok (((e * i - f * h) * k, (c * h - b * i) * k, (b * f - c * e) * k),
      ((f * g - d * i) * k, (a * i - c * g) * k, (c * d - a * f) * k),
      ((d * h - e * g) * k, (b * g - a * h) * k, (a * e - b * d) * k)).

(** [m @ p] for one point. *)
Definition matvec3 (m : @mat3 Qc) (p : Qc * Qc * Qc) : Qc * Qc * Qc :=
  let '((a, b, c), (d, e, f), (g, h, i)) := m in
  let '(x, y, z) := p in
  (a * x + b * y + c * z, d * x + e * y + f * z, g * x + h * y + i * z).

(** [Apply_intrinsic(pts, intrinsic, apply_inv)]: [(M @ pts.T).T]. *)
Definition Apply_intrinsic (pts : VEC_3) (intrinsic : @mat3 Qc)
  (apply_inv : bool) : result VEC_3 :=
  _instrinsic ← (if apply_inv then linalg_inv3 intrinsic else Ok intrinsic);
  Ok (map (matvec3 _instrinsic) pts).

Lemma matvec3_inverse_l m m' p :
  linalg_inv3 m = Ok m' → matvec3 m' (matvec3 m p) = p.
Proof.
  unfold linalg_inv3. destruct (decide (det3 m = 0)) as [|Hdet]; [done|].
  pose proof (Qcmult_inv_r _ Hdet) as Hk. revert Hk.
  generalize (/ det3 m). intros k Hk.
  destruct m as [[[[a b] c] [[d e] f]] [[g h] i]], p as [[x y] z].
  intros [= <-]. unfold det3 in Hk. cbn [matvec3].
  repeat f_equal.
  - transitivity
      ((a * (e * i - f * h) - b * (d * i - f * g) + c * (d * h - e * g))
       * k * x); [ring | rewrite Hk; ring].
  - transitivity
      ((a * (e * i - f * h) - b * (d * i - f * g) + c * (d * h - e * g))
       * k * y); [ring | rewrite Hk; ring].
  - transitivity
      ((a * (e * i - f * h) - b * (d * i - f * g) + c * (d * h - e * g))
       * k * z); [ring | rewrite Hk; ring].
Qed.

Lemma matvec3_inverse_r m m' p :
  linalg_inv3 m = Ok m' → matvec3 m (matvec3 m' p) = p.
Proof.
  unfold linalg_inv3. destruct (decide (det3 m = 0)) as [|Hdet]; [done|].
  pose proof (Qcmult_inv_r _ Hdet) as Hk. revert Hk.
  generalize (/ det3 m). intros k Hk.
  destruct m as [[[[a b] c] [[d e] f]] [[g h] i]], p as [[x y] z].
  intros [= <-]. unfold det3 in Hk. cbn [matvec3].
  repeat f_equal.
  - transitivity
      ((a * (e * i - f * h) - b * (d * i - f * g) + c * (d * h - e * g))
       * k * x); [ring | rewrite Hk; ring].
  - transitivity
      ((a * (e * i - f * h) - b * (d * i - f * g) + c * (d * h - e * g))
       * k * y); [ring | rewrite Hk; ring].
  - transitivity
      ((a * (e * i - f * h) - b * (d * i - f * g) + c * (d * h - e * g))
       * k * z); [ring | rewrite Hk; ring].
Qed.

Lemma linalg_inv3_regular m : det3 m ≠ 0 → ∃ m', linalg_inv3 m = Ok m'.
Proof.
  intros Hdet. unfold linalg_inv3. rewrite decide_False by done.
  destruct m as [[[[a b] c] [[d e] f]] [[g h] i]]. eauto.
Qed.

(** X9.  Applying an intrinsic with non-zero determinant and then its inverse,
    in either order, returns the points; a singular intrinsic cannot be
    inverted. *)
Theorem apply_intrinsic_inverse (pts : VEC_3) (K : @mat3 Qc) :
  det3 K ≠ 0 →
  (img ← Apply_intrinsic pts K false; Apply_intrinsic img K true) = Ok pts
  ∧ (cam ← Apply_intrinsic pts K true; Apply_intrinsic cam K false) = Ok pts.
Proof.
  intros Hdet. destruct (linalg_inv3_regular K Hdet) as [K' HK'].
  unfold Apply_intrinsic. rewrite HK'. cbn [mbind result_bind].
  rewrite <-!list_fmap_compose. split; f_equal.
  - rewrite <-(list_fmap_id pts) at 2. apply list_fmap_ext.
    intros ? p _. by apply matvec3_inverse_l.
  - rewrite <-(list_fmap_id pts) at 2. apply list_fmap_ext.
    intros ? p _. by apply matvec3_inverse_r.
Qed.

End ApplyIntrinsic.

(** A pinhole intrinsic: focal length 500, principal point (320, 240). *)
Definition vga_intrinsic : @mat3 Qc :=
  ((Qc_of_Z 500, 0%Qc, Qc_of_Z 320),
   (0%Qc, Qc_of_Z 500, Qc_of_Z 240),
   (0%Qc, 0%Qc, 1%Qc)).

Lemma vga_intrinsic_regular : det3 vga_intrinsic ≠ 0%Qc.
Proof. by_evaluation. Defined.

Lemma apply_intrinsic_inverse_witness :
  det3 vga_intrinsic ≠ 0%Qc
  ∧ (img ← Apply_intrinsic [(1%Qc, Qc_of_Z 2, Qc_of_Z 3)] vga_intrinsic false;
     Apply_intrinsic img vga_intrinsic true)
    = Ok [(1%Qc, Qc_of_Z 2, Qc_of_Z 3)].
Proof.
  split; [apply vga_intrinsic_regular|].
  apply (apply_intrinsic_inverse [(1%Qc, Qc_of_Z 2, Qc_of_Z 3)] vga_intrinsic).
  apply vga_intrinsic_regular.
Defined.

(** ** Projecting what was back-projected, with a mask *)

(** The depth map with the pixels the mask leaves out set to zero. *)
Definition keep_selected (M : MASK) (D : IMG_1C) : IMG_1C :=
  zip_with (zip_with (fun (b : bool) d => if b then d else 0%Qc)) M D.

Section MaskedRoundTrip.
Local Open Scope Qc_scope.

Lemma keep_selected_shape h w (M : MASK) (D : IMG_1C) :
  has_shape h w M → has_shape h w D → has_shape h w (keep_selected M D).
Proof.
  intros [HMh HMw] [HDh HDw]. unfold keep_selected. split.
  - rewrite length_zip_with. lia.
  - apply Forall_lookup. intros y r Hr.
    apply lookup_zip_with_Some in Hr as (mr & dr & -> & Hmr & Hdr).
    rewrite length_zip_with.
    rewrite (proj1 (Forall_lookup _ _) HMw _ _ Hmr).
    rewrite (proj1 (Forall_lookup _ _) HDw _ _ Hdr). lia.
Qed.

Lemma keep_selected_pixel (M : MASK) (D : IMG_1C) (y x : nat) (b : bool) (d : Qc) :
  M !! y ≫= (.!! x) = Some b → D !! y ≫= (.!! x) = Some d →
  keep_selected M D !! y ≫= (.!! x) = Some (if b then d else 0).
Proof.
  intros Hb Hd. unfold keep_selected.
  destruct (M !! y) as [mr|] eqn:Hmr; [|done].
  destruct (D !! y) as [dr|] eqn:Hdr; [|done]. simpl in *.
  rewrite lookup_zip_with, Hmr, Hdr. simpl.
  by rewrite lookup_zip_with, Hb, Hd.
Qed.

(** Projecting the scan of a masked depth map gives the masked map. *)
Lemma Get_depth_map_from_scan (D : IMG_1C) (M : MASK) (h w : nat) :
  has_shape h w D → has_shape h w M →
  Forall (Forall (fun d => 0 ≤ d)) D →
  Forall (Forall is_float32) D →
  (Z.of_nat h * Z.of_nat w ≤ 2 ^ 31)%Z →
  Get_depth_map_from (backproject D M) (Z.of_nat w, Z.of_nat h)
  = Ok (keep_selected M D).
Proof.
  intros HD HM Hnn Hrep Hsize.
  set (pts := backproject D M).
  destruct (Get_depth_map_from_spec (Z.of_nat w) (Z.of_nat h)
              ltac:(lia) ltac:(lia) Hsize pts)
    as (img & -> & Himg & _ & Hpix).
  f_equal. rewrite !Nat2Z.id in Himg.
  apply (has_shape_ext h w); [done|by apply keep_selected_shape|].
  intros v u Hv Hu.
  destruct (Hpix (Z.of_nat u) (Z.of_nat v)) as (d & Hd & Hnear); [lia..|].
  rewrite !Nat2Z.id in Hd. rewrite Hd.
  destruct (has_shape_pixel h w D v u HD Hv Hu) as [d0 Hd0].
  destruct (has_shape_pixel h w M v u HM Hv Hu) as [b Hb].
  rewrite (keep_selected_pixel M D v u b d0 Hb Hd0). f_equal.
  assert (∀ p, p ∈ pts → lands_on p (Z.of_nat u) (Z.of_nat v) →
               pz p = d0 ∧ 0 < d0 ∧ b = true) as Hlander.
  { intros p Hp Hl. apply elem_of_scan in Hp as (y & x & dd & Hm & Hdd & ->).
    simpl in Hl. destruct Hl as [Hpos Hl].
    destruct (point_of_lands y x dd Hpos) as (_ & Hx & Hy).
    destruct Hl as [Hx' Hy']. rewrite Hx in Hx'. rewrite Hy in Hy'.
    apply Nat2Z.inj in Hx', Hy'. subst x y.
    rewrite Hd0 in Hdd. rewrite Hb in Hm. by simplify_eq. }
  destruct Hnear as [[Hnone ->]|(p & Hp & Hl & -> & _)].
  - destruct b; [|done].
    pose proof (Forall2_pixel _ D v u d0 Hnn Hd0) as Hd0nn. simpl in Hd0nn.
    destruct (Qc_eq_dec 0 d0) as [|Hne]; [done|].
    exfalso. apply (Hnone (point_of v u d0)).
    + apply elem_of_scan. exists v, u, d0. by split_and!.
    + apply point_of_lands. by apply Qcle_lt_or_eq in Hd0nn as [?|?].
  - destruct (Hlander p Hp Hl) as (-> & Hpos & ->).
    apply stored32_float32; [|by apply Qclt_le_weak].
    by apply (Forall2_pixel _ D v u).
Qed.

End MaskedRoundTrip.

(** X10.  With a mask, back-projection followed by forward projection at
    the same size returns the depth map with the unselected pixels set to
    zero, for a depth map of non-negative [float32] values within the
    [int32] index range. *)
Theorem masked_round_trip (D : IMG_1C) (M : MASK) (h w : nat) :
  has_shape h w D → has_shape h w M →
  Forall (Forall (fun d => (0 ≤ d)%Qc)) D →
  Forall (Forall is_float32) D →
  (Z.of_nat h * Z.of_nat w ≤ 2 ^ 31)%Z →
  (pts ← Get_pts_from D (Some M);
   Get_depth_map_from pts (Z.of_nat w, Z.of_nat h)) = Ok (keep_selected M D).
Proof.
  intros HD HM Hnn Hrep Hsize.
  destruct (Get_pts_from_scan D (Some M) h w HD) as [-> _].
  { by intros ? [= <-]. }
  by apply Get_depth_map_from_scan.
Qed.

Definition checker_mask : MASK := [[true; false]; [false; true]].

Lemma checker_mask_shape : has_shape 2 2 checker_mask.
Proof. split; [done|]. by repeat constructor. Defined.

Lemma masked_round_trip_witness :
  (has_shape 2 2 small_map ∧ has_shape 2 2 checker_mask
   ∧ Forall (Forall (fun d => (0 ≤ d)%Qc)) small_map
   ∧ Forall (Forall is_float32) small_map
   ∧ (Z.of_nat 2 * Z.of_nat 2 ≤ 2 ^ 31)%Z)
  ∧ (pts ← Get_pts_from small_map (Some checker_mask);
     Get_depth_map_from pts (Z.of_nat 2, Z.of_nat 2))
    = Ok (keep_selected checker_mask small_map).
Proof.
  split.
  - split_and!;
      [apply small_map_shape|apply checker_mask_shape
      |apply small_map_nonneg|apply small_map_float32|lia].
  - apply (masked_round_trip small_map checker_mask 2 2
             small_map_shape checker_mask_shape small_map_nonneg
             small_map_float32). lia.
Defined.

(** ** The type of the result *)

(** X31.  Every entry of a depth map that [Get_depth_map_from] returns is
    a non-negative [float32] value, for every point set and size: a depth
    that is not a [float32] is not returned as it was given. *)
Theorem depth_map_is_float32 (pts : VEC_3) (size : Z * Z) (img : IMG_1C) :
  Get_depth_map_from pts size = Ok img →
  Forall (Forall (fun d => is_float32 d ∧ (0 ≤ d)%Qc)) img.
Proof. destruct size as [w h]. apply Get_depth_map_from_float32. Qed.

Lemma depth_map_is_float32_witness :
  Get_depth_map_from [tenth_point] (1, 1)%Z = Ok [[tenth_as_float32]]
  ∧ Forall (Forall (fun d => is_float32 d ∧ (0 ≤ d)%Qc)) [[tenth_as_float32]].
Proof.
  split; [apply tenth_point_narrowed|].
  exact (depth_map_is_float32 [tenth_point] (1, 1)%Z [[tenth_as_float32]]
           tenth_point_narrowed).
Defined.

(** ** Points that stay outside the image *)

Section Invisible.
Local Open Scope Qc_scope.

(** The point is in front of the camera and rounds to a pixel of a
    [w] by [h] image. *)
Definition visible (w h : Z) (p : Qc * Qc * Qc) : Prop :=
  0 < pz p
  ∧ (0 ≤ np_round (px p / pz p) < w)%Z
  ∧ (0 ≤ np_round (py p / pz p) < h)%Z.

Lemma contribution_invisible w h p :
  ¬ visible w h p → contribution w h p = None.
Proof.
  intros Hinv. unfold contribution. case_bool_decide as Hz; [|done].
  cbn zeta.
  destruct (_ && _) eqn:Hin; [|done]. exfalso. apply Hinv.
  apply andb_prop in Hin as [Hin Hv2]. apply andb_prop in Hin as [Hin Hv1].
  apply andb_prop in Hin as [Hu1 Hu2].
  apply Z.leb_le in Hu1, Hv1. apply Z.ltb_lt in Hu2, Hv2.
  by split_and!.
Qed.

Lemma omap_invisible w h junk :
  Forall (fun p => ¬ visible w h p) junk → omap (contribution w h) junk = [].
Proof.
  induction 1 as [|p junk Hp _ IH]; [done|].
  cbn [omap list_omap]. by rewrite (contribution_invisible w h p Hp).
Qed.

Lemma reshape_replicate {A} h w (x : A) :
  reshape h w (replicate (h * w) x) = replicate h (replicate w x).
Proof.
  induction h as [|h IH]; [done|]. cbn [reshape Nat.mul replicate].
  rewrite replicate_add, take_app_length', drop_app_length'
    by (by rewrite length_replicate).
  by rewrite IH.
Qed.

End Invisible.

(** X12.  Points behind the camera, and points that round to a pixel outside the
    image, do not change the depth map: adding them to any point set gives
    the same outcome. *)
Theorem invisible_points_ignored (pts junk : VEC_3) (w h : Z) :
  Forall (fun p => ¬ visible w h p) junk →
  Get_depth_map_from (pts ++ junk) (w, h) = Get_depth_map_from pts (w, h).
Proof.
  intros Hjunk. rewrite !Get_depth_map_from_pointwise.
  by rewrite omap_app, (omap_invisible w h junk Hjunk), app_nil_r.
Qed.

(** X13.  When no point is visible the depth map is all zeros, at every
    non-negative size. *)
Theorem nothing_visible_zero_map (pts : VEC_3) (w h : Z) :
  (0 ≤ w)%Z → (0 ≤ h)%Z →
  Forall (fun p => ¬ visible w h p) pts →
  Get_depth_map_from pts (w, h)
  = Ok (replicate (Z.to_nat h) (replicate (Z.to_nat w) 0%Qc)).
Proof.
  intros Hw Hh Hpts. rewrite Get_depth_map_from_pointwise.
  rewrite bool_decide_eq_false_2 by lia.
  rewrite (omap_invisible w h pts Hpts). cbn [minimum_at mbind result_bind].
  f_equal. rewrite fmap_replicate, Z2Nat.inj_mul by lia.
  apply reshape_replicate.
Qed.

(** A point behind the camera and a point far to the right of the image. *)
Definition behind_pt : Qc * Qc * Qc := (1%Qc, 1%Qc, (- 1)%Qc).
Definition aside_pt : Qc * Qc * Qc := (Qc_of_Z 9, 0%Qc, 1%Qc).

Lemma behind_aside_invisible :
  Forall (fun p => ¬ visible 3 2 p) [behind_pt; aside_pt].
Proof.
  repeat constructor.
  - intros [Hz _]. by vm_compute in Hz.
  - intros (_ & [_ Hu] & _). by vm_compute in Hu.
Defined.

Lemma invisible_points_ignored_witness :
  Forall (fun p => ¬ visible 3 2 p) [behind_pt; aside_pt]
  ∧ Get_depth_map_from ([near_pt; far_pt] ++ [behind_pt; aside_pt]) (3, 2)%Z
    = Get_depth_map_from [near_pt; far_pt] (3, 2)%Z.
Proof.
  split; [apply behind_aside_invisible|].
  apply (invisible_points_ignored [near_pt; far_pt] [behind_pt; aside_pt] 3 2).
  apply behind_aside_invisible.
Defined.

Lemma nothing_visible_zero_map_witness :
  ((0 ≤ 3)%Z ∧ (0 ≤ 2)%Z
   ∧ Forall (fun p => ¬ visible 3 2 p) [behind_pt; aside_pt])
  ∧ Get_depth_map_from [behind_pt; aside_pt] (3, 2)%Z
    = Ok (replicate (Z.to_nat 2) (replicate (Z.to_nat 3) 0%Qc)).
Proof.
  split; [split_and!; [lia|lia|apply behind_aside_invisible]|].
  apply (nothing_visible_zero_map [behind_pt; aside_pt] 3 2); [lia|lia|].
  apply behind_aside_invisible.
Defined.

(** ** Principal point, focal length and batches of intrinsics *)

Section IntrinsicMore.
Local Open Scope R_scope.

(** X14.  The principal point is recovered from its rate and the rate from the
    principal point, for a size with non-zero components. *)
Theorem pp_round_trip (v : R * R) (size : Z * Z) :
  size.1 ≠ 0%Z → size.2 ≠ 0%Z →
  Get_pp_from (Get_pp_rate_from v size) size = v
  ∧ Get_pp_rate_from (Get_pp_from v size) size = v.
Proof.
  destruct v as [a b], size as [w h]. cbn [fst snd]. intros Hw Hh.
  assert (IZR w ≠ 0) as Hw' by (by apply not_0_IZR).
  assert (IZR h ≠ 0) as Hh' by (by apply not_0_IZR).
  unfold Get_pp_from, Get_pp_rate_from, both. cbn [fst snd].
  replace (IZR w * (a / IZR w)) with a by (by field).
  replace (IZR h * (b / IZR h)) with b by (by field).
  replace (IZR w * a / IZR w) with a by (by field).
  replace (IZR h * b / IZR h) with b by (by field).
  split; reflexivity.
Qed.

Lemma pp_round_trip_witness :
  ((640 ≠ 0)%Z ∧ (480 ≠ 0)%Z)
  ∧ Get_pp_from (Get_pp_rate_from (320, 240) (640, 480)%Z) (640, 480)%Z
    = (320, 240).
Proof.
  split; [split; lia|].
  apply (pp_round_trip (320, 240) (640, 480)%Z); cbn [fst snd]; lia.
Defined.

(** X15.  The focal length is recovered from the field of view it gave, for a
    positive focal length and a positive size. *)
Theorem focal_round_trip (f_length : R * R) (size : Z * Z) :
  0 < f_length.1 → 0 < f_length.2 → (0 < size.1)%Z → (0 < size.2)%Z →
  Get_focal_length_from (Get_fov_from size f_length) size = f_length.
Proof.
  destruct f_length as [fx fy], size as [w h]. cbn [fst snd].
  intros Hfx Hfy Hw Hh.
  unfold Get_focal_length_from, Get_fov_from, both. cbn [fst snd].
  rewrite !tan_half_fov by assumption.
  apply IZR_lt in Hw, Hh.
  replace (IZR w / (2 * (IZR w / 2 / fx))) with fx by (field; lra).
  replace (IZR h / (2 * (IZR h / 2 / fy))) with fy by (field; lra).
  reflexivity.
Qed.

Lemma focal_round_trip_witness :
  (0 < 500 ∧ (0 < 640)%Z ∧ (0 < 480)%Z)
  ∧ Get_focal_length_from (Get_fov_from (640, 480)%Z (500, 500)) (640, 480)%Z
    = (500, 500).
Proof.
  assert (0 < 500) as Hf by lra.
  split; [split_and!; [exact Hf|lia|lia]|].
  exact (focal_round_trip (500, 500) (640, 480)%Z Hf Hf eq_refl eq_refl).
Defined.

Lemma Adjust_intrinsic_Many (ms : list (@mat3 R)) (size new_size : Z * Z) :
  Forall (fun m => 0 < (focal m).1 ∧ 0 < (focal m).2) ms →
  (0 < size.1)%Z → (0 < size.2)%Z →
  Adjust_intrinsic (Many ms) size new_size
  = Ok (Many (map (fun m => rescale m size new_size) ms)).
Proof.
  intros Hms Hw Hh.
  unfold Adjust_intrinsic, Extract_intrinsic, Compose_intrinsic, vecs_map.
  cbn [fst snd ndim shape0].
  rewrite bool_decide_eq_false_2
    by (rewrite !length_map; intros [?|?]; congruence).
  do 2 f_equal.
  induction Hms as [|m ms [Hfx Hfy] _ IH]; [reflexivity|].
  cbn [map zip_with]. f_equal; [|exact IH].
  pose proof (Adjust_intrinsic_One m size new_size Hfx Hfy Hw Hh) as Hone.
  unfold Adjust_intrinsic, Extract_intrinsic, Compose_intrinsic, vecs_map
    in Hone.
  cbn [fst snd ndim shape0] in Hone.
  rewrite bool_decide_eq_false_2 in Hone by (intros [?|?]; congruence).
  exact (f_equal (fun r => match r with
                            | Ok (One x) => x
                            | _ => rescale m size new_size
                            end) Hone).
Qed.

(** X16.  Adjusting a batch of intrinsics adjusts each matrix as if it were
    alone, for positive focal lengths and a positive old size. *)
Theorem adjust_batch_pointwise (ms : list (@mat3 R)) (size new_size : Z * Z) :
  Forall (fun m => 0 < (focal m).1 ∧ 0 < (focal m).2) ms →
  (0 < size.1)%Z → (0 < size.2)%Z →
  ∃ out, Adjust_intrinsic (Many ms) size new_size = Ok (Many out)
    ∧ Forall2 (fun m m' => Adjust_intrinsic (One m) size new_size
                           = Ok (One m')) ms out.
Proof.
  intros Hms Hw Hh.
  exists (map (fun m => rescale m size new_size) ms).
  split; [by apply Adjust_intrinsic_Many|].
  apply Forall2_fmap_r, Forall_Forall2_diag.
  eapply Forall_impl; [exact Hms|].
  intros m [Hfx Hfy]. by apply Adjust_intrinsic_One.
Qed.

Lemma adjust_batch_pointwise_witness :
  (Forall (fun m => 0 < (focal m).1 ∧ 0 < (focal m).2)
          [unit_intrinsic; unit_intrinsic]
   ∧ (0 < 2)%Z)
  ∧ ∃ out,
      Adjust_intrinsic (Many [unit_intrinsic; unit_intrinsic]) (2, 2)%Z (4, 6)%Z
      = Ok (Many out)
      ∧ Forall2 (fun m m' => Adjust_intrinsic (One m) (2, 2)%Z (4, 6)%Z
                             = Ok (One m'))
                [unit_intrinsic; unit_intrinsic] out.
Proof.
  assert (0 < (focal unit_intrinsic).1 ∧ 0 < (focal unit_intrinsic).2) as Hf
    by (cbn; lra).
  assert (Forall (fun m => 0 < (focal m).1 ∧ 0 < (focal m).2)
                 [unit_intrinsic; unit_intrinsic]) as Hms
    by (repeat constructor; apply Hf).
  split; [split; [exact Hms|lia]|].
  exact (adjust_batch_pointwise [unit_intrinsic; unit_intrinsic]
           (2, 2)%Z (4, 6)%Z Hms eq_refl eq_refl).
Defined.

End IntrinsicMore.

(** ** What [Apply_extrinsic] and [Hand_change] compute *)

Section ColumnSums.
Local Open Scope Qc_scope.

(** A 4x4 transform given by its sixteen entries, as the nested list the
    functions take. *)
Definition rows_of (E : @mat4 Qc) : list (list Qc) :=
  let '((a0, a1, a2, a3), (b0, b1, b2, b3),
        (c0, c1, c2, c3), (d0, d1, d2, d3)) := E in
  [[a0; a1; a2; a3]; [b0; b1; b2; b3]; [c0; c1; c2; c3]; [d0; d1; d2; d3]].

Definition row3 (p : Qc * Qc * Qc) : list Qc :=
  let '(x, y, z) := p in [x; y; z].

(** The point with each coordinate multiplied by the sum of the first
    three entries of the matching column of [E], and the sum of the fourth
    column in the fourth place. *)
Definition column_scaled (E : @mat4 Qc) (p : Qc * Qc * Qc) : list Qc :=
  let '((a0, a1, a2, a3), (b0, b1, b2, b3),
        (c0, c1, c2, c3), _) := E in
  let '(x, y, z) := p in
  [(a0 + b0 + c0) * x; (a1 + b1 + c1) * y; (a2 + b2 + c2) * z; a3 + b3 + c3].

Lemma sum_j_column_scaled E p :
  sum_j (take 3 (rows_of E)) (row3 p ++ [1]) = column_scaled E p.
Proof.
  destruct E as [[[[[[a0 a1] a2] a3] [[[b0 b1] b2] b3]]
                   [[[c0 c1] c2] c3]] [[[d0 d1] d2] d3]].
  destruct p as [[x y] z].
  cbn [sum_j take rows_of row3 app foldr zip_with replicate length
       column_scaled].
  repeat (apply (f_equal2 cons); [ring|]). done.
Qed.

Lemma ncols_row3 (pts : list (Qc * Qc * Qc)) :
  pts ≠ [] → ncols (row3 <$> pts) = 3%nat.
Proof. destruct pts as [|[[x y] z] pts]; done. Qed.

Lemma ncols_To_homog_row3 (pts : list (Qc * Qc * Qc)) :
  ncols (To_homog (row3 <$> pts)) ≠ 3%nat.
Proof. destruct pts as [|[[x y] z] pts]; done. Qed.

Lemma Forall_homog (pts : list (Qc * Qc * Qc)) :
  Forall (fun p : list Qc => length p = 4%nat) (To_homog (row3 <$> pts)).
Proof.
  unfold To_homog. apply Forall_fmap, Forall_fmap, Forall_forall.
  by intros [[x y] z] _.
Qed.

Lemma Forall_top_rows (Es : list (@mat4 Qc)) :
  Forall (Forall (fun row : list Qc => length row = 4%nat))
         (take 3 <$> (rows_of <$> Es)).
Proof.
  apply Forall_fmap, Forall_fmap, Forall_forall.
  intros [[[[[[a0 a1] a2] a3] [[[b0 b1] b2] b3]]
            [[[c0 c1] c2] c3]] [[[d0 d1] d2] d3]] _.
  by repeat constructor.
Qed.

Lemma einsum_column_scaled (pts : list (Qc * Qc * Qc)) (Es : list (@mat4 Qc)) :
  einsum_bjk_nk_bnk (map (take 3) (rows_of <$> Es)) (To_homog (row3 <$> pts))
  = (fun E => column_scaled E <$> pts) <$> Es.
Proof.
  change (einsum_bjk_nk_bnk (take 3 <$> (rows_of <$> Es))
            (To_homog (row3 <$> pts))
          = (fun E => column_scaled E <$> pts) <$> Es).
  unfold einsum_bjk_nk_bnk, To_homog.
  rewrite <-!list_fmap_compose. apply list_fmap_ext. intros ? E _.
  cbn [compose]. rewrite <-!list_fmap_compose.
  apply list_fmap_ext. intros ? p _. apply sum_j_column_scaled.
Qed.

Variable linalg_inv : list (list Qc) → option (list (list Qc)).

(** On 3-vectors and a batch of 4x4 transforms [Apply_extrinsic] returns,
    for each transform and each point, the column-scaled point. *)
Lemma Apply_extrinsic_column_scaled
  (pts : list (Qc * Qc * Qc)) (Es : list (@mat4 Qc)) :
  Apply_extrinsic linalg_inv (row3 <$> pts) (rows_of <$> Es) false
  = Ok ((fun E => column_scaled E <$> pts) <$> Es).
Proof.
  unfold Apply_extrinsic. cbn [mbind result_bind].
  rewrite bool_decide_eq_true_2.
  - f_equal. destruct pts as [|p0 pts].
    + rewrite decide_False by done. apply (einsum_column_scaled []).
    + rewrite decide_True by (by apply ncols_row3).
      apply einsum_column_scaled.
  - split; [|apply Forall_top_rows].
    destruct pts as [|p0 pts].
    + rewrite decide_False by done. constructor.
    + rewrite decide_True by (by apply ncols_row3). apply Forall_homog.
Qed.

(** The constant [L2R] by its entries. *)
Definition L2R_entries : @mat4 Qc :=
  ((0, 1, 0, 0), (1, 0, 0, 0), (0, 0, - 1, 0), (0, 0, 0, 1)).

(** The point with its third coordinate negated. *)
Definition negate_z (p : Qc * Qc * Qc) : Qc * Qc * Qc :=
  let '(x, y, z) := p in (x, y, - z).

(** The transform with its first two rows exchanged and its third row
    negated. *)
Definition swap_xy_negate_z (E : @mat4 Qc) : @mat4 Qc :=
  let '((a0, a1, a2, a3), (b0, b1, b2, b3),
        (c0, c1, c2, c3), (d0, d1, d2, d3)) := E in
  ((b0, b1, b2, b3), (a0, a1, a2, a3),
   (- c0, - c1, - c2, - c3), (d0, d1, d2, d3)).

Lemma take_column_scaled_L2R p :
  take 3 (column_scaled L2R_entries p) = row3 (negate_z p).
Proof.
  destruct p as [[x y] z].
  cbn [column_scaled L2R_entries take row3 negate_z].
  repeat (apply (f_equal2 cons); [ring|]). done.
Qed.

Lemma Hand_change_points (pts : list (Qc * Qc * Qc)) :
  Hand_change linalg_inv (Rank2 (row3 <$> pts)) "L2R"
  = Ok (Rank2 (row3 <$> (negate_z <$> pts))).
Proof.
  unfold Hand_change. cbn [String.eqb Ascii.eqb Bool.eqb negb].
  assert ((if decide (ncols (row3 <$> pts) = 3%nat)
           then To_homog (row3 <$> pts) else row3 <$> pts)
          = To_homog (row3 <$> pts)) as ->.
  { destruct pts as [|p0 pts]; [done|].
    by rewrite decide_True by (by apply ncols_row3). }
  change [L2R] with (rows_of <$> [L2R_entries]).
  unfold Apply_extrinsic. cbn [mbind result_bind].
  rewrite decide_False by apply ncols_To_homog_row3.
  rewrite bool_decide_eq_true_2
    by (split; [apply Forall_homog|apply (Forall_top_rows [L2R_entries])]).
  rewrite (einsum_column_scaled pts [L2R_entries]).
  cbn [fmap list_fmap mbind result_bind]. do 2 f_equal.
  change (take 3 <$> (column_scaled L2R_entries <$> pts)
          = row3 <$> (negate_z <$> pts)).
  rewrite <-!list_fmap_compose. apply list_fmap_ext. intros ? p _.
  apply take_column_scaled_L2R.
Qed.

Lemma matmul_L2R (E : @mat4 Qc) :
  matmul L2R (rows_of E) = rows_of (swap_xy_negate_z E).
Proof.
  destruct E as [[[[[[a0 a1] a2] a3] [[[b0 b1] b2] b3]]
                   [[[c0 c1] c2] c3]] [[[d0 d1] d2] d3]].
  cbn [matmul L2R rows_of swap_xy_negate_z map zip zip_with foldr ncols hd
       length replicate].
  repeat (apply (f_equal2 cons);
          [repeat (apply (f_equal2 cons); [ring|]); done|]).
  done.
Qed.

Lemma Hand_change_transforms (Es : list (@mat4 Qc)) :
  Hand_change linalg_inv (Rank3 (rows_of <$> Es)) "L2R"
  = Ok (Rank3 (rows_of <$> (swap_xy_negate_z <$> Es))).
Proof.
  unfold Hand_change. cbn [String.eqb Ascii.eqb Bool.eqb negb].
  do 2 f_equal. rewrite <-!list_fmap_compose.
  apply list_fmap_ext. intros ? E _. apply matmul_L2R.
Qed.

End ColumnSums.

(** X17.  [Apply_extrinsic] on 3-vectors and a batch of 4x4 transforms: for each
    transform and each point [(x, y, z)] the result row is
    [(s0 * x, s1 * y, s2 * z, s3)], where [sk] is the sum of the first
    three entries of column [k] of the transform. *)
Theorem Apply_extrinsic_scales_by_column_sums linalg_inv
  (pts : list (Qc * Qc * Qc)) (Es : list (@mat4 Qc)) :
  Apply_extrinsic linalg_inv (row3 <$> pts) (rows_of <$> Es) false
  = Ok ((fun E => column_scaled E <$> pts) <$> Es).
Proof. apply Apply_extrinsic_column_scaled. Qed.

(** X18.  [Hand_change] in mode ["L2R"] sends every 3-vector [(x, y, z)] to
    [(x, y, -z)]. *)
Theorem Hand_change_negates_z linalg_inv (pts : list (Qc * Qc * Qc)) :
  Hand_change linalg_inv (Rank2 (row3 <$> pts)) "L2R"
  = Ok (Rank2 (row3 <$> (negate_z <$> pts))).
Proof. apply Hand_change_points. Qed.

(** X19.  [Hand_change] in mode ["L2R"] on a batch of 4x4 transforms exchanges
    the first two rows of each transform and negates the third. *)
Theorem Hand_change_swaps_rows linalg_inv (Es : list (@mat4 Qc)) :
  Hand_change linalg_inv (Rank3 (rows_of <$> Es)) "L2R"
  = Ok (Rank3 (rows_of <$> (swap_xy_negate_z <$> Es))).
Proof. apply Hand_change_transforms. Qed.

(** ** More on [Remove_duplicate] *)

Section DeduplicateMore.

Lemma lex_le_antisym r1 r2 : lex_le r1 r2 → lex_le r2 r1 → r1 = r2.
Proof.
  revert r2. induction r1 as [|x r1 IH]; intros [|y r2]; simpl; try done.
  intros [?|[? H1]] [?|[? H2]]; try lia. subst y. f_equal. by apply IH.
Qed.

Lemma quantize_row_at (data : list (list Qc)) (precision : Z) (idx : list nat) :
  quantize (map (row_at data) idx) precision
  = map (row_at (quantize data precision)) idx.
Proof.
  unfold quantize.
  change (map ?f ?l) with (f <$> l).
  rewrite <-!list_fmap_compose. apply list_fmap_ext. intros ? i _.
  cbn [compose]. unfold row_at. rewrite list_lookup_fmap.
  by destruct (data !! i).
Qed.

Lemma first_occurrence_row rows k :
  is_first_occurrence rows k → rows !! k = Some (row_at rows k).
Proof. intros (r & Hr & _). unfold row_at. by rewrite Hr. Qed.

Lemma first_occurrence_inj rows k1 k2 :
  is_first_occurrence rows k1 → is_first_occurrence rows k2 →
  row_at rows k1 = row_at rows k2 → k1 = k2.
Proof.
  intros (r1 & Hr1 & Hf1) (r2 & Hr2 & Hf2). unfold row_at.
  rewrite Hr1, Hr2. simpl. intros ->.
  destruct (Nat.lt_trichotomy k1 k2) as [Hlt|[->|Hlt]]; [|done|].
  - by destruct (Hf2 k1 Hlt).
  - by destruct (Hf1 k2 Hlt).
Qed.

(** Every row has a first occurrence. *)
Lemma first_occurrence_exists (rows : list (list Z)) j r :
  rows !! j = Some r →
  ∃ k, is_first_occurrence rows k ∧ rows !! k = Some r.
Proof.
  induction j as [j IH] using lt_wf_ind. intros Hj.
  destruct (decide (Exists (fun j' => rows !! j' = Some r) (seq 0 j)))
    as [Hex|Hno].
  - apply Exists_exists in Hex as (j' & Hin & Hj').
    apply elem_of_seq in Hin. apply (IH j'); [lia|done].
  - exists j. split; [|done]. exists r. split; [done|].
    intros j' Hlt Hj'. apply Hno, Exists_exists.
    exists j'. split; [|done]. apply elem_of_seq. lia.
Qed.

Lemma NoDup_first_occurrence_rows rows :
  NoDup (row_at rows <$> first_occurrences rows).
Proof.
  apply NoDup_fmap_2_strong.
  - intros k1 k2 H1%elem_of_first_occurrences H2%elem_of_first_occurrences.
    by apply first_occurrence_inj.
  - unfold first_occurrences.
    pose proof (first_occurrences_from_sorted 0 [] rows) as Hs.
    induction Hs as [|k l _ IH Hall]; constructor; [|done].
    intros Hin. apply (proj1 (Forall_forall _ _) Hall) in Hin. lia.
Qed.

Lemma unique_rows rows :
  let out := row_at rows <$> unique_index rows in
  NoDup out ∧ StronglySorted lex_le out ∧ ∀ r, r ∈ out ↔ r ∈ rows.
Proof.
  cbn zeta. unfold unique_index. split_and!.
  - rewrite merge_sort_Permutation. apply NoDup_first_occurrence_rows.
  - apply (StronglySorted_fmap _ (row_le rows)); [done|].
    apply StronglySorted_merge_sort; apply _.
  - intros r. rewrite merge_sort_Permutation, list_elem_of_fmap. split.
    + intros (k & -> & Hk%elem_of_first_occurrences).
      apply first_occurrence_row in Hk. by eapply list_elem_of_lookup_2.
    + intros (j & Hj)%list_elem_of_lookup_1.
      destruct (first_occurrence_exists rows j r Hj) as (k & Hk & Hr).
      exists k. split; [|by apply elem_of_first_occurrences].
      unfold row_at. by rewrite Hr.
Qed.

Lemma first_occurrences_from_NoDup i seen rows :
  NoDup rows → (∀ r, r ∈ rows → r ∉ seen) →
  first_occurrences_from i seen rows = seq i (length rows).
Proof.
  revert i seen. induction rows as [|r rows IH]; intros i seen Hnd Hseen;
    [done|].
  apply NoDup_cons in Hnd as [Hr Hnd]. cbn [first_occurrences_from length seq].
  rewrite decide_False by (apply Hseen; by left).
  f_equal. apply IH; [done|].
  intros r' Hr' [->|Hin]%elem_of_cons; [done|].
  apply (Hseen r'); [by right|done].
Qed.

Lemma row_at_seq {A} (rows : list (list A)) :
  row_at rows <$> seq 0 (length rows) = rows.
Proof.
  apply list_eq. intros i. rewrite list_lookup_fmap.
  destruct (rows !! i) as [r|] eqn:Hr.
  - rewrite lookup_seq_lt by (by eapply lookup_lt_Some). simpl.
    unfold row_at. by rewrite Hr.
  - rewrite lookup_seq_ge; [done|]. by apply lookup_ge_None.
Qed.

Lemma fmap_inj_on {A B} (f : A → B) (l1 l2 : list A) :
  (∀ x y, x ∈ l1 → y ∈ l2 → f x = f y → x = y) →
  f <$> l1 = f <$> l2 → l1 = l2.
Proof.
  revert l2. induction l1 as [|x l1 IH]; intros [|y l2] Hinj Heq;
    simplify_eq/=; [done|].
  f_equal.
  - apply Hinj; [by left..|done].
  - apply IH; [|done]. intros x' y' Hx' Hy'. apply Hinj; by right.
Qed.

Lemma unique_index_sorted rows :
  NoDup rows → StronglySorted lex_le rows →
  unique_index rows = seq 0 (length rows).
Proof.
  intros Hnd Hs.
  assert (unique_index rows ≡ₚ seq 0 (length rows)) as Hperm.
  { unfold unique_index, first_occurrences.
    rewrite first_occurrences_from_NoDup
      by (done || by intros ? _ ?%elem_of_nil).
    apply merge_sort_Permutation. }
  apply (fmap_inj_on (row_at rows)).
  - intros k1 k2 Hk1 Hk2 Heq. rewrite Hperm in Hk1.
    apply elem_of_seq in Hk1, Hk2.
    destruct (lookup_lt_is_Some_2 rows k1) as [r1 Hr1]; [lia|].
    destruct (lookup_lt_is_Some_2 rows k2) as [r2 Hr2]; [lia|].
    unfold row_at in Heq. rewrite Hr1, Hr2 in Heq. simpl in Heq. subst r2.
    by eapply NoDup_lookup.
  - rewrite row_at_seq.
    apply (StronglySorted_unique_strong lex_le).
    + intros r1 r2 _ _. apply lex_le_antisym.
    + apply (StronglySorted_fmap _ (row_le rows)); [done|].
      apply StronglySorted_merge_sort; apply _.
    + done.
    + by rewrite Hperm, row_at_seq.
Qed.

End DeduplicateMore.

(** X20.  The quantised rows of the output of [Remove_duplicate] are pairwise
    distinct and in ascending lexicographic order, and they are exactly the
    quantised rows of the input: no row is lost and none is invented. *)
Theorem deduplicate_distinct_and_complete
  (data : list (list Qc)) (precision : Z) :
  let out := (Remove_duplicate data precision).1 in
  NoDup (quantize out precision)
  ∧ StronglySorted lex_le (quantize out precision)
  ∧ (∀ r, r ∈ quantize out precision ↔ r ∈ quantize data precision)
  ∧ length out ≤ length data.
Proof.
  cbn zeta. unfold Remove_duplicate. cbn [fst].
  rewrite quantize_row_at.
  destruct (unique_rows (quantize data precision)) as (Hnd & Hs & Hin).
  split_and!; [done..|].
  rewrite length_map, <-(length_map (row_at (quantize data precision))).
  transitivity (length (quantize data precision)).
  - apply submseteq_length, NoDup_submseteq; [done|]. intros r. apply Hin.
  - unfold quantize. by rewrite length_map.
Qed.

(** X21.  [Remove_duplicate] is idempotent: on its own output it returns the
    rows unchanged, with the indices [0, 1, ..., n-1]. *)
Theorem deduplicate_idempotent (data : list (list Qc)) (precision : Z) :
  let out := (Remove_duplicate data precision).1 in
  Remove_duplicate out precision = (out, seq 0 (length out)).
Proof.
  cbn zeta. set (out := (Remove_duplicate data precision).1).
  unfold Remove_duplicate. cbn zeta.
  assert (unique_index (quantize out precision) = seq 0 (length out)) as ->.
  { subst out. unfold Remove_duplicate. cbn [fst].
    rewrite quantize_row_at.
    destruct (unique_rows (quantize data precision)) as (Hnd & Hs & _).
    rewrite unique_index_sorted by done.
    change (map ?f ?l) with (f <$> l). by rewrite !length_fmap. }
  f_equal. apply row_at_seq.
Qed.

(** ** Image_Process.Get_new_shape and Image_Process.Adjust_size *)

(** [Get_new_shape(size, ref_size, unit, by_width, use_paddig)].  The
    division by [_ref] and the remainder by [unit] raise
    [ZeroDivisionError] on zero: [None].  Python's [round] of a float is to
    nearest, ties to even, as [np_round]. *)
Definition Get_new_shape (size : Z * Z) (ref_size unit : Z)
  (by_width use_paddig : bool) : option ((Z * Z) * Z) :=
  let _ref := if by_width then size.1 else size.2 in
  if decide (_ref = 0%Z) then None else
  let _rate := (Qc_of_Z ref_size / Qc_of_Z _ref)%Qc in
  let _target :=
    np_round (Qc_of_Z (if by_width then size.2 else size.1) * _rate)%Qc in
  if decide (unit = 0%Z) then None else
  let _gap :=
    if use_paddig then (unit - _target `mod` unit)%Z
    else (- (_target `mod` unit))%Z in
  Some (if by_width then (ref_size, _target) else (_target, ref_size), _gap).

(** A bound of a Python slice on a sequence of length [n]: negative bounds
    count from the end, and every bound is clamped to [0..n]. *)
Definition slice_bound (n : nat) (i : Z) : nat :=
  if (i <? 0)%Z then Z.to_nat (Z.max 0 (Z.of_nat n + i))
  else Z.to_nat (Z.min i (Z.of_nat n)).

(** [l[start:stop]]; an absent bound is [None]. *)
Definition py_slice {A} (start stop : option Z) (l : list A) : list A :=
  let a := from_option (slice_bound (length l)) 0%nat start in
  let b := from_option (slice_bound (length l)) (length l) stop in
  drop a (take b l).

(** [Adjust_size(img, mode, gap, is_width, filling)] on an image given as
    rows of pixels; [filling] is the pixel [np.pad] writes.  The second
    axis is sliced or padded row by row. *)
Definition Adjust_size {P} (img : list (list P)) (mode : string) (gap : Z)
  (is_width : bool) (filling : P) : list (list P) :=
  if String.eqb mode "crop_n" then
    if is_width then map (py_slice None (Some gap)) img
    else py_slice None (Some gap) img
  else if String.eqb mode "crop_f" then
    if is_width then map (py_slice (Some (- gap)%Z) None) img
    else py_slice (Some (- gap)%Z) None img
  else
    let _gap := if (gap <? 0)%Z then (- gap)%Z else gap in
    let _st := (_gap `div` 2)%Z in
    let _ed := (_gap - _st)%Z in
    if String.eqb mode "crop_c" then
      if is_width then map (py_slice (Some _st) (Some (- _ed)%Z)) img
      else py_slice (Some _st) (Some (- _ed)%Z) img
    else
      if is_width then
        map (fun row => replicate (Z.to_nat _st) filling ++ row
                        ++ replicate (Z.to_nat _ed) filling) img
      else
        replicate (Z.to_nat _st) (replicate (ncols img) filling) ++ img
        ++ replicate (Z.to_nat _ed) (replicate (ncols img) filling).

Section Shapes.

Lemma Get_new_shape_Some (size : Z * Z) (ref_size unit : Z)
  (by_width use_paddig : bool) :
  (if by_width then size.1 else size.2) ≠ 0%Z → unit ≠ 0%Z →
  ∃ target,
    Get_new_shape size ref_size unit by_width use_paddig
    = Some (if by_width then (ref_size, target) else (target, ref_size),
            if use_paddig then (unit - target `mod` unit)%Z
            else (- (target `mod` unit))%Z).
Proof.
  intros Href Hunit. unfold Get_new_shape.
  rewrite !decide_False by done. eauto.
Qed.

Lemma length_py_slice {A} (start stop : option Z) (l : list A) :
  length (py_slice start stop l)
  = (from_option (slice_bound (length l)) (length l) stop
     `min` length l
     - from_option (slice_bound (length l)) 0 start)%nat.
Proof. unfold py_slice. by rewrite length_drop, length_take. Qed.

(** The side left by a slice that removes [k] elements, [0 < k <= n]. *)
Lemma length_crop_n {A} (l : list A) (gap : Z) :
  (- Z.of_nat (length l) ≤ gap < 0)%Z →
  Z.of_nat (length (py_slice None (Some gap) l))
  = (Z.of_nat (length l) + gap)%Z.
Proof.
  intros Hgap. rewrite length_py_slice. cbn [from_option].
  unfold slice_bound. destruct (Z.ltb_spec gap 0); lia.
Qed.

Lemma length_crop_f {A} (l : list A) (gap : Z) :
  (- Z.of_nat (length l) ≤ gap < 0)%Z →
  Z.of_nat (length (py_slice (Some (- gap)%Z) None l))
  = (Z.of_nat (length l) + gap)%Z.
Proof.
  intros Hgap. rewrite length_py_slice. cbn [from_option].
  unfold slice_bound. destruct (Z.ltb_spec (- gap) 0); lia.
Qed.

Lemma length_crop_c {A} (l : list A) (g : Z) :
  (0 < g ≤ Z.of_nat (length l))%Z →
  Z.of_nat (length (py_slice (Some (g `div` 2)%Z)
                             (Some (- (g - g `div` 2))%Z) l))
  = (Z.of_nat (length l) - g)%Z.
Proof.
  intros Hg. rewrite length_py_slice. cbn [from_option].
  unfold slice_bound.
  destruct (Z.ltb_spec (g `div` 2) 0);
    destruct (Z.ltb_spec (- (g - g `div` 2)) 0);
    Z.div_mod_to_equations; lia.
Qed.

Lemma has_shape_map_rows {A B} (f : list A → list B) h w w'
  (img : list (list A)) :
  has_shape h w img → (∀ row, length row = w → length (f row) = w') →
  has_shape h w' (map f img).
Proof.
  intros [Hh Hw] Hf. split; [by rewrite length_map|].
  apply Forall_fmap. eapply Forall_impl; [exact Hw|]. exact Hf.
Qed.

Lemma has_shape_py_slice {A} start stop h w (img : list (list A)) :
  has_shape h w img →
  has_shape (length (py_slice start stop img)) w (py_slice start stop img).
Proof.
  intros [_ Hw]. split; [done|]. unfold py_slice.
  by apply Forall_drop, Forall_take.
Qed.

(** The side of an [h] by [w] image along the axis [Adjust_size] works
    on, and the shape with that side replaced. *)
Definition side (is_width : bool) (h w : nat) : nat :=
  if is_width then w else h.

Definition with_side (is_width : bool) (h w n : nat) : nat * nat :=
  if is_width then (h, n) else (n, w).

Lemma Adjust_size_crop {P} (img : list (list P)) mode (gap : Z)
  (is_width : bool) (filling : P) (h w : nat) :
  has_shape h w img →
  mode = "crop_n" ∨ mode = "crop_f" ∨ mode = "crop_c" →
  (- Z.of_nat (side is_width h w) ≤ gap < 0)%Z →
  let '(h', w') :=
    with_side is_width h w (Z.to_nat (Z.of_nat (side is_width h w) + gap)) in
  has_shape h' w' (Adjust_size img mode gap is_width filling).
Proof.
  intros Himg Hmode Hgap.
  assert (∀ A (l : list A) n,
            Z.of_nat (length l) = (Z.of_nat n + gap)%Z →
            length l = Z.to_nat (Z.of_nat n + gap)) as Hnat by (intros; lia).
  unfold Adjust_size, side, with_side in *.
  destruct Hmode as [->|[->| ->]]; cbn [String.eqb Ascii.eqb Bool.eqb];
    rewrite ?(proj2 (Z.ltb_lt gap 0)) by lia.
  - destruct is_width.
    + apply (has_shape_map_rows _ h w); [done|]. intros row Hrow.
      apply Hnat. rewrite <-Hrow. apply length_crop_n. lia.
    + destruct Himg as [Hh Hw].
      rewrite <-(Hnat _ (py_slice None (Some gap) img) h)
        by (rewrite <-Hh; apply length_crop_n; lia).
      by apply (has_shape_py_slice _ _ h).
  - destruct is_width.
    + apply (has_shape_map_rows _ h w); [done|]. intros row Hrow.
      apply Hnat. rewrite <-Hrow. apply length_crop_f. lia.
    + destruct Himg as [Hh Hw].
      rewrite <-(Hnat _ (py_slice (Some (- gap)%Z) None img) h)
        by (rewrite <-Hh; apply length_crop_f; lia).
      by apply (has_shape_py_slice _ _ h).
  - destruct is_width.
    + apply (has_shape_map_rows _ h w); [done|]. intros row Hrow.
      apply Hnat. rewrite <-Hrow, (length_crop_c row (- gap)); lia.
    + destruct Himg as [Hh Hw].
      rewrite <-(Hnat _ (py_slice (Some ((- gap) `div` 2)%Z)
                           (Some (- (- gap - (- gap) `div` 2))%Z) img) h)
        by (rewrite <-Hh, (length_crop_c img (- gap)); lia).
      by apply (has_shape_py_slice _ _ h).
Qed.

Lemma halves (g : Z) :
  (0 ≤ g)%Z →
  ((0 ≤ g `div` 2)%Z ∧ (0 ≤ g - g `div` 2)%Z
   ∧ (Z.to_nat (g `div` 2) + Z.to_nat (g - g `div` 2))%nat = Z.to_nat g)
  ∧ (0 < g → 0 < g - g `div` 2)%Z.
Proof. intros Hg. Z.div_mod_to_equations. lia. Qed.

Lemma ncols_has_shape {A} h w (img : list (list A)) :
  has_shape h w img → 0 < h → ncols img = w.
Proof.
  intros [Hh Hw] Hpos. destruct img as [|row img]; simpl in *; [lia|].
  by apply Forall_cons in Hw as [? _].
Qed.

Lemma Adjust_size_pad {P} (img : list (list P)) (gap : Z)
  (is_width : bool) (filling : P) (h w : nat) :
  has_shape h w img → 0 < h →
  let '(h', w') :=
    with_side is_width h w (side is_width h w + Z.to_nat (Z.abs gap)) in
  has_shape h' w' (Adjust_size img "pad" gap is_width filling).
Proof.
  intros Himg Hpos. unfold Adjust_size, side, with_side.
  cbn [String.eqb Ascii.eqb Bool.eqb].
  assert ((if (gap <? 0)%Z then (- gap)%Z else gap) = Z.abs gap) as ->
    by (destruct (Z.ltb_spec gap 0); lia).
  destruct (halves (Z.abs gap)) as [(Hst & Hed & Hsum) _]; [lia|].
  destruct is_width.
  - apply (has_shape_map_rows _ h w); [done|]. intros row Hrow.
    rewrite !length_app, !length_replicate. lia.
  - rewrite (ncols_has_shape h w img Himg Hpos).
    destruct Himg as [Hh Hw]. split.
    + rewrite !length_app, !length_replicate. lia.
    + rewrite !Forall_app. split_and!; [|done|];
        apply Forall_replicate, length_replicate.
Qed.

Lemma py_slice_padded {A} (l : list A) (st ed : Z) (x : A) :
  (0 ≤ st)%Z → (0 < ed)%Z →
  py_slice (Some st) (Some (- ed)%Z)
    (replicate (Z.to_nat st) x ++ l ++ replicate (Z.to_nat ed) x) = l.
Proof.
  intros Hst Hed. unfold py_slice. cbn [from_option].
  rewrite !length_app, !length_replicate. unfold slice_bound.
  rewrite (proj2 (Z.ltb_ge st 0)), (proj2 (Z.ltb_lt (- ed) 0)) by lia.
  replace (Z.to_nat (Z.max 0 (Z.of_nat (Z.to_nat st + (length l + Z.to_nat ed))
                              + - ed)))
    with (length (replicate (Z.to_nat st) x ++ l))
    by (rewrite length_app, length_replicate; lia).
  rewrite app_assoc, take_app_length.
  replace (Z.to_nat (Z.min st (Z.of_nat (Z.to_nat st + (length l + Z.to_nat ed)))))
    with (length (replicate (Z.to_nat st) x))
    by (rewrite length_replicate; lia).
  by rewrite drop_app_length.
Qed.

Lemma pad_then_crop_c {P} (img : list (list P)) (gap : Z)
  (is_width : bool) (filling filling' : P) :
  gap ≠ 0%Z →
  Adjust_size (Adjust_size img "pad" gap is_width filling)
              "crop_c" gap is_width filling' = img.
Proof.
  intros Hgap. unfold Adjust_size. cbn [String.eqb Ascii.eqb Bool.eqb].
  assert ((if (gap <? 0)%Z then (- gap)%Z else gap) = Z.abs gap) as ->
    by (destruct (Z.ltb_spec gap 0); lia).
  destruct (halves (Z.abs gap)) as [(Hst & _ & _) Hed]; [lia|].
  specialize (Hed ltac:(lia)).
  destruct is_width.
  - change (map ?f ?l) with (f <$> l). rewrite <-list_fmap_compose.
    rewrite <-(list_fmap_id img) at 2. apply list_fmap_ext.
    intros ? row _. cbn [compose]. by apply py_slice_padded.
  - by apply py_slice_padded.
Qed.

Lemma py_slice_all {A} (l : list A) : py_slice (Some 0%Z) None l = l.
Proof.
  unfold py_slice. cbn [from_option]. unfold slice_bound.
  cbn [Z.ltb Z.compare]. rewrite Z.min_l by lia. cbn [Z.to_nat drop].
  by rewrite firstn_all.
Qed.

Lemma py_slice_none {A} (start : option Z) (l : list A) :
  py_slice start (Some 0%Z) l = [].
Proof.
  unfold py_slice. cbn [from_option]. unfold slice_bound at 2.
  cbn [Z.ltb Z.compare]. rewrite Z.min_l by lia. cbn [Z.to_nat take].
  apply drop_nil.
Qed.

End Shapes.

(** X22.  [Get_new_shape] puts [ref_size] on the reference axis and returns a
    gap that brings the other side to a multiple of [unit]: with padding
    the gap lies in [1..unit] (a side that is already a multiple gets a
    whole unit), without it in [-(unit-1)..0]. *)
Theorem Get_new_shape_gap (size : Z * Z) (ref_size unit : Z)
  (by_width use_paddig : bool) :
  (if by_width then size.1 else size.2) ≠ 0%Z → (0 < unit)%Z →
  ∃ target gap,
    Get_new_shape size ref_size unit by_width use_paddig
    = Some (if by_width then (ref_size, target) else (target, ref_size), gap)
    ∧ ((target + gap) `mod` unit = 0)%Z
    ∧ (if use_paddig then 0 < gap ≤ unit else - unit < gap ≤ 0)%Z.
Proof.
  intros Href Hunit.
  destruct (Get_new_shape_Some size ref_size unit by_width use_paddig Href)
    as [target ->]; [lia|].
  eexists _, _. split; [done|].
  pose proof (Z.mod_pos_bound target unit Hunit) as Hm.
  destruct use_paddig.
  - split; [|lia].
    replace (target + (unit - target `mod` unit))%Z
      with (target - target `mod` unit + 1 * unit)%Z by lia.
    rewrite Z.mod_add by lia.
    rewrite (Z.div_mod target unit) at 1 by lia.
    replace (unit * (target `div` unit) + target `mod` unit
             - target `mod` unit)%Z
      with ((target `div` unit) * unit)%Z by lia.
    apply Z.mod_mul. lia.
  - split; [|lia].
    rewrite (Z.div_mod target unit) at 1 by lia.
    replace (unit * (target `div` unit) + target `mod` unit
             + - (target `mod` unit))%Z
      with ((target `div` unit) * unit)%Z by lia.
    apply Z.mod_mul. lia.
Qed.

Lemma Get_new_shape_gap_witness :
  ((1920 ≠ 0)%Z ∧ (0 < 14)%Z)
  ∧ ∃ target gap,
      Get_new_shape (1920, 1080)%Z 518 14 true true
      = Some ((518, target)%Z, gap)
      ∧ ((target + gap) `mod` 14 = 0)%Z
      ∧ (0 < gap ≤ 14)%Z.
Proof.
  split; [split; lia|].
  apply (Get_new_shape_gap (1920, 1080)%Z 518 14 true true); cbn; lia.
Defined.

(** X23.  Cropping by a negative gap removes [-gap] pixels from the chosen axis,
    in each of the three crop modes, and leaves the other axis alone. *)
Theorem Adjust_size_crop_shape {P} (img : list (list P)) mode (gap : Z)
  (is_width : bool) (filling : P) (h w : nat) :
  has_shape h w img →
  mode = "crop_n" ∨ mode = "crop_f" ∨ mode = "crop_c" →
  (- Z.of_nat (side is_width h w) ≤ gap < 0)%Z →
  let '(h', w') :=
    with_side is_width h w (Z.to_nat (Z.of_nat (side is_width h w) + gap)) in
  has_shape h' w' (Adjust_size img mode gap is_width filling).
Proof. apply Adjust_size_crop. Qed.

(** X24.  Padding adds [|gap|] pixels to the chosen axis and leaves the other
    axis alone. *)
Theorem Adjust_size_pad_shape {P} (img : list (list P)) (gap : Z)
  (is_width : bool) (filling : P) (h w : nat) :
  has_shape h w img → 0 < h →
  let '(h', w') :=
    with_side is_width h w (side is_width h w + Z.to_nat (Z.abs gap)) in
  has_shape h' w' (Adjust_size img "pad" gap is_width filling).
Proof. apply Adjust_size_pad. Qed.

(** X25.  With a gap of zero, [crop_f] and [pad] return the image, while
    [crop_n] and [crop_c] return an image with nothing left on the chosen
    axis. *)
Theorem Adjust_size_zero_gap {P} (img : list (list P)) (is_width : bool)
  (filling : P) :
  Adjust_size img "crop_f" 0 is_width filling = img
  ∧ Adjust_size img "pad" 0 is_width filling = img
  ∧ Adjust_size img "crop_n" 0 is_width filling
    = (if is_width then replicate (length img) [] else [])
  ∧ Adjust_size img "crop_c" 0 is_width filling
    = (if is_width then replicate (length img) [] else []).
Proof.
  unfold Adjust_size. cbn [String.eqb Ascii.eqb Bool.eqb].
  change (- 0)%Z with 0%Z. cbn [Z.ltb Z.compare Z.div Z.div_eucl Z.sub Z.add
                                Z.opp fst Z.to_nat replicate app].
  destruct is_width; split_and!.
  - rewrite <-(list_fmap_id img) at 2. apply list_fmap_ext.
    intros ? row _. apply py_slice_all.
  - rewrite <-(list_fmap_id img) at 2. apply list_fmap_ext.
    intros ? row _. apply app_nil_r.
  - induction img as [|row img IH]; [done|].
    cbn [map length replicate]. by rewrite py_slice_none, IH.
  - induction img as [|row img IH]; [done|].
    cbn [map length replicate]. by rewrite py_slice_none, IH.
  - apply py_slice_all.
  - apply app_nil_r.
  - apply py_slice_none.
  - apply py_slice_none.
Qed.

(** X26.  Padding by a non-zero gap and then centre-cropping by the same gap
    returns the image. *)
Theorem Adjust_size_pad_crop_c {P} (img : list (list P)) (gap : Z)
  (is_width : bool) (filling filling' : P) :
  gap ≠ 0%Z →
  Adjust_size (Adjust_size img "pad" gap is_width filling)
              "crop_c" gap is_width filling' = img.
Proof. apply pad_then_crop_c. Qed.

(** X27.  The two steps of [Resize_img] after the resize: when an image has the
    side [Get_new_shape] computed, adjusting it by the gap [Get_new_shape]
    returned (padding if it was asked to pad, any crop mode with a
    non-zero gap otherwise) gives a side that is a multiple of [unit]. *)
Theorem adjusted_side_multiple_of_unit {P} (img : list (list P))
  (size : Z * Z) (ref_size unit : Z) (by_width use_paddig : bool)
  (mode : string) (filling : P) (h w : nat) shape gap :
  Get_new_shape size ref_size unit by_width use_paddig = Some (shape, gap) →
  (0 < unit)%Z →
  has_shape h w img → 0 < h →
  Z.of_nat (side (negb by_width) h w)
  = (if by_width then shape.2 else shape.1) →
  (use_paddig = true ∧ mode = "pad")
  ∨ (use_paddig = false ∧ gap ≠ 0%Z
     ∧ (mode = "crop_n" ∨ mode = "crop_f" ∨ mode = "crop_c")) →
  ∃ n, (Z.of_nat n `mod` unit = 0)%Z
    ∧ let '(h', w') := with_side (negb by_width) h w n in
      has_shape h' w'
        (Adjust_size img mode gap (negb by_width) filling).
Proof.
  intros Hshape Hunit Himg Hpos Hside Hmode.
  unfold Get_new_shape in Hshape.
  destruct (decide _) as [|Href]; [done|].
  destruct (decide (unit = 0%Z)) as [|_]; [done|].
  set (target := np_round _) in Hshape.
  assert (Z.of_nat (side (negb by_width) h w) = target) as Htarget.
  { rewrite Hside. injection Hshape as <- _. by destruct by_width. }
  pose proof (Z.mod_pos_bound target unit Hunit) as Hm.
  pose proof (Z.div_mod target unit ltac:(lia)) as Hdm.
  pose proof (Z.mod_le target unit ltac:(lia) Hunit) as Hle.
  destruct Hmode as [[-> ->]|(-> & Hgap & Hmode)];
    injection Hshape as _ <-.
  - exists (side (negb by_width) h w
            + Z.to_nat (Z.abs (unit - target `mod` unit))).
    split; [|by apply Adjust_size_pad].
    replace (Z.of_nat (side (negb by_width) h w
                       + Z.to_nat (Z.abs (unit - target `mod` unit))))
      with ((target `div` unit + 1) * unit)%Z by lia.
    apply Z.mod_mul. lia.
  - exists (Z.to_nat (Z.of_nat (side (negb by_width) h w)
                      + - (target `mod` unit))).
    split; [|apply Adjust_size_crop; [done..|lia]].
    replace (Z.of_nat (Z.to_nat (Z.of_nat (side (negb by_width) h w)
                                 + - (target `mod` unit))))
      with ((target `div` unit) * unit)%Z by lia.
    apply Z.mod_mul. lia.
Qed.

(** A 3 by 2 image, the size [Get_new_shape] gives for a 4 by 6 image
    resized to width 2. *)
Definition thumbnail : list (list Z) := [[1; 2]; [3; 4]; [5; 6]]%Z.

Lemma thumbnail_shape : has_shape 3 2 thumbnail.
Proof. split; [done|]. by repeat constructor. Defined.

Lemma Adjust_size_crop_shape_witness :
  (has_shape 3 2 thumbnail ∧ (- Z.of_nat 3 ≤ - 1 < 0)%Z)
  ∧ has_shape 2 2 (Adjust_size thumbnail "crop_c" (- 1) false 0%Z).
Proof.
  assert (- Z.of_nat (side false 3 2) ≤ - 1 < 0)%Z as Hgap by (cbn; lia).
  split; [split; [apply thumbnail_shape|exact Hgap]|].
  exact (Adjust_size_crop_shape thumbnail "crop_c" (- 1) false 0%Z 3 2
           thumbnail_shape (or_intror (or_intror eq_refl)) Hgap).
Defined.

Lemma Adjust_size_pad_shape_witness :
  (has_shape 3 2 thumbnail ∧ 0 < 3)
  ∧ has_shape 3 5 (Adjust_size thumbnail "pad" 3 true 0%Z).
Proof.
  split; [split; [apply thumbnail_shape|lia]|].
  exact (Adjust_size_pad_shape thumbnail 3 true 0%Z 3 2
           thumbnail_shape ltac:(lia)).
Defined.

Lemma Adjust_size_pad_crop_c_witness :
  (3 ≠ 0)%Z
  ∧ Adjust_size (Adjust_size thumbnail "pad" 3 true 255%Z) "crop_c" 3 true 0%Z
    = thumbnail.
Proof.
  split; [lia|].
  apply (Adjust_size_pad_crop_c thumbnail 3 true 255%Z 0%Z). lia.
Defined.

Lemma adjusted_side_multiple_of_unit_witness :
  (Get_new_shape (4, 6)%Z 2 2 true true = Some ((2, 3)%Z, 1%Z)
   ∧ (0 < 2)%Z ∧ has_shape 3 2 thumbnail ∧ 0 < 3)
  ∧ ∃ n, (Z.of_nat n `mod` 2 = 0)%Z
      ∧ has_shape n 2 (Adjust_size thumbnail "pad" 1 false 255%Z).
Proof.
  assert (Get_new_shape (4, 6)%Z 2 2 true true = Some ((2, 3)%Z, 1%Z))
    as Hshape by (by vm_compute).
  split; [split_and!; [exact Hshape|lia|apply thumbnail_shape|lia]|].
  destruct (adjusted_side_multiple_of_unit thumbnail (4, 6)%Z 2 2 true true
              "pad" 255%Z 3 2 (2, 3)%Z 1%Z Hshape ltac:(lia)
              thumbnail_shape ltac:(lia) eq_refl
              (or_introl (conj eq_refl eq_refl))) as (n & Hn & Hs).
  exists n. split; [exact Hn|exact Hs].
Defined.

(** ** Image_Process.Visualize_image_with_threshold *)

(** Python's [min] and [max] of two numbers. *)
Definition py_min (a b : Qc) : Qc := if bool_decide (a ≤ b)%Qc then a else b.
Definition py_max (a b : Qc) : Qc := if bool_decide (a ≤ b)%Qc then b else a.

(** [np.min] and [np.max] of an image; an empty image raises. *)
Definition np_min (image : IMG_1C) : result Qc :=
  match concat image with
  | [] => Raise ValueError
  | x :: xs => Ok (foldr py_min x xs)
  end.

Definition np_max (image : IMG_1C) : result Qc :=
  match concat image with
  | [] => Raise ValueError
  | x :: xs => Ok (foldr py_max x xs)
  end.

(** Conversion of an integral float to [np.uint8]. *)
Definition astype_uint8 (z : Z) : Z := (z `mod` 256)%Z.

Section Visualize.

(** [cv2.applyColorMap(_, cmap)] on one gray level: the colour the map
    [cmap] gives it. *)
Variable cmap : Z → Z * Z * Z.

(** [Visualize_image_with_threshold(image, threshold, cmap,
    visualize_ground)]. *)
Definition Visualize_image_with_threshold (image : IMG_1C)
  (threshold : option (Qc * Qc)) (visualize_ground : bool)
  : result (list (list (Z * Z * Z))) :=
  let image :=
    match threshold with
    | Some (t0, t1) =>
        let _h := py_max t0 t1 in
        let _l := py_min t0 t1 in
        map (map (fun x =>
                    if bool_decide (x < _l)%Qc && bool_decide (_h < x)%Qc
                    then 0%Qc else x)) image
    | None => image
    end in
  _min ← np_min image;
  _max ← np_max image;
  let _img :=
    if decide (_min = _max) then map (map (fun _ => astype_uint8 255)) image
    else
      map (map (fun x =>
                  astype_uint8
                    (np_round ((x - _min) / (_max - _min) * Qc_of_Z 255)%Qc)))
          image in
  let _colored_d := map (map (fun g => (g, cmap g))) _img in
  Ok (map (map (fun '(g, c) =>
                  if negb visualize_ground && bool_decide (g = 0%Z)
                  then (0, 0, 0)%Z else c)) _colored_d).

Lemma py_min_le_max a b : (py_min a b ≤ py_max a b)%Qc.
Proof.
  unfold py_min, py_max. case_bool_decide as Hab; [done|].
  apply Qclt_le_weak. by apply Qcnot_le_lt.
Qed.

Lemma threshold_mask_empty (image : IMG_1C) (t0 t1 : Qc) :
  map (map (fun x =>
              if bool_decide (x < py_min t0 t1)%Qc
                 && bool_decide (py_max t0 t1 < x)%Qc
              then 0%Qc else x)) image = image.
Proof.
  change (map ?f ?l) with (f <$> l).
  rewrite <-(list_fmap_id image) at 2. apply list_fmap_ext. intros ? row _.
  rewrite <-(list_fmap_id row) at 2. apply list_fmap_ext. intros ? x _.
  destruct (bool_decide (x < py_min t0 t1)%Qc) eqn:Hl; [|done].
  destruct (bool_decide (py_max t0 t1 < x)%Qc) eqn:Hh; [|done].
  apply bool_decide_eq_true_1 in Hl, Hh. exfalso.
  apply (Qclt_not_le _ _ (Qclt_trans _ _ _ Hh Hl)), py_min_le_max.
Qed.

Lemma Visualize_without_threshold (image : IMG_1C) (t : Qc * Qc)
  (visualize_ground : bool) :
  Visualize_image_with_threshold image (Some t) visualize_ground
  = Visualize_image_with_threshold image None visualize_ground.
Proof.
  destruct t as [t0 t1]. unfold Visualize_image_with_threshold.
  by rewrite threshold_mask_empty.
Qed.

Lemma lookup_map_map {A B} (f : A → B) (img : list (list A)) (y x : nat) :
  map (map f) img !! y ≫= (.!! x) = f <$> (img !! y ≫= (.!! x)).
Proof.
  change (map ?g ?l) with (g <$> l). rewrite list_lookup_fmap.
  destruct (img !! y) as [row|]; [|done]. simpl.
  change (map ?g ?l) with (g <$> l). by rewrite list_lookup_fmap.
Qed.

Lemma foldr_py_min_constant c xs :
  Forall (eq c) xs → foldr py_min c xs = c.
Proof.
  induction 1 as [|x xs <- _ IH]; [done|]. cbn [foldr]. rewrite IH.
  unfold py_min. by case_bool_decide.
Qed.

Lemma foldr_py_max_constant c xs :
  Forall (eq c) xs → foldr py_max c xs = c.
Proof.
  induction 1 as [|x xs <- _ IH]; [done|]. cbn [foldr]. rewrite IH.
  unfold py_max. by case_bool_decide.
Qed.

Lemma Visualize_constant (image : IMG_1C) (threshold : option (Qc * Qc))
  (visualize_ground : bool) (c : Qc) :
  concat image ≠ [] → Forall (Forall (eq c)) image →
  Visualize_image_with_threshold image threshold visualize_ground
  = Ok (map (map (fun _ => cmap 255)) image).
Proof.
  intros Hne Hc.
  destruct threshold as [t|]; [rewrite Visualize_without_threshold|];
    unfold Visualize_image_with_threshold, np_min, np_max.
  all: assert (Forall (eq c) (concat image)) as Hall
         by (by apply Forall_concat).
  all: destruct (concat image) as [|x xs]; [done|].
  all: apply Forall_cons in Hall as [<- Hall].
  all: rewrite foldr_py_min_constant, foldr_py_max_constant by done.
  all: cbn [mbind result_bind]; rewrite decide_True by done.
  all: f_equal; change (map ?g ?l) with (g <$> l).
  all: rewrite <-!list_fmap_compose; apply list_fmap_ext; intros ? row _.
  all: cbn [compose]; rewrite <-!list_fmap_compose.
  all: apply list_fmap_ext; intros ? x _; cbn [compose].
  all: by rewrite andb_false_r.
Qed.

Lemma Visualize_extremes (image : IMG_1C) (threshold : option (Qc * Qc))
  (visualize_ground : bool) (lo hi : Qc) (y x : nat) :
  np_min image = Ok lo → np_max image = Ok hi → lo ≠ hi →
  ∃ out,
    Visualize_image_with_threshold image threshold visualize_ground = Ok out
    ∧ (image !! y ≫= (.!! x) = Some lo →
       out !! y ≫= (.!! x)
       = Some (if visualize_ground then cmap 0 else (0, 0, 0)%Z))
    ∧ (image !! y ≫= (.!! x) = Some hi →
       out !! y ≫= (.!! x) = Some (cmap 255)).
Proof.
  intros Hlo Hhi Hne.
  assert (hi - lo ≠ 0)%Qc as Hspan.
  { intros Heq. apply Hne. symmetry.
    rewrite <-(Qcplus_0_r lo), <-Heq. ring. }
  assert (Visualize_image_with_threshold image threshold visualize_ground
          = Visualize_image_with_threshold image None visualize_ground) as ->
    by (destruct threshold; [apply Visualize_without_threshold|done]).
  unfold Visualize_image_with_threshold. rewrite Hlo, Hhi.
  cbn [mbind result_bind]. rewrite decide_False by done.
  eexists. split; [done|].
  rewrite !lookup_map_map. split; intros ->; cbn [fmap option_fmap option_map].
  - assert (∀ k, (lo - lo) / (hi - lo) * k = 0)%Qc as ->
      by (intros k; by field).
    change (np_round 0%Qc) with (np_round (Qc_of_Z 0)).
    rewrite (np_round_Z 0). change (astype_uint8 0) with 0%Z.
    by destruct visualize_ground.
  - assert (∀ k, (hi - lo) / (hi - lo) * k = k)%Qc as ->
      by (intros k; by field).
    rewrite np_round_Z. change (astype_uint8 255) with 255%Z.
    by rewrite andb_false_r.
Qed.

End Visualize.

(** X28.  The threshold has no effect: the mask selects the values that are at
    once below the smaller and above the larger bound, so no pixel is
    cleared and the result is the one without a threshold. *)
Theorem threshold_has_no_effect cmap (image : IMG_1C) (t : Qc * Qc)
  (visualize_ground : bool) :
  Visualize_image_with_threshold cmap image (Some t) visualize_ground
  = Visualize_image_with_threshold cmap image None visualize_ground.
Proof. apply Visualize_without_threshold. Qed.

(** X29.  An image whose pixels all hold one value is drawn in the colour of
    gray level 255 everywhere, whatever the threshold and the flag. *)
Theorem constant_image_one_colour cmap (image : IMG_1C)
  (threshold : option (Qc * Qc)) (visualize_ground : bool) (c : Qc) :
  concat image ≠ [] → Forall (Forall (eq c)) image →
  Visualize_image_with_threshold cmap image threshold visualize_ground
  = Ok (map (map (fun _ => cmap 255%Z)) image).
Proof. apply Visualize_constant. Qed.

(** X30.  On an image with at least two values, a pixel holding the least value
    is drawn black (or, with [visualize_ground], in the colour of gray
    level 0) and a pixel holding the greatest value in the colour of gray
    level 255. *)
Theorem extreme_pixels cmap (image : IMG_1C) (threshold : option (Qc * Qc))
  (visualize_ground : bool) (lo hi : Qc) (y x : nat) :
  np_min image = Ok lo → np_max image = Ok hi → lo ≠ hi →
  ∃ out,
    Visualize_image_with_threshold cmap image threshold visualize_ground
    = Ok out
    ∧ (image !! y ≫= (.!! x) = Some lo →
       out !! y ≫= (.!! x)
       = Some (if visualize_ground then cmap 0%Z else (0, 0, 0)%Z))
    ∧ (image !! y ≫= (.!! x) = Some hi →
       out !! y ≫= (.!! x) = Some (cmap 255%Z)).
Proof. apply Visualize_extremes. Qed.

(** The gray colour map: level [g] is drawn as [(g, g, g)]. *)
Definition gray_cmap (g : Z) : Z * Z * Z := (g, g, g).

Definition flat_map : IMG_1C := [[1%Qc; 1%Qc]; [1%Qc; 1%Qc]].

Lemma constant_image_one_colour_witness :
  (concat flat_map ≠ [] ∧ Forall (Forall (eq 1%Qc)) flat_map)
  ∧ Visualize_image_with_threshold gray_cmap flat_map None false
    = Ok (map (map (fun _ => gray_cmap 255%Z)) flat_map).
Proof.
  assert (concat flat_map ≠ []) as Hne by done.
  assert (Forall (Forall (eq 1%Qc)) flat_map) as Hc by (by repeat constructor).
  split; [by split|].
  exact (constant_image_one_colour gray_cmap flat_map None false 1%Qc Hne Hc).
Defined.

Lemma extreme_pixels_witness :
  (np_min small_map = Ok 0%Qc ∧ np_max small_map = Ok (Qc_of_Z 3)
   ∧ 0%Qc ≠ Qc_of_Z 3)
  ∧ ∃ out,
      Visualize_image_with_threshold gray_cmap small_map None false = Ok out
      ∧ (small_map !! 0%nat ≫= (.!! 1%nat) = Some 0%Qc →
         out !! 0%nat ≫= (.!! 1%nat) = Some (0, 0, 0)%Z)
      ∧ (small_map !! 0%nat ≫= (.!! 1%nat) = Some (Qc_of_Z 3) →
         out !! 0%nat ≫= (.!! 1%nat) = Some (gray_cmap 255%Z)).
Proof.
  assert (np_min small_map = Ok 0%Qc) as Hlo by by_evaluation.
  assert (np_max small_map = Ok (Qc_of_Z 3)) as Hhi by by_evaluation.
  assert (0%Qc ≠ Qc_of_Z 3) as Hne by by_evaluation.
  split; [by split_and!|].
  exact (extreme_pixels gray_cmap small_map None false 0%Qc (Qc_of_Z 3) 0 1
           Hlo Hhi Hne).
Defined.
